(** * Beartype PEP-compliant type-checking code generator

    A shallow embedding of [beartype._decor._code._pep._pephint] (the
    breadth-first, placeholder-substituting generator [pep_code_check_hint])
    and of the code snippets of [beartype._decor._code._pep._pepsnip],
    followed by the properties of the generated code. *)

From Stdlib Require Import ZArith String Ascii List Lia Bool.
From Stdlib Require Import Numbers.DecimalString DecimalFacts DecimalZ.
Import ListNotations.
Open Scope string_scope.
Open Scope Z_scope.

Set Implicit Arguments.
Set Warnings "-register-all".

(** ** Python text *)

Module Text.

(** The newline character of the triple-quoted snippets. *)
Definition nl : string := String (ascii_of_nat 10) EmptyString.

(** Python's [str(i)] for an integer. *)
Definition str_of_int (i : Z) : string := NilZero.string_of_int (Z.to_int i).

(** Python's [c in s] for a character. *)
Fixpoint has_char (c : ascii) (s : string) : bool :=
  match s with
  | EmptyString => false
  | String d s' => Ascii.eqb c d || has_char c s'
  end.

(** Python's [s.startswith(p)]. *)
Fixpoint startswith (p s : string) : bool :=
  match p, s with
  | EmptyString, _ => true
  | String _ _, EmptyString => false
  | String a p', String b s' => Ascii.eqb a b && startswith p' s'
  end.

(** Python's [sub in s]. *)
Fixpoint contains (sub s : string) : bool :=
  startswith sub s ||
  match s with
  | EmptyString => false
  | String _ s' => contains sub s'
  end.

(** Python's [s.replace(old, new)] for a non-empty [old]: the occurrences
    of [old] are replaced from left to right, never overlapping. [skip]
    counts the characters of a matched occurrence still to be dropped. *)
Fixpoint replace_from (skip : nat) (old new s : string) : string :=
  match s with
  | EmptyString => EmptyString
  | String c s' =>
      match skip with
      | S k => replace_from k old new s'
      | O =>
          if startswith old s
          then new ++ replace_from (Nat.pred (String.length old)) old new s'
          else String c (replace_from O old new s')
      end
  end.

Definition replace (old new s : string) : string := replace_from O old new s.

(** Python's [s[:k]]: a negative [k] counts from the end. *)
Definition slice_to (k : Z) (s : string) : string :=
  let len := Z.of_nat (String.length s) in
  let stop := if k <? 0 then Z.max 0 (len + k) else Z.min k len in
  substring 0 (Z.to_nat stop) s.

(** The characters of Python's [str(i)] for an integer. *)
Definition decimal_char (c : ascii) : bool :=
  has_char c "0123456789-".

End Text.

(** ** Exceptions and results *)

(** The exceptions [pep_code_check_hint] and the builtins it calls can
    raise. *)
Inductive exn : Type :=
| BeartypeDecorHintPepException
| BeartypeDecorHintPepUnsupportedException
| BeartypeDecorHintPep484Exception
| BeartypeDecorHintPep586Exception
| BeartypeDecorHintPep593Exception
| AssertionError
| KeyError (key : string)
| IndexError
| ValueError
| TypeError
| NameError
| ZeroDivisionError.

(** A call either returns a value or raises. *)
Inductive result (A : Type) : Type :=
| Return (a : A)
| Raise (e : exn).

Arguments Return {A} a.
Arguments Raise {A} e.

Definition bind {A B : Type} (r : result A) (k : A -> result B) : result B :=
  match r with
  | Return a => k a
  | Raise e => Raise e
  end.

Notation "x <- r ;; k" := (bind r (fun x => k))
  (at level 61, r at next level, right associativity).
Notation "' p <- r ;; k" := (bind r (fun x => let p := x in k))
  (at level 61, p pattern, r at next level, right associativity).

Definition raises {A : Type} (r : result A) : bool :=
  match r with Return _ => false | Raise _ => true end.

(** Python's [assert c]. *)
Definition assert (c : bool) : result unit :=
  if c then Return tt else Raise AssertionError.

(** ** [str.format] *)

Module Format.

(** Keyword arguments of a [str.format] call. *)
Definition kwargs := list (string * string).

Fixpoint lookup (kw : kwargs) (name : string) : option string :=
  match kw with
  | [] => None
  | (k, v) :: kw' => if String.eqb k name then Some v else lookup kw' name
  end.

(** Where the scan of the format string stands: in literal text, just
    after an opening or closing brace, or inside a replacement field whose
    name so far is [name]. *)
Inductive mode : Type :=
| Literal
| Opened
| Closed
| Field (name : string).

(** [scan kw m s] formats the rest [s] of a format string: [{{] and [}}]
    are escaped braces, [{name}] is replaced by the keyword argument
    [name] (the snippets use no conversions or format specifications). *)
Fixpoint scan (kw : kwargs) (m : mode) (s : string) : result string :=
  match s with
  | EmptyString =>
      match m with
      | Literal => Return EmptyString
      | _ => Raise ValueError
      end
  | String c s' =>
      match m with
      | Literal =>
          if Ascii.eqb c "{" then scan kw Opened s'
          else if Ascii.eqb c "}" then scan kw Closed s'
          else r <- scan kw Literal s' ;; Return (String c r)
      | Opened =>
          if Ascii.eqb c "{" then r <- scan kw Literal s' ;; Return (String c r)
          else if Ascii.eqb c "}" then Raise IndexError
          else scan kw (Field (String c EmptyString)) s'
      | Closed =>
          if Ascii.eqb c "}" then r <- scan kw Literal s' ;; Return (String c r)
          else Raise ValueError
      | Field name =>
          if Ascii.eqb c "}" then
            match lookup kw name with
            | Some v => r <- scan kw Literal s' ;; Return (v ++ r)
            | None => Raise (KeyError name)
            end
          else if Ascii.eqb c "{" then Raise ValueError
          else scan kw (Field (name ++ String c EmptyString)) s'
      end
  end.

(** Python's [template.format] called with the keyword arguments [kw]. *)
Definition format (template : string) (kw : kwargs) : result string :=
  scan kw Literal template.

End Format.

(** ** Code snippets ([_pepsnip.py]) *)

Module Snip.
Import Text.

Definition PEP_CODE_PITH_ASSIGN_EXPR : string :=
  "{pith_curr_assigned_expr} := {pith_curr_expr}".

Definition PEP_CODE_PITH_NAME_PREFIX : string := "__beartype_pith_".

Definition PEP_CODE_PITH_ROOT_NAME : string :=
  Eval cbv in PEP_CODE_PITH_NAME_PREFIX ++ "0".

Definition PEP_CODE_HINT_CHILD_PLACEHOLDER_PREFIX : string := "@[".

Definition PEP_CODE_HINT_CHILD_PLACEHOLDER_SUFFIX : string := ")!".

Definition PEP_CODE_HINT_FORWARDREF_UNQUALIFIED_PLACEHOLDER_PREFIX : string :=
  "${FORWARDREF:".

Definition PEP_CODE_HINT_FORWARDREF_UNQUALIFIED_PLACEHOLDER_SUFFIX : string :=
  "]?".

Definition PEP_CODE_CHECK_HINT_NONPEP_TYPE : string :=
  "isinstance({pith_curr_expr}, {hint_curr_expr})".

Definition PEP_CODE_CHECK_HINT_SEQUENCE_STANDARD : string := Eval cbv in
  "(" ++ nl ++
  "{indent_curr}    # True only if this pith shallowly satisfies this hint." ++ nl ++
  "{indent_curr}    isinstance({pith_curr_assign_expr}, {hint_curr_expr}) and" ++ nl ++
  "{indent_curr}    # True only if either this pith is empty *OR* this pith is" ++ nl ++
  "{indent_curr}    # both non-empty and deeply satisfies this hint." ++ nl ++
  "{indent_curr}    (not {pith_curr_assigned_expr} or {hint_child_placeholder})" ++ nl ++
  "{indent_curr})".

Definition PEP_CODE_CHECK_HINT_SEQUENCE_STANDARD_PITH_CHILD_EXPR : string :=
  "{pith_curr_assigned_expr}[__beartype_random_int % len({pith_curr_assigned_expr})]".

(** The prefix as [_pepsnip.py] has it. It names the field
    [hint_curr_expr], which the case of fixed-length tuples of
    [_pephint.py] neither computes nor passes: [_pephint.py] is written
    for another version of this snippet, which it takes as the optional
    parameter [_PEP_CODE_CHECK_HINT_TUPLE_FIXED_PREFIX] and which is a
    parameter of the generator below. *)
Definition PEP_CODE_CHECK_HINT_TUPLE_FIXED_PREFIX : string := Eval cbv in
  "(" ++ nl ++
  "{indent_curr}    # True only if this pith is a tuple." ++ nl ++
  "{indent_curr}    isinstance({pith_curr_assign_expr}, {hint_curr_expr}) and".

Definition PEP_CODE_CHECK_HINT_TUPLE_FIXED_SUFFIX : string := Eval cbv in
  nl ++ "{indent_curr})".

Definition PEP_CODE_CHECK_HINT_TUPLE_FIXED_EMPTY : string := Eval cbv in
  nl ++
  "{{indent_curr}}    # True only if this tuple is empty." ++ nl ++
  "{{indent_curr}}    not {pith_curr_assigned_expr} and".

Definition PEP_CODE_CHECK_HINT_TUPLE_FIXED_LEN : string := Eval cbv in
  nl ++
  "{{indent_curr}}    # True only if this tuple is of the expected length." ++ nl ++
  "{{indent_curr}}    len({pith_curr_assigned_expr}) == {hint_childs_len} and".

Definition PEP_CODE_CHECK_HINT_TUPLE_FIXED_NONEMPTY_CHILD : string := Eval cbv in
  nl ++
  "{{indent_curr}}    # True only if this item of this non-empty tuple deeply" ++ nl ++
  "{{indent_curr}}    # satisfies this child hint." ++ nl ++
  "{{indent_curr}}    {hint_child_placeholder} and".

Definition PEP_CODE_CHECK_HINT_TUPLE_FIXED_NONEMPTY_PITH_CHILD_EXPR : string :=
  "{pith_curr_assigned_expr}[{pith_child_index}]".

Definition PEP484_CODE_CHECK_HINT_UNION_PREFIX : string := "(".

Definition PEP484_CODE_CHECK_HINT_UNION_SUFFIX : string := Eval cbv in
  nl ++ "{indent_curr})".

Definition PEP484_CODE_CHECK_HINT_UNION_CHILD_PEP : string := Eval cbv in
  nl ++ "{{indent_curr}}    {hint_child_placeholder} or".

Definition PEP484_CODE_CHECK_HINT_UNION_CHILD_NONPEP : string := Eval cbv in
  nl ++ "{{indent_curr}}    isinstance({pith_curr_expr}, {hint_curr_expr}) or".

End Snip.

(** ** Hints, scopes and the hint classifier *)

(** A class usable as the second argument of [isinstance], by name. *)
Definition cls := string.

(** What a wrapper function's local scope binds a name to. *)
Inductive scope_value : Type :=
| ScopeType (c : cls)
| ScopeTypes (cs : list cls)
| ScopeAttr (repr : string)
| ScopeTypistry
| ScopeGetrandbits.

(** [CallableScope]: a dictionary from attribute names to values. *)
Definition CallableScope := list (string * scope_value).

Fixpoint scope_get (scope : CallableScope) (name : string) : option scope_value :=
  match scope with
  | [] => None
  | (k, v) :: scope' => if String.eqb k name then Some v else scope_get scope' name
  end.

(** [scope[name] = v]. *)
Fixpoint scope_set (scope : CallableScope) (name : string) (v : scope_value)
  : CallableScope :=
  match scope with
  | [] => [(name, v)]
  | (k, w) :: scope' =>
      if String.eqb k name then (k, v) :: scope'
      else (k, w) :: scope_set scope' name v
  end.


(** The sign of a PEP-compliant hint: the unsubscripted [typing]
    attribute (or builtin type) that identifies its category. The signs
    the generator compares by identity are constructors of their own. *)
Inductive sign : Type :=
| HINT_PEP593_SIGN_ANNOTATED
| HINT_PEP484_TYPE_FORWARDREF
| Generic
| HINT_PEP586_SIGN_LITERAL
| NoReturn
| tuple
| SignAttr (name : string).

Definition sign_eqb (s t : sign) : bool :=
  match s, t with
  | HINT_PEP593_SIGN_ANNOTATED, HINT_PEP593_SIGN_ANNOTATED => true
  | HINT_PEP484_TYPE_FORWARDREF, HINT_PEP484_TYPE_FORWARDREF => true
  | Generic, Generic => true
  | HINT_PEP586_SIGN_LITERAL, HINT_PEP586_SIGN_LITERAL => true
  | NoReturn, NoReturn => true
  | tuple, tuple => true
  | SignAttr a, SignAttr b => String.eqb a b
  | _, _ => false
  end.

(** The objects that reach the generator as hints or as arguments of
    hints, as far as the generator tells them apart. *)
Inductive hint : Type :=
| HintNone
    (* the None singleton *)
| HintEllipsis
    (* the Ellipsis singleton, as in Tuple[T, ...] *)
| HintClass (c : cls)
    (* a PEP-noncompliant class *)
| HintObject (repr : string)
    (* any other object: neither PEP-compliant nor a class *)
| HintSubscriptedIs (is_valid_code : string) (is_valid_code_locals : CallableScope)
    (* an instance of beartype._vale._valesub._SubscriptedIs *)
| HintForwardRef (classname : string)
    (* a forward reference to the class of this name *)
| HintNewType (c : cls)
    (* a PEP 484 new type aliasing this class *)
| HintIOGeneric (protocol : hint)
    (* a PEP 484 IO generic base class and its PEP 544 protocol *)
| HintAnnotated (metahint : hint) (metadata0 : hint) (metadata : list hint)
    (* typing.Annotated[metahint, metadata0, *metadata] *)
| HintGeneric (generic_type : option cls) (bases : list (hint * hint))
    (* a generic or protocol: its class if any, and each unerased
       pseudo-superclass with the erased superclass it stands for *)
| HintSign (s : sign)
    (* an unsubscripted typing attribute: a hint that is its own sign *)
| HintSubscripted (s : sign) (args : list hint).
    (* a typing attribute subscripted by these arguments *)

(** One item of the [hints_meta] queue: the tuple [(hint, placeholder,
    pith_expr, indent)]. *)
Record hint_meta : Type := HintMeta {
  HINT_META_INDEX_HINT : hint;
  HINT_META_INDEX_PLACEHOLDER : string;
  HINT_META_INDEX_PITH_EXPR : string;
  HINT_META_INDEX_INDENT : string;
}.

(** What [pep_code_check_hint] imports from modules outside
    [_pephint.py] and [_pepsnip.py]: constants, the tables of signs, the
    hint classifier's answers that the structure of a hint does not
    determine, and the scope builder. *)
Record External : Type := {
  (* beartype._util.text.utiltextmagic *)
  CODE_INDENT_1 : string;
  CODE_INDENT_2 : string;
  LINE_RSTRIP_INDEX_AND : Z;
  LINE_RSTRIP_INDEX_OR : Z;
  (* beartype._decor._code.codesnip *)
  ARG_NAME_GETRANDBITS : string;
  ARG_NAME_TYPISTRY : string;
  (* beartype._util.py.utilpyversion *)
  IS_PYTHON_AT_LEAST_3_8 : bool;
  (* beartype._cave._cavefast *)
  NoneType : cls;
  (* snippets imported from _pepsnip under names it does not define *)
  PEP_CODE_CHECK_HINT_ROOT_PREFIX : string;
  PEP_CODE_CHECK_HINT_ROOT_SUFFIX : string;
  PEP_CODE_CHECK_HINT_ROOT_SUFFIX_RANDOM_INT : string;
  PEP_CODE_CHECK_HINT_GENERIC_PREFIX : string;
  PEP_CODE_CHECK_HINT_GENERIC_SUFFIX : string;
  PEP_CODE_CHECK_HINT_GENERIC_CHILD : string;
  PEP586_CODE_CHECK_HINT_PREFIX : string;
  PEP586_CODE_CHECK_HINT_LITERAL : string;
  PEP586_CODE_CHECK_HINT_SUFFIX : string;
  PEP593_CODE_CHECK_HINT_SUBSCRIPTEDIS_PREFIX : string;
  PEP593_CODE_CHECK_HINT_SUBSCRIPTEDIS_SUFFIX : string;
  PEP593_CODE_CHECK_HINT_SUBSCRIPTEDIS_CHILD : string;
  (* the optional parameter _PEP_CODE_CHECK_HINT_TUPLE_FIXED_PREFIX of
     pep_code_check_hint: the case of fixed-length tuples formats it with
     indent_curr and pith_curr_assign_expr only, and the version of
     _pepsnip that gives its default is not the one in src *)
  PEP_CODE_CHECK_HINT_TUPLE_FIXED_PREFIX : string;
  (* beartype._util.hint.data: the tables of signs and hints *)
  HINT_PEP484_SIGNS_UNION : sign -> bool;
  HINT_PEP_SIGNS_SEQUENCE_STANDARD : sign -> bool;
  HINT_PEP_SIGNS_TUPLE : sign -> bool;
  HINT_PEP_SIGNS_TYPE_ORIGIN_STDLIB : sign -> bool;
  HINT_PEP_SIGNS_SUPPORTED_DEEP : sign -> bool;
  HINT_PEP_SIGNS_SUPPORTED : sign -> bool;
  HINTS_IGNORABLE_SHALLOW : hint -> bool;
  (* beartype._util.hint: the classifier *)
  is_hint_pep_supported : hint -> bool;
  is_hint_ignorable : hint -> bool;
  is_hint_pep_tuple_empty : hint -> bool;
  is_hint_pep585_builtin : hint -> bool;
  is_hint_pep_typing : hint -> bool;
  is_hint_pep586 : hint -> bool;
  get_hint_pep_stdlib_type : hint -> result cls;
  type_of : hint -> cls;
  hint_eqb : hint -> hint -> bool;
  (* beartype._util.func.utilfuncscope and beartype._decor._cache.cachetype *)
  add_func_scope_type : cls -> CallableScope -> string * CallableScope;
  add_func_scope_types : list hint -> CallableScope -> string * CallableScope;
  add_func_scope_attr : hint -> CallableScope -> string * CallableScope;
  register_typistry_forwardref : string -> string;
  (* beartype._util.data.utildatadict *)
  update_mapping : CallableScope -> CallableScope -> result CallableScope;
}.

(** *** The classifier's answers that the structure of a hint determines *)

Definition is_hint_pep (h : hint) : bool :=
  match h with
  | HintNone | HintEllipsis | HintClass _ | HintObject _
  | HintSubscriptedIs _ _ => false
  | _ => true
  end.

(** [isinstance(h, type)]. *)
Definition is_type (h : hint) : bool :=
  match h with
  | HintClass _ => true
  | _ => false
  end.

(** [isinstance(h, _SubscriptedIs)]. *)
Definition is_SubscriptedIs (h : hint) : bool :=
  match h with
  | HintSubscriptedIs _ _ => true
  | _ => false
  end.

Definition get_hint_pep_sign (h : hint) : sign :=
  match h with
  | HintAnnotated _ _ _ => HINT_PEP593_SIGN_ANNOTATED
  | HintForwardRef _ => HINT_PEP484_TYPE_FORWARDREF
  | HintGeneric _ _ => Generic
  | HintSign s => s
  | HintSubscripted s _ => s
  | HintNewType _ => SignAttr "NewType"
  | HintIOGeneric _ => Generic
  | _ => SignAttr "object"
  end.

Definition get_hint_pep_args (h : hint) : list hint :=
  match h with
  | HintAnnotated metahint metadata0 metadata => metahint :: metadata0 :: metadata
  | HintSubscripted _ args => args
  | _ => []
  end.

(** [hint is sign]: the hint is the unsubscripted attribute itself. *)
Definition hint_is_sign (h : hint) (s : sign) : bool :=
  match h with
  | HintSign t => sign_eqb t s
  | _ => false
  end.

Definition is_hint_pep593 (h : hint) : bool :=
  match h with HintAnnotated _ _ _ => true | _ => false end.

Definition is_hint_pep593_beartype (h : hint) : bool :=
  match h with
  | HintAnnotated _ metadata0 _ => is_SubscriptedIs metadata0
  | _ => false
  end.

Definition get_hint_pep593_metahint (h : hint) : hint :=
  match h with HintAnnotated metahint _ _ => metahint | _ => h end.

Definition get_hint_pep593_metadata (h : hint) : list hint :=
  match h with
  | HintAnnotated _ metadata0 metadata => metadata0 :: metadata
  | _ => []
  end.

Definition is_hint_pep544_io_generic (h : hint) : bool :=
  match h with HintIOGeneric _ => true | _ => false end.

Definition get_hint_pep544_io_protocol_from_generic (h : hint) : hint :=
  match h with HintIOGeneric protocol => protocol | _ => h end.

Definition is_hint_pep484_newtype (h : hint) : bool :=
  match h with HintNewType _ => true | _ => false end.

Definition get_hint_pep484_newtype_class (h : hint) : hint :=
  match h with HintNewType c => HintClass c | _ => h end.

Definition get_hint_forwardref_classname (h : hint) : result string :=
  match h with
  | HintForwardRef classname => Return classname
  | _ => Raise TypeError
  end.

Definition get_hint_pep_generic_type_or_none (h : hint) : option cls :=
  match h with HintGeneric generic_type _ => generic_type | _ => None end.

Definition get_hint_pep_generic_bases_unerased (h : hint) : list (hint * hint) :=
  match h with HintGeneric _ bases => bases | _ => [] end.

(** ** The generator's state *)

(** The local variables of [pep_code_check_hint] that outlive one
    iteration of its loop. *)
Record state : Type := State {
  hint_child_placeholder_id : Z;
  hints_meta : list (option hint_meta);
  hints_meta_index_curr : Z;
  hints_meta_index_last : Z;
  pith_curr_assign_expr_name_counter : Z;
  func_wrapper_code : string;
  func_wrapper_locals : CallableScope;
  is_var_random_int_needed : bool;
  hints_forwardref_class_basename : option (list string);
}.

Definition with_locals (st : state) (scope : CallableScope) : state :=
  State (hint_child_placeholder_id st) (hints_meta st)
    (hints_meta_index_curr st) (hints_meta_index_last st)
    (pith_curr_assign_expr_name_counter st) (func_wrapper_code st)
    scope (is_var_random_int_needed st)
    (hints_forwardref_class_basename st).

Definition with_counter (st : state) (counter : Z) : state :=
  State (hint_child_placeholder_id st) (hints_meta st)
    (hints_meta_index_curr st) (hints_meta_index_last st)
    counter (func_wrapper_code st)
    (func_wrapper_locals st) (is_var_random_int_needed st)
    (hints_forwardref_class_basename st).

Definition with_random_int (st : state) : state :=
  State (hint_child_placeholder_id st) (hints_meta st)
    (hints_meta_index_curr st) (hints_meta_index_last st)
    (pith_curr_assign_expr_name_counter st) (func_wrapper_code st)
    (func_wrapper_locals st) true
    (hints_forwardref_class_basename st).

Definition with_forwardrefs (st : state) (names : option (list string)) : state :=
  State (hint_child_placeholder_id st) (hints_meta st)
    (hints_meta_index_curr st) (hints_meta_index_last st)
    (pith_curr_assign_expr_name_counter st) (func_wrapper_code st)
    (func_wrapper_locals st) (is_var_random_int_needed st)
    names.

(** [l[i] = x] on the pooled fixed list, which is longer than any index
    the search reaches: slots never written hold [None]. *)
Fixpoint fixed_list_set {A : Type} (l : list (option A)) (i : nat) (x : option A)
  : list (option A) :=
  match i, l with
  | O, [] => [x]
  | O, _ :: l' => x :: l'
  | S i', [] => None :: fixed_list_set [] i' x
  | S i', y :: l' => y :: fixed_list_set l' i' x
  end.

(** [l[i]] on the pooled fixed list. *)
Definition fixed_list_get {A : Type} (l : list (option A)) (i : nat) : option A :=
  match nth_error l i with
  | Some x => x
  | None => None
  end.

(** Python's [set.add] and [x in set], with the hints' own equality. *)
Definition set_add {A : Type} (eqb : A -> A -> bool) (x : A) (s : list A) : list A :=
  if existsb (eqb x) s then s else s ++ [x].

(** A [for] loop whose body may raise. *)
Fixpoint for_each {A S : Type} (body : S -> A -> result S) (l : list A) (s : S)
  : result S :=
  match l with
  | [] => Return s
  | x :: l' => s' <- body s x ;; for_each body l' s'
  end.

(** Python's [enumerate]. *)
Fixpoint enumerate_from {A : Type} (i : Z) (l : list A) : list (Z * A) :=
  match l with
  | [] => []
  | x :: l' => (i, x) :: enumerate_from (i + 1) l'
  end.

Definition enumerate {A : Type} (l : list A) : list (Z * A) := enumerate_from 0 l.

(** Modelled from the spec: [replace_str_substrs] of
    [beartype._util.text.utiltextmunge], which is not among the sources;
    the placeholder is replaced by global substring substitution. *)
Definition replace_str_substrs (text old new : string) : string :=
  Text.replace old new text.

(** The placeholder of the child hint of this identifier. *)
Definition placeholder_of (id : Z) : string :=
  Snip.PEP_CODE_HINT_CHILD_PLACEHOLDER_PREFIX ++
  Text.str_of_int id ++
  Snip.PEP_CODE_HINT_CHILD_PLACEHOLDER_SUFFIX.

(** The closure [_enqueue_hint_child]: [hint_child] and [indent_child]
    are the variables of the enclosing function it reads. *)
Definition _enqueue_hint_child (st : state) (hint_child : hint)
    (indent_child : string) (pith_child_expr : string) : string * state :=
  let hints_meta_index_last' := hints_meta_index_last st + 1 in
  let hint_child_placeholder_id' := hint_child_placeholder_id st + 1 in
  let hint_child_placeholder := placeholder_of hint_child_placeholder_id' in
  (hint_child_placeholder,
   State hint_child_placeholder_id'
     (fixed_list_set (hints_meta st) (Z.to_nat hints_meta_index_last')
        (Some (HintMeta hint_child hint_child_placeholder pith_child_expr
                 indent_child)))
     (hints_meta_index_curr st) hints_meta_index_last'
     (pith_curr_assign_expr_name_counter st) (func_wrapper_code st)
     (func_wrapper_locals st) (is_var_random_int_needed st)
     (hints_forwardref_class_basename st)).

(** ** The generator ([_pephint.py]) *)

(** The local variables of one iteration of the loop, set before the
    switch on the sign of the currently visited hint. *)
Record frame : Type := Frame {
  hint_curr : hint;
  hint_curr_sign : sign;
  hint_childs : list hint;
  pith_curr_expr : string;
  pith_curr_assign_expr : string;
  pith_curr_assigned_expr : string;
  indent_curr : string;
  indent_child : string;
}.

Definition nonempty {A : Type} (l : list A) : bool :=
  match l with [] => false | _ :: _ => true end.

Definition len {A : Type} (l : list A) : Z := Z.of_nat (List.length l).

(** [hint_childs[1] is Ellipsis]. *)
Definition second_is_Ellipsis (l : list hint) : bool :=
  match l with
  | _ :: HintEllipsis :: _ => true
  | _ => false
  end.

Section Generator.

Variable E : External.

Import Format.

(** *** Reduction of the currently visited hint *)

Definition reduce_hint (hint_curr : hint) : hint :=
  match hint_curr with
  | HintNone => HintClass (NoneType E)
  | _ =>
      if is_hint_pep593 hint_curr then
        if negb (is_hint_pep593_beartype hint_curr)
        then get_hint_pep593_metahint hint_curr
        else hint_curr
      else if is_hint_pep544_io_generic hint_curr then
        get_hint_pep544_io_protocol_from_generic hint_curr
      else if is_hint_pep484_newtype hint_curr then
        get_hint_pep484_newtype_class hint_curr
      else hint_curr
  end.

(** *** Unions *)

Definition union_filter_child (sets : list hint * list hint) (hint_child : hint)
  : result (list hint * list hint) :=
  _ <- assert (negb (HINTS_IGNORABLE_SHALLOW E hint_child)) ;;
  if is_hint_pep hint_child
  then Return (fst sets, set_add (hint_eqb E) hint_child (snd sets))
  else Return (set_add (hint_eqb E) hint_child (fst sets), snd sets).

Definition union_child_pep (f : frame) (hint_childs_nonpep : list hint)
    (acc : string * state) (item : Z * hint) : result (string * state) :=
  let (func_curr_code, st) := acc in
  let (hint_child_index, hint_child) := item in
  let (hint_child_placeholder, st') :=
    _enqueue_hint_child st hint_child (indent_child f)
      (if nonempty hint_childs_nonpep || (hint_child_index >? 1)
       then pith_curr_assigned_expr f
       else pith_curr_assign_expr f) in
  code <- format Snip.PEP484_CODE_CHECK_HINT_UNION_CHILD_PEP
            [("hint_child_placeholder", hint_child_placeholder)] ;;
  Return (func_curr_code ++ code, st').

Definition check_union (f : frame) (st : state) : result (string * state) :=
  _ <- assert (nonempty (hint_childs f)) ;;
  sets <- for_each union_filter_child (hint_childs f) ([], []) ;;
  let hint_childs_nonpep := fst sets in
  let hint_childs_pep := snd sets in
  let func_curr_code := Snip.PEP484_CODE_CHECK_HINT_UNION_PREFIX in
  acc <- (if nonempty hint_childs_nonpep then
            let (hint_curr_expr, scope) :=
              add_func_scope_types E hint_childs_nonpep (func_wrapper_locals st) in
            code <- format Snip.PEP484_CODE_CHECK_HINT_UNION_CHILD_NONPEP
                      [("pith_curr_expr",
                        if nonempty hint_childs_pep
                        then pith_curr_assign_expr f
                        else pith_curr_expr f);
                       ("hint_curr_expr", hint_curr_expr)] ;;
            Return (func_curr_code ++ code, with_locals st scope)
          else Return (func_curr_code, st)) ;;
  acc <- for_each (union_child_pep f hint_childs_nonpep)
           (enumerate hint_childs_pep) acc ;;
  let (func_curr_code, st) := acc in
  if negb (String.eqb func_curr_code Snip.PEP484_CODE_CHECK_HINT_UNION_PREFIX)
  then
    code <- format
              (Text.slice_to (LINE_RSTRIP_INDEX_OR E) func_curr_code ++
               Snip.PEP484_CODE_CHECK_HINT_UNION_SUFFIX)
              [("indent_curr", indent_curr f)] ;;
    Return (code, st)
  else Return (func_curr_code, st).

(** *** Shallowly checked hints *)

Definition check_shallow (f : frame) (st : state) : result (string * state) :=
  if hint_is_sign (hint_curr f) NoReturn then
    Raise BeartypeDecorHintPep484Exception
  else
    c <- get_hint_pep_stdlib_type E (hint_curr f) ;;
    let (hint_curr_expr, scope) := add_func_scope_type E c (func_wrapper_locals st) in
    code <- format Snip.PEP_CODE_CHECK_HINT_NONPEP_TYPE
              [("pith_curr_expr", pith_curr_expr f);
               ("hint_curr_expr", hint_curr_expr)] ;;
    Return (code, with_locals st scope).

(** *** Standard sequences and variadic tuples *)

Definition check_sequence (f : frame) (st : state) : result (string * state) :=
  c <- get_hint_pep_stdlib_type E (hint_curr f) ;;
  let (hint_curr_expr, scope) := add_func_scope_type E c (func_wrapper_locals st) in
  let st := with_locals st scope in
  _ <- assert ((len (hint_childs f) =? 1) ||
               HINT_PEP_SIGNS_TUPLE E (hint_curr_sign f)) ;;
  match hint_childs f with
  | [] => Raise IndexError
  | hint_child :: _ =>
      if negb (is_hint_ignorable E hint_child) then
        let st := with_random_int st in
        pith_child_expr <-
          format Snip.PEP_CODE_CHECK_HINT_SEQUENCE_STANDARD_PITH_CHILD_EXPR
            [("pith_curr_assigned_expr", pith_curr_assigned_expr f)] ;;
        let (hint_child_placeholder, st) :=
          _enqueue_hint_child st hint_child (indent_child f) pith_child_expr in
        code <- format Snip.PEP_CODE_CHECK_HINT_SEQUENCE_STANDARD
                  [("indent_curr", indent_curr f);
                   ("pith_curr_assign_expr", pith_curr_assign_expr f);
                   ("pith_curr_assigned_expr", pith_curr_assigned_expr f);
                   ("hint_curr_expr", hint_curr_expr);
                   ("hint_child_placeholder", hint_child_placeholder)] ;;
        Return (code, st)
      else
        code <- format Snip.PEP_CODE_CHECK_HINT_NONPEP_TYPE
                  [("pith_curr_expr", pith_curr_expr f);
                   ("hint_curr_expr", hint_curr_expr)] ;;
        Return (code, st)
  end.

(** *** Fixed-length tuples *)

Definition tuple_fixed_child (f : frame) (acc : string * state) (item : Z * hint)
  : result (string * state) :=
  let (func_curr_code, st) := acc in
  let (hint_child_index, hint_child) := item in
  if is_hint_ignorable E hint_child then Return acc
  else
    pith_child_expr <-
      format Snip.PEP_CODE_CHECK_HINT_TUPLE_FIXED_NONEMPTY_PITH_CHILD_EXPR
        [("pith_curr_assigned_expr", pith_curr_assigned_expr f);
         ("pith_child_index", Text.str_of_int hint_child_index)] ;;
    let (hint_child_placeholder, st') :=
      _enqueue_hint_child st hint_child (indent_child f) pith_child_expr in
    code <- format Snip.PEP_CODE_CHECK_HINT_TUPLE_FIXED_NONEMPTY_CHILD
              [("hint_child_placeholder", hint_child_placeholder)] ;;
    Return (func_curr_code ++ code, st').

Definition check_tuple_fixed (f : frame) (st : state) : result (string * state) :=
  _ <- assert (sign_eqb (hint_curr_sign f) tuple || nonempty (hint_childs f)) ;;
  _ <- assert ((len (hint_childs f) <=? 1) ||
               negb (second_is_Ellipsis (hint_childs f))) ;;
  let func_curr_code := PEP_CODE_CHECK_HINT_TUPLE_FIXED_PREFIX E in
  acc <- (if is_hint_pep_tuple_empty E (hint_curr f) then
            code <- format Snip.PEP_CODE_CHECK_HINT_TUPLE_FIXED_EMPTY
                      [("pith_curr_assigned_expr", pith_curr_assigned_expr f)] ;;
            Return (func_curr_code ++ code, st)
          else
            code <- format Snip.PEP_CODE_CHECK_HINT_TUPLE_FIXED_LEN
                      [("pith_curr_assigned_expr", pith_curr_assigned_expr f);
                       ("hint_childs_len", Text.str_of_int (len (hint_childs f)))] ;;
            for_each (tuple_fixed_child f) (enumerate (hint_childs f))
              (func_curr_code ++ code, st)) ;;
  let (func_curr_code, st) := acc in
  code <- format
            (Text.slice_to (LINE_RSTRIP_INDEX_AND E) func_curr_code ++
             Snip.PEP_CODE_CHECK_HINT_TUPLE_FIXED_SUFFIX)
            [("indent_curr", indent_curr f);
             ("pith_curr_assign_expr", pith_curr_assign_expr f)] ;;
  Return (code, st).

(** *** Annotated metahints *)

Definition annotated_child (f : frame) (acc : string * state) (hint_child : hint)
  : result (string * state) :=
  let (func_curr_code, st) := acc in
  match hint_child with
  | HintSubscriptedIs is_valid_code is_valid_code_locals =>
      hint_child_expr <-
        format is_valid_code
          [("indent", indent_child f); ("obj", pith_curr_assigned_expr f)] ;;
      code <- format (PEP593_CODE_CHECK_HINT_SUBSCRIPTEDIS_CHILD E)
                [("indent_curr", indent_curr f);
                 ("hint_child_expr", hint_child_expr)] ;;
      scope <- update_mapping E (func_wrapper_locals st) is_valid_code_locals ;;
      Return (func_curr_code ++ code, with_locals st scope)
  | _ => Raise BeartypeDecorHintPep593Exception
  end.

Definition check_annotated (f : frame) (st : state) : result (string * state) :=
  _ <- (if is_hint_pep593 (hint_curr f) then Return tt else Raise TypeError) ;;
  let hint_child := get_hint_pep593_metahint (hint_curr f) in
  let (hint_child_placeholder, st) :=
    _enqueue_hint_child st hint_child (indent_child f) (pith_curr_assign_expr f) in
  func_curr_code <-
    format (PEP593_CODE_CHECK_HINT_SUBSCRIPTEDIS_PREFIX E)
      [("indent_curr", indent_curr f);
       ("hint_child_placeholder", hint_child_placeholder)] ;;
  acc <- for_each (annotated_child f) (get_hint_pep593_metadata (hint_curr f))
           (func_curr_code, st) ;;
  let (func_curr_code, st) := acc in
  suffix <- format (PEP593_CODE_CHECK_HINT_SUBSCRIPTEDIS_SUFFIX E)
              [("indent_curr", indent_curr f)] ;;
  Return (Text.slice_to (LINE_RSTRIP_INDEX_AND E) func_curr_code ++ suffix, st).

(** *** Forward references *)

Definition check_forwardref (f : frame) (st : state) : result (string * state) :=
  hint_curr_forwardref_classname <- get_hint_forwardref_classname (hint_curr f) ;;
  let (hint_curr_expr, st) :=
    if Text.has_char "." hint_curr_forwardref_classname then
      (register_typistry_forwardref E hint_curr_forwardref_classname,
       with_locals st
         (scope_set (func_wrapper_locals st) (ARG_NAME_TYPISTRY E) ScopeTypistry))
    else
      let names :=
        match hints_forwardref_class_basename st with
        | None => []
        | Some names => names
        end in
      (Snip.PEP_CODE_HINT_FORWARDREF_UNQUALIFIED_PLACEHOLDER_PREFIX ++
       hint_curr_forwardref_classname ++
       Snip.PEP_CODE_HINT_FORWARDREF_UNQUALIFIED_PLACEHOLDER_SUFFIX,
       with_forwardrefs st
         (Some (set_add String.eqb hint_curr_forwardref_classname names))) in
  code <- format Snip.PEP_CODE_CHECK_HINT_NONPEP_TYPE
            [("pith_curr_expr", pith_curr_expr f);
             ("hint_curr_expr", hint_curr_expr)] ;;
  Return (code, st).

(** *** Generics and protocols *)

Definition generic_child (f : frame) (acc : string * state) (base : hint * hint)
  : result (string * state) :=
  let (func_curr_code, st) := acc in
  let (hint_child, erased) := base in
  if is_type hint_child then Return acc
  else
    let hint_child :=
      if negb (is_hint_pep585_builtin E hint_child && is_hint_pep_typing E hint_child)
      then erased
      else hint_child in
    if is_hint_ignorable E hint_child then Return acc
    else
      let (hint_child_placeholder, st') :=
        _enqueue_hint_child st hint_child (indent_child f)
          (pith_curr_assigned_expr f) in
      code <- format (PEP_CODE_CHECK_HINT_GENERIC_CHILD E)
                [("hint_child_placeholder", hint_child_placeholder)] ;;
      Return (func_curr_code ++ code, st').

Definition check_generic (f : frame) (st : state) : result (string * state) :=
  match get_hint_pep_generic_type_or_none (hint_curr f) with
  | None => Raise AssertionError
  | Some c =>
      acc <- for_each (generic_child f)
               (get_hint_pep_generic_bases_unerased (hint_curr f))
               (PEP_CODE_CHECK_HINT_GENERIC_PREFIX E, st) ;;
      let (func_curr_code, st) := acc in
      let (hint_curr_expr, scope) :=
        add_func_scope_type E c (func_wrapper_locals st) in
      code <- format
                (Text.slice_to (LINE_RSTRIP_INDEX_AND E) func_curr_code ++
                 PEP_CODE_CHECK_HINT_GENERIC_SUFFIX E)
                [("indent_curr", indent_curr f);
                 ("pith_curr_assign_expr", pith_curr_assign_expr f);
                 ("hint_curr_expr", hint_curr_expr)] ;;
      Return (code, with_locals st scope)
  end.

(** *** Literals *)

Definition literal_child (f : frame) (acc : string * state) (hint_child : hint)
  : result (string * state) :=
  let (func_curr_code, st) := acc in
  let (hint_child_expr, scope) :=
    add_func_scope_attr E hint_child (func_wrapper_locals st) in
  code <- format (PEP586_CODE_CHECK_HINT_LITERAL E)
            [("pith_curr_assigned_expr", pith_curr_assigned_expr f);
             ("hint_child_expr", hint_child_expr)] ;;
  Return (func_curr_code ++ code, with_locals st scope).

Definition check_literal (f : frame) (st : state) : result (string * state) :=
  if negb (is_hint_pep586 E (hint_curr f)) then
    Raise BeartypeDecorHintPep586Exception
  else
    let types :=
      fold_left
        (fun s hint_child =>
           set_add (hint_eqb E) (HintClass (type_of E hint_child)) s)
        (hint_childs f) [] in
    let (hint_child_types_expr, scope) :=
      add_func_scope_types E types (func_wrapper_locals st) in
    func_curr_code <-
      format (PEP586_CODE_CHECK_HINT_PREFIX E)
        [("pith_curr_assign_expr", pith_curr_assign_expr f);
         ("hint_child_types_expr", hint_child_types_expr)] ;;
    acc <- for_each (literal_child f) (hint_childs f)
             (func_curr_code, with_locals st scope) ;;
    let (func_curr_code, st) := acc in
    code <- format
              (Text.slice_to (LINE_RSTRIP_INDEX_OR E) func_curr_code ++
               PEP586_CODE_CHECK_HINT_SUFFIX E)
              [("indent_curr", indent_curr f)] ;;
    Return (code, st).

(** *** One iteration of the search *)

(** Modelled from the spec: [die_if_hint_pep_unsupported] of
    [beartype._util.hint.pep.utilhintpeptest], which is not among the
    sources; a hint the classifier does not support is fatal. *)
Definition die_if_hint_pep_unsupported (h : hint) : result unit :=
  if is_hint_pep_supported E h then Return tt
  else Raise BeartypeDecorHintPepUnsupportedException.

(** Modelled from the spec: [die_if_hint_pep_sign_unsupported] of
    [beartype._util.hint.pep.utilhintpeptest], which is not among the
    sources; a sign outside the table of supported signs is fatal. *)
Definition die_if_hint_pep_sign_unsupported (s : sign) : result unit :=
  if HINT_PEP_SIGNS_SUPPORTED E s then Return tt
  else Raise BeartypeDecorHintPepUnsupportedException.

(** The pith expressions of the currently visited hint: under Python >=
    3.8, a pith that is not the root pith is assigned to a new local
    variable. Returns [(pith_curr_assign_expr, pith_curr_assigned_expr)]
    and the new value of the counter. *)
Definition assign_pith (pith_root_expr pith_curr_expr : string) (counter : Z)
  : result (string * string * Z) :=
  if IS_PYTHON_AT_LEAST_3_8 E && negb (String.eqb pith_curr_expr pith_root_expr)
  then
    let counter := counter + 1 in
    let pith_curr_assigned_expr :=
      Snip.PEP_CODE_PITH_NAME_PREFIX ++ Text.str_of_int counter in
    pith_curr_assign_expr <-
      format Snip.PEP_CODE_PITH_ASSIGN_EXPR
        [("pith_curr_assigned_expr", pith_curr_assigned_expr);
         ("pith_curr_expr", pith_curr_expr)] ;;
    Return (pith_curr_assign_expr, pith_curr_assigned_expr, counter)
  else Return (pith_curr_expr, pith_curr_expr, counter).

(** The switch on the sign of the currently visited PEP-compliant hint. *)
Definition check_sign (f : frame) (st : state) : result (string * state) :=
  let hint_curr_sign := hint_curr_sign f in
  if HINT_PEP484_SIGNS_UNION E hint_curr_sign then check_union f st
  else if hint_is_sign (hint_curr f) hint_curr_sign ||
          (HINT_PEP_SIGNS_TYPE_ORIGIN_STDLIB E hint_curr_sign &&
           negb (HINT_PEP_SIGNS_SUPPORTED_DEEP E hint_curr_sign))
  then check_shallow f st
  else if HINT_PEP_SIGNS_SEQUENCE_STANDARD E hint_curr_sign ||
          (HINT_PEP_SIGNS_TUPLE E hint_curr_sign &&
           (len (hint_childs f) =? 2) &&
           second_is_Ellipsis (hint_childs f))
  then check_sequence f st
  else if HINT_PEP_SIGNS_TUPLE E hint_curr_sign then check_tuple_fixed f st
  else if sign_eqb hint_curr_sign HINT_PEP593_SIGN_ANNOTATED then check_annotated f st
  else if sign_eqb hint_curr_sign HINT_PEP484_TYPE_FORWARDREF then check_forwardref f st
  else if sign_eqb hint_curr_sign Generic then check_generic f st
  else if sign_eqb hint_curr_sign HINT_PEP586_SIGN_LITERAL then check_literal f st
  else Raise BeartypeDecorHintPepUnsupportedException.

(** The code checking the current pith against a PEP-compliant hint. *)
Definition check_pep (pith_root_expr : string) (hint_curr : hint)
    (pith_curr_expr indent_curr : string) (st : state)
  : result (string * state) :=
  _ <- die_if_hint_pep_unsupported hint_curr ;;
  _ <- assert (negb (is_hint_ignorable E hint_curr)) ;;
  let hint_curr_sign := get_hint_pep_sign hint_curr in
  _ <- die_if_hint_pep_sign_unsupported hint_curr_sign ;;
  let hint_childs := get_hint_pep_args hint_curr in
  let indent_child := indent_curr ++ CODE_INDENT_1 E in
  piths <- assign_pith pith_root_expr pith_curr_expr
             (pith_curr_assign_expr_name_counter st) ;;
  let '(pith_curr_assign_expr, pith_curr_assigned_expr, counter) := piths in
  check_sign
    (Frame hint_curr hint_curr_sign hint_childs pith_curr_expr
       pith_curr_assign_expr pith_curr_assigned_expr indent_curr indent_child)
    (with_counter st counter).

(** The code checking the current pith against the currently visited
    hint, already reduced. *)
Definition check_hint (pith_root_expr : string) (hint_curr : hint)
    (pith_curr_expr indent_curr : string) (st : state)
  : result (string * state) :=
  if is_hint_pep hint_curr then
    check_pep pith_root_expr hint_curr pith_curr_expr indent_curr st
  else
    match hint_curr with
    | HintClass c =>
        let (hint_curr_expr, scope) :=
          add_func_scope_type E c (func_wrapper_locals st) in
        code <- format Snip.PEP_CODE_CHECK_HINT_NONPEP_TYPE
                  [("pith_curr_expr", pith_curr_expr);
                   ("hint_curr_expr", hint_curr_expr)] ;;
        Return (code, with_locals st scope)
    | _ => Raise BeartypeDecorHintPepException
    end.

(** The body of the [while] loop: visit the hint at
    [hints_meta_index_curr]. *)
Definition visit (pith_root_expr : string) (st : state) : result state :=
  match fixed_list_get (hints_meta st) (Z.to_nat (hints_meta_index_curr st)) with
  | None => Raise AssertionError
  | Some hint_curr_meta =>
      let hint_curr := reduce_hint (HINT_META_INDEX_HINT hint_curr_meta) in
      let hint_curr_placeholder := HINT_META_INDEX_PLACEHOLDER hint_curr_meta in
      let pith_curr_expr := HINT_META_INDEX_PITH_EXPR hint_curr_meta in
      let indent_curr := HINT_META_INDEX_INDENT hint_curr_meta in
      checked <- check_hint pith_root_expr hint_curr pith_curr_expr indent_curr st ;;
      let (func_curr_code, st) := checked in
      Return
        (State (hint_child_placeholder_id st)
           (fixed_list_set (hints_meta st)
              (Z.to_nat (hints_meta_index_curr st)) None)
           (hints_meta_index_curr st + 1) (hints_meta_index_last st)
           (pith_curr_assign_expr_name_counter st)
           (replace_str_substrs (func_wrapper_code st) hint_curr_placeholder
              func_curr_code)
           (func_wrapper_locals st) (is_var_random_int_needed st)
           (hints_forwardref_class_basename st))
  end.

(** The [while] loop, for at most [fuel] iterations: [None] when the
    iterations do not suffice. *)
Fixpoint search (pith_root_expr : string) (fuel : nat) (st : state)
  : option (result state) :=
  if hints_meta_index_curr st <=? hints_meta_index_last st then
    match fuel with
    | O => None
    | S fuel' =>
        match visit pith_root_expr st with
        | Return st' => search pith_root_expr fuel' st'
        | Raise e => Some (Raise e)
        end
    end
  else Some (Return st).

(** *** The generator *)

(** The state in which the loop is entered: the root hint is enqueued
    and the code is the root placeholder after the root prefix. *)
Definition state_root (hint_root : hint) : string * state :=
  let st0 :=
    State (-1) [] 0 (-1) 0 EmptyString [] false None in
  let (hint_child_placeholder, st) :=
    _enqueue_hint_child st0 hint_root (CODE_INDENT_2 E)
      Snip.PEP_CODE_PITH_ROOT_NAME in
  let func_root_code :=
    PEP_CODE_CHECK_HINT_ROOT_PREFIX E ++ hint_child_placeholder in
  (func_root_code,
   State (hint_child_placeholder_id st) (hints_meta st)
     (hints_meta_index_curr st) (hints_meta_index_last st)
     (pith_curr_assign_expr_name_counter st) func_root_code
     (func_wrapper_locals st) (is_var_random_int_needed st)
     (hints_forwardref_class_basename st)).

(** What follows the loop: the sanity check that code was generated, the
    suffix of the root check and the returned 3-tuple. *)
Definition finish (func_root_code : string) (st : state)
  : result (string * CallableScope * list string) :=
  if String.eqb (func_wrapper_code st) func_root_code then
    Raise BeartypeDecorHintPepException
  else
    let (func_wrapper_code_random_int_if_any, scope) :=
      if is_var_random_int_needed st then
        (PEP_CODE_CHECK_HINT_ROOT_SUFFIX_RANDOM_INT E,
         scope_set (func_wrapper_locals st) (ARG_NAME_GETRANDBITS E)
           ScopeGetrandbits)
      else (EmptyString, func_wrapper_locals st) in
    suffix <- format (PEP_CODE_CHECK_HINT_ROOT_SUFFIX E)
                [("random_int_if_any", func_wrapper_code_random_int_if_any)] ;;
    Return
      (func_wrapper_code st ++ suffix,
       scope,
       match hints_forwardref_class_basename st with
       | None => []
       | Some names => names
       end).

End Generator.

(** The number of objects a hint is built from: a bound on the number of
    hints the search visits. *)
Fixpoint hint_size (h : hint) : nat :=
  match h with
  | HintIOGeneric protocol => S (hint_size protocol)
  | HintAnnotated metahint metadata0 metadata =>
      S (hint_size metahint + hint_size metadata0 +
         list_sum (map hint_size metadata))%nat
  | HintGeneric _ bases =>
      S ((fix bases_size (l : list (hint * hint)) : nat :=
            match l with
            | [] => O
            | (unerased, erased) :: l' =>
                (hint_size unerased + hint_size erased + bases_size l')%nat
            end) bases)
  | HintSubscripted _ args => S (list_sum (map hint_size args))
  | _ => 1%nat
  end.

(** [pep_code_check_hint(hint)]: the 3-tuple [(func_wrapper_code,
    func_wrapper_locals, hints_forwardref_class_basename)] or the
    exception raised. The loop is given as many iterations as the hint
    has objects. *)
Definition pep_code_check_hint (E : External) (hint_root : hint)
  : option (result (string * CallableScope * list string)) :=
  let (func_root_code, st) := state_root E hint_root in
  match search E Snip.PEP_CODE_PITH_ROOT_NAME (hint_size hint_root) st with
  | None => None
  | Some (Raise e) => Some (Raise e)
  | Some (Return st') => Some (finish E func_root_code st')
  end.

(** ** A concrete classifier *)

Module Demo.
Import Text.

Definition class_name (h : hint) : string :=
  match h with
  | HintClass c => c
  | _ => "object"
  end.

(** The name a class is bound to in the scope. *)
Definition name_of_type (c : cls) : string := "__beartype_type_" ++ c.

Definition name_of_types (hs : list hint) : string :=
  fold_left (fun n h => n ++ "_" ++ class_name h) hs "__beartype_tuple".

Fixpoint demo_hint_eqb (a b : hint) : bool :=
  match a, b with
  | HintNone, HintNone => true
  | HintEllipsis, HintEllipsis => true
  | HintClass c, HintClass d => String.eqb c d
  | HintObject c, HintObject d => String.eqb c d
  | HintForwardRef c, HintForwardRef d => String.eqb c d
  | HintSign s, HintSign t => sign_eqb s t
  | HintSubscripted s l, HintSubscripted t m =>
      sign_eqb s t &&
      (fix all2 (l m : list hint) : bool :=
         match l, m with
         | [], [] => true
         | x :: l', y :: m' => demo_hint_eqb x y && all2 l' m'
         | _, _ => false
         end) l m
  | _, _ => false
  end.

Definition in_signs (names : list string) (s : sign) : bool :=
  match s with
  | SignAttr n => existsb (String.eqb n) names
  | _ => false
  end.

Definition stdlib_type (h : hint) : result cls :=
  match get_hint_pep_sign h with
  | SignAttr "List" => Return "list"
  | SignAttr "MutableSequence" => Return "MutableSequence"
  | SignAttr "Tuple" => Return "tuple"
  | SignAttr "Dict" => Return "dict"
  | tuple => Return "tuple"
  | _ => Raise TypeError
  end.

Definition ignorable (h : hint) : bool :=
  match h with
  | HintClass "object" => true
  | HintSign (SignAttr "Any") => true
  | _ => false
  end.

(** The prefix of fixed-length tuples of [_pepsnip.py] with its field
    [hint_curr_expr] filled in by the expression [type_expr]. *)
Definition tuple_fixed_prefix (type_expr : string) : string :=
  replace "{hint_curr_expr}" type_expr
    Snip.PEP_CODE_CHECK_HINT_TUPLE_FIXED_PREFIX.

(** The classifier, with the snippets of literals left open. *)
Definition env_with (py38 : bool) (literal_prefix literal_suffix : string)
  : External := {|
  CODE_INDENT_1 := "    ";
  CODE_INDENT_2 := "        ";
  LINE_RSTRIP_INDEX_AND := -4;
  LINE_RSTRIP_INDEX_OR := -3;
  ARG_NAME_GETRANDBITS := "__beartype_getrandbits";
  ARG_NAME_TYPISTRY := "__beartypistry";
  IS_PYTHON_AT_LEAST_3_8 := py38;
  NoneType := "NoneType";
  PEP_CODE_CHECK_HINT_ROOT_PREFIX := "if not ";
  PEP_CODE_CHECK_HINT_ROOT_SUFFIX := ": raise_exception({random_int_if_any})";
  PEP_CODE_CHECK_HINT_ROOT_SUFFIX_RANDOM_INT := "random_int=__beartype_random_int";
  PEP_CODE_CHECK_HINT_GENERIC_PREFIX :=
    "(isinstance({pith_curr_assign_expr}, {hint_curr_expr}) and";
  PEP_CODE_CHECK_HINT_GENERIC_SUFFIX := ")";
  PEP_CODE_CHECK_HINT_GENERIC_CHILD := " {hint_child_placeholder} and";
  PEP586_CODE_CHECK_HINT_PREFIX := literal_prefix;
  PEP586_CODE_CHECK_HINT_LITERAL :=
    " {pith_curr_assigned_expr} == {hint_child_expr} or";
  PEP586_CODE_CHECK_HINT_SUFFIX := literal_suffix;
  PEP593_CODE_CHECK_HINT_SUBSCRIPTEDIS_PREFIX := "({hint_child_placeholder} and";
  PEP593_CODE_CHECK_HINT_SUBSCRIPTEDIS_SUFFIX := ")";
  PEP593_CODE_CHECK_HINT_SUBSCRIPTEDIS_CHILD := " {hint_child_expr} and";
  PEP_CODE_CHECK_HINT_TUPLE_FIXED_PREFIX := tuple_fixed_prefix "tuple";
  HINT_PEP484_SIGNS_UNION := in_signs ["Union"; "Optional"];
  HINT_PEP_SIGNS_SEQUENCE_STANDARD := in_signs ["List"; "MutableSequence"];
  HINT_PEP_SIGNS_TUPLE :=
    fun s => match s with tuple => true | _ => in_signs ["Tuple"] s end;
  HINT_PEP_SIGNS_TYPE_ORIGIN_STDLIB :=
    fun s => match s with
             | tuple => true
             | _ => in_signs ["List"; "MutableSequence"; "Tuple"; "Dict"] s
             end;
  HINT_PEP_SIGNS_SUPPORTED_DEEP :=
    fun s => match s with
             | SignAttr n =>
                 existsb (String.eqb n)
                   ["Union"; "Optional"; "List"; "MutableSequence"; "Tuple"]
             | NoReturn => false
             | _ => true
             end;
  HINT_PEP_SIGNS_SUPPORTED :=
    fun s => match s with
             | SignAttr n =>
                 existsb (String.eqb n)
                   ["Union"; "Optional"; "List"; "MutableSequence"; "Tuple";
                    "Dict"; "Any"]
             | _ => true
             end;
  HINTS_IGNORABLE_SHALLOW := ignorable;
  is_hint_pep_supported := fun _ => true;
  is_hint_ignorable := ignorable;
  is_hint_pep_tuple_empty :=
    fun h => match h with
             | HintSubscripted _ [] => true
             | _ => false
             end;
  is_hint_pep585_builtin := fun _ => false;
  is_hint_pep_typing := fun _ => true;
  is_hint_pep586 := fun _ => true;
  get_hint_pep_stdlib_type := stdlib_type;
  type_of := fun _ => "int";
  hint_eqb := demo_hint_eqb;
  add_func_scope_type :=
    fun c scope => (name_of_type c, scope_set scope (name_of_type c) (ScopeType c));
  add_func_scope_types :=
    fun hs scope =>
      (name_of_types hs,
       scope_set scope (name_of_types hs) (ScopeTypes (map class_name hs)));
  add_func_scope_attr :=
    fun h scope => ("__beartype_attr", scope_set scope "__beartype_attr" (ScopeAttr "attr"));
  register_typistry_forwardref :=
    fun classname => "__beartypistry['" ++ classname ++ "']";
  update_mapping :=
    fun scope other =>
      Return (fold_left (fun sc kv => scope_set sc (fst kv) (snd kv)) other scope);
|}.

Definition env (py38 : bool) : External :=
  env_with py38
    "(isinstance({pith_curr_assign_expr}, {hint_child_types_expr}) and ("
    "))".

(** The value a call returned, or [default] if it raised. *)
Definition returned {A : Type} (default : A) (r : result A) : A :=
  match r with
  | Return a => a
  | Raise _ => default
  end.

Definition List_ (h : hint) : hint := HintSubscripted (SignAttr "List") [h].
Definition Tuple_ (hs : list hint) : hint := HintSubscripted (SignAttr "Tuple") hs.
Definition Union_ (hs : list hint) : hint := HintSubscripted (SignAttr "Union") hs.
Definition int_ : hint := HintClass "int".
Definition str_ : hint := HintClass "str".

End Demo.

(** ** The generated expressions and their meaning *)

(** *** Pith expressions *)

(** The expressions that the generator builds for piths: a local
    variable, an assignment expression, a randomly indexed item and the
    item at a fixed index. *)
Inductive pexpr : Type :=
| PVar (name : string)
| PAssign (name : string) (e : pexpr)
| PRandomItem (e : pexpr)
| PItem (e : pexpr) (index : Z).

(** The text of a pith expression. *)
Fixpoint unparse_p (e : pexpr) : string :=
  match e with
  | PVar name => name
  | PAssign name e' => name ++ " := " ++ unparse_p e'
  | PRandomItem e' =>
      unparse_p e' ++ "[__beartype_random_int % len(" ++ unparse_p e' ++ ")]"
  | PItem e' index => unparse_p e' ++ "[" ++ Text.str_of_int index ++ "]"
  end.

(** A pith expression without assignment expressions. *)
Fixpoint pure (e : pexpr) : bool :=
  match e with
  | PVar _ => true
  | PAssign _ _ => false
  | PRandomItem e' => pure e'
  | PItem e' _ => pure e'
  end.

(** *** Checks *)

(** The boolean expressions that the generator builds: [isinstance]
    tests, [not], [and], [or], parentheses and the placeholders of child
    hints. The strings between the operands are the line breaks,
    indentation and comments of the snippets. *)
Inductive bexpr : Type :=
| BIsInstance (e : pexpr) (type_expr : string)
| BNot (e : pexpr)
| BAnd (a : bexpr) (space : string) (b : bexpr)
| BOr (a : bexpr) (space : string) (b : bexpr)
| BParen (before : string) (e : bexpr) (after : string)
| BChild (placeholder : string).

(** The text of a check. *)
Fixpoint unparse_b (e : bexpr) : string :=
  match e with
  | BIsInstance p type_expr =>
      "isinstance(" ++ unparse_p p ++ ", " ++ type_expr ++ ")"
  | BNot p => "not " ++ unparse_p p
  | BAnd a space b => unparse_b a ++ " and" ++ space ++ unparse_b b
  | BOr a space b => unparse_b a ++ " or" ++ space ++ unparse_b b
  | BParen before e' after => "(" ++ before ++ unparse_b e' ++ after ++ ")"
  | BChild placeholder => placeholder
  end.

(** *** Values and evaluation *)

(** The values of Python that the checks tell apart: sequences, with
    their class and items, and other objects, with their class and
    truth value. *)
Inductive value : Type :=
| VObject (c : cls) (truth : bool)
| VSequence (c : cls) (items : list value).

Definition class_of (v : value) : cls :=
  match v with
  | VObject c _ => c
  | VSequence c _ => c
  end.

(** Python's [bool(v)]. *)
Definition truthy (v : value) : bool :=
  match v with
  | VObject _ truth => truth
  | VSequence _ items => nonempty items
  end.

(** What the wrapper function runs in: the class hierarchy, the scope
    the generated names are bound in and the random integer of the
    call. *)
Record runtime : Type := {
  issubclass : cls -> cls -> bool;
  scope : CallableScope;
  __beartype_random_int : Z;
}.

(** The local variables of the wrapper function. *)
Definition store := list (string * value).

Fixpoint store_get (s : store) (name : string) : option value :=
  match s with
  | [] => None
  | (k, v) :: s' => if String.eqb k name then Some v else store_get s' name
  end.

Definition store_set (s : store) (name : string) (v : value) : store :=
  (name, v) :: s.

(** Python's [isinstance(v, type_expr)], the name [type_expr] bound in
    the scope to a class or to a tuple of classes. *)
Definition isinstance (rt : runtime) (v : value) (type_expr : string)
  : result bool :=
  match scope_get (scope rt) type_expr with
  | Some (ScopeType c) => Return (issubclass rt (class_of v) c)
  | Some (ScopeTypes cs) => Return (existsb (issubclass rt (class_of v)) cs)
  | Some _ => Raise TypeError
  | None => Raise NameError
  end.

(** Python's [v[i]] for a non-negative index. *)
Definition subscript (v : value) (i : Z) : result value :=
  match v with
  | VSequence _ items =>
      match nth_error items (Z.to_nat i) with
      | Some w => Return w
      | None => Raise IndexError
      end
  | VObject _ _ => Raise TypeError
  end.

(** Python's [len(v)]. *)
Definition len_of (v : value) : result Z :=
  match v with
  | VSequence _ items => Return (len items)
  | VObject _ _ => Raise TypeError
  end.

(** The value of a pith expression and the local variables after its
    evaluation. *)
Fixpoint eval_p (rt : runtime) (s : store) (e : pexpr) : result (value * store) :=
  match e with
  | PVar name =>
      match store_get s name with
      | Some v => Return (v, s)
      | None => Raise NameError
      end
  | PAssign name e' =>
      r <- eval_p rt s e' ;;
      Return (fst r, store_set (snd r) name (fst r))
  | PRandomItem e' =>
      r1 <- eval_p rt s e' ;;
      r2 <- eval_p rt (snd r1) e' ;;
      n <- len_of (fst r2) ;;
      if n =? 0 then Raise ZeroDivisionError
      else
        w <- subscript (fst r1) (__beartype_random_int rt mod n) ;;
        Return (w, snd r2)
  | PItem e' index =>
      r <- eval_p rt s e' ;;
      w <- subscript (fst r) index ;;
      Return (w, snd r)
  end.

(** The truth of a check and the local variables after its evaluation;
    [child] gives the meaning of the code that will replace each
    placeholder. *)
Fixpoint eval_b (rt : runtime) (child : string -> store -> result (bool * store))
    (s : store) (e : bexpr) : result (bool * store) :=
  match e with
  | BIsInstance p type_expr =>
      r <- eval_p rt s p ;;
      b <- isinstance rt (fst r) type_expr ;;
      Return (b, snd r)
  | BNot p =>
      r <- eval_p rt s p ;;
      Return (negb (truthy (fst r)), snd r)
  | BAnd a _ b =>
      r <- eval_b rt child s a ;;
      if fst r then eval_b rt child (snd r) b else Return (false, snd r)
  | BOr a _ b =>
      r <- eval_b rt child s a ;;
      if fst r then Return (true, snd r) else eval_b rt child (snd r) b
  | BParen _ e' _ => eval_b rt child s e'
  | BChild placeholder => child placeholder s
  end.

(** The code that replaces [placeholder] checks the pith [p] against a
    child hint that accepts the values [accepts]. *)
Definition child_checks (rt : runtime)
    (child : string -> store -> result (bool * store))
    (placeholder : string) (p : pexpr) (accepts : value -> bool) : Prop :=
  forall s,
    child placeholder s =
      (r <- eval_p rt s p ;; Return (accepts (fst r), snd r)).

(** The pith expression reads or assigns the variable [name]. *)
Fixpoint mentions (name : string) (e : pexpr) : bool :=
  match e with
  | PVar n => String.eqb n name
  | PAssign n e' => String.eqb n name || mentions name e'
  | PRandomItem e' => mentions name e'
  | PItem e' _ => mentions name e'
  end.

(** ** The queue of hints still to visit *)

(** The total size of the hints of these queue items. *)
Definition sizes (ms : list hint_meta) : nat :=
  list_sum (map (fun m => hint_size (HINT_META_INDEX_HINT m)) ms).

(** The queue is well formed, with [pend] the items still to visit: the
    slots before [hints_meta_index_curr] are nullified, the slots from
    there to [hints_meta_index_last] hold [pend], and the identifier of
    the last placeholder is the index of the last item. *)
Definition queue_wf (st : state) (pend : list hint_meta) : Prop :=
  0 <= hints_meta_index_curr st /\
  hints_meta st =
    (repeat None (Z.to_nat (hints_meta_index_curr st)) ++ map Some pend)%list /\
  hints_meta_index_last st = hints_meta_index_curr st + len pend - 1 /\
  hint_child_placeholder_id st = hints_meta_index_last st /\
  forall (k : nat) (m : hint_meta),
    nth_error pend k = Some m ->
    HINT_META_INDEX_PLACEHOLDER m =
      placeholder_of (hints_meta_index_curr st + Z.of_nat k).

(** From [st] to [st'] the items [new] were enqueued, and neither the
    code nor the index of the current hint changed. *)
Definition grows (st st' : state) (new : list hint_meta) : Prop :=
  (forall pend, queue_wf st pend -> queue_wf st' (pend ++ new)%list) /\
  func_wrapper_code st' = func_wrapper_code st /\
  hints_meta_index_curr st' = hints_meta_index_curr st.

(** The total size of these hints. *)
Definition hsum (l : list hint) : nat := list_sum (map hint_size l).

(** ** The hints the search visits *)

(** The state after [n] iterations of the loop, when each of them was
    entered and ended without raising. *)
Fixpoint steps (E : External) (pith_root_expr : string) (n : nat) (st : state)
  : option state :=
  match n with
  | O => Some st
  | S n' =>
      if hints_meta_index_curr st <=? hints_meta_index_last st then
        match visit E pith_root_expr st with
        | Return st' => steps E pith_root_expr n' st'
        | Raise _ => None
        end
      else None
  end.

(** The search from the root hint [hint_root] comes, in the state [st],
    to visit the queue item [m]. *)
Definition visits_in (E : External) (hint_root : hint) (st : state)
    (m : hint_meta) : Prop :=
  exists n : nat,
    steps E Snip.PEP_CODE_PITH_ROOT_NAME n (snd (state_root E hint_root)) = Some st /\
    (hints_meta_index_curr st <=? hints_meta_index_last st) = true /\
    fixed_list_get (hints_meta st) (Z.to_nat (hints_meta_index_curr st)) = Some m.

(** The search from the root hint [hint_root] visits the hint [h],
    reduced. *)
Definition visits (E : External) (hint_root : hint) (h : hint) : Prop :=
  exists st m,
    visits_in E hint_root st m /\ reduce_hint E (HINT_META_INDEX_HINT m) = h.

(** No case of the switch on signs takes this sign of this hint. *)
Definition sign_unhandled (E : External) (h : hint) : bool :=
  let s := get_hint_pep_sign h in
  negb (HINT_PEP484_SIGNS_UNION E s) &&
  negb (hint_is_sign h s ||
        (HINT_PEP_SIGNS_TYPE_ORIGIN_STDLIB E s &&
         negb (HINT_PEP_SIGNS_SUPPORTED_DEEP E s))) &&
  negb (HINT_PEP_SIGNS_SEQUENCE_STANDARD E s) &&
  negb (HINT_PEP_SIGNS_TUPLE E s) &&
  negb (sign_eqb s HINT_PEP593_SIGN_ANNOTATED) &&
  negb (sign_eqb s HINT_PEP484_TYPE_FORWARDREF) &&
  negb (sign_eqb s Generic) &&
  negb (sign_eqb s HINT_PEP586_SIGN_LITERAL).

(** The generator does not recognize the sign of this unignorable hint
    as supported: the hint is PEP-compliant and either the classifier
    does not support it or its sign, or no case of the switch takes its
    sign; or the hint is neither PEP-compliant nor a class and so has no
    sign at all. *)
Definition unrecognized (E : External) (h : hint) : bool :=
  if is_hint_pep h then
    negb (is_hint_pep_supported E h) ||
    (negb (is_hint_ignorable E h) &&
     (negb (HINT_PEP_SIGNS_SUPPORTED E (get_hint_pep_sign h)) ||
      sign_unhandled E h))
  else negb (is_type h).

(** ** Annotated metahints *)

(** The tables of signs leave Annotated metahints to their own case of
    the switch. *)
Definition annotated_dispatch (E : External) : bool :=
  negb (HINT_PEP484_SIGNS_UNION E HINT_PEP593_SIGN_ANNOTATED) &&
  negb (HINT_PEP_SIGNS_TYPE_ORIGIN_STDLIB E HINT_PEP593_SIGN_ANNOTATED &&
        negb (HINT_PEP_SIGNS_SUPPORTED_DEEP E HINT_PEP593_SIGN_ANNOTATED)) &&
  negb (HINT_PEP_SIGNS_SEQUENCE_STANDARD E HINT_PEP593_SIGN_ANNOTATED) &&
  negb (HINT_PEP_SIGNS_TUPLE E HINT_PEP593_SIGN_ANNOTATED).

(** The snippets of Annotated metahints are well-formed format strings
    of their keyword arguments, and merging scopes does not fail. *)
Definition annotated_snippets_format (E : External) : Prop :=
  (forall i p, exists r,
      Format.format (PEP593_CODE_CHECK_HINT_SUBSCRIPTEDIS_PREFIX E)
        [("indent_curr", i); ("hint_child_placeholder", p)] = Return r) /\
  (forall i x, exists r,
      Format.format (PEP593_CODE_CHECK_HINT_SUBSCRIPTEDIS_CHILD E)
        [("indent_curr", i); ("hint_child_expr", x)] = Return r) /\
  (forall scope other, exists s, update_mapping E scope other = Return s).

(** The code of this object, if it is a validator, is a well-formed
    format string of [indent] and [obj]. *)
Definition validator_formats (h : hint) : Prop :=
  match h with
  | HintSubscriptedIs is_valid_code _ =>
      forall i o, exists r,
        Format.format is_valid_code [("indent", i); ("obj", o)] = Return r
  | _ => True
  end.

(** ** Forward references *)

(** The tables of signs leave forward references to their own case of
    the switch. *)
Definition forwardref_dispatch (E : External) : bool :=
  negb (HINT_PEP484_SIGNS_UNION E HINT_PEP484_TYPE_FORWARDREF) &&
  negb (HINT_PEP_SIGNS_TYPE_ORIGIN_STDLIB E HINT_PEP484_TYPE_FORWARDREF &&
        negb (HINT_PEP_SIGNS_SUPPORTED_DEEP E HINT_PEP484_TYPE_FORWARDREF)) &&
  negb (HINT_PEP_SIGNS_SEQUENCE_STANDARD E HINT_PEP484_TYPE_FORWARDREF) &&
  negb (HINT_PEP_SIGNS_TUPLE E HINT_PEP484_TYPE_FORWARDREF).

(** The unqualified classnames collected so far. *)
Definition names_of (st : state) : list string :=
  match hints_forwardref_class_basename st with
  | None => []
  | Some names => names
  end.

(** The classname of this hint when it is a forward reference to an
    unqualified classname. *)
Definition unqualified_forwardref (h : hint) : option string :=
  match h with
  | HintForwardRef classname =>
      if Text.has_char "." classname then None else Some classname
  | _ => None
  end.

(** ** The checks of sequences *)

(** The pith expressions of a visited hint whose pith is [e]: under
    Python >= 3.8 a pith other than the root pith is assigned to the
    next pith variable, which then stands for it. *)
Definition assigned_piths (E : External) (pith_root_expr : string) (e : pexpr)
    (counter : Z) : pexpr * pexpr :=
  if IS_PYTHON_AT_LEAST_3_8 E && negb (String.eqb (unparse_p e) pith_root_expr)
  then
    let name := (Snip.PEP_CODE_PITH_NAME_PREFIX ++ Text.str_of_int (counter + 1))%string in
    (PAssign name e, PVar name)
  else (e, e).

(** The pith expressions whose text Python reads as that expression.
    The generator writes no parentheses around an assignment expression,
    and Python's assignment expression is [NAME := expression], where
    [expression] is no assignment expression unless it is parenthesised:
    the text [a := b := c] is a syntax error, and an assignment under a
    subscription is read as the assignment of the subscription. So an
    assignment expression stands at the top only, over an expression
    without assignment expressions. *)
Definition parses (e : pexpr) : bool :=
  match e with
  | PAssign _ e' => pure e'
  | _ => pure e
  end.

(** The check of a standard sequence, as an expression: the pith is an
    instance of the origin type, and is empty (false) or holds an item
    that the code replacing the placeholder accepts. *)
Definition sequence_check (indent : string) (a x : pexpr)
    (type_expr placeholder : string) : bexpr :=
  BParen
    (Text.nl ++ indent ++
     "    # True only if this pith shallowly satisfies this hint." ++
     Text.nl ++ indent ++ "    ")
    (BAnd (BIsInstance a type_expr)
       (Text.nl ++ indent ++
        "    # True only if either this pith is empty *OR* this pith is" ++
        Text.nl ++ indent ++
        "    # both non-empty and deeply satisfies this hint." ++
        Text.nl ++ indent ++ "    ")
       (BParen "" (BOr (BNot x) " " (BChild placeholder)) ""))
    (Text.nl ++ indent).

(** The hint is PEP-compliant, supported and not ignorable, and the
    switch on signs takes it to the case of standard sequences and
    variadic tuples. *)
Definition sequence_case (E : External) (h : hint) : bool :=
  let s := get_hint_pep_sign h in
  is_hint_pep h && is_hint_pep_supported E h &&
  negb (is_hint_ignorable E h) && HINT_PEP_SIGNS_SUPPORTED E s &&
  negb (HINT_PEP484_SIGNS_UNION E s) &&
  negb (hint_is_sign h s ||
        (HINT_PEP_SIGNS_TYPE_ORIGIN_STDLIB E s &&
         negb (HINT_PEP_SIGNS_SUPPORTED_DEEP E s))) &&
  (HINT_PEP_SIGNS_SEQUENCE_STANDARD E s ||
   (HINT_PEP_SIGNS_TUPLE E s && (len (get_hint_pep_args h) =? 2) &&
    second_is_Ellipsis (get_hint_pep_args h))).

(** ** The checks of unions *)

(** A text without braces: [str.format] leaves it as it is. *)
Definition no_brace (s : string) : bool :=
  negb (Text.has_char "{" s) && negb (Text.has_char "}" s).

(** The disjunction of one or more checks, with [space] after each
    [or]. *)
Fixpoint disjunction (space : string) (d : bexpr) (ds : list bexpr) : bexpr :=
  match ds with
  | [] => d
  | d' :: ds' => BOr d space (disjunction space d' ds')
  end.

(** The check of a union, as an expression: the disjunction, between
    parentheses, of the checks [ds], each on a line of its own. *)
Definition union_check (indent : string) (ds : list bexpr) : bexpr :=
  match ds with
  | [] => BParen EmptyString (BChild EmptyString) EmptyString
  | d :: ds' =>
      BParen (Text.nl ++ indent ++ "    ")
        (disjunction (Text.nl ++ indent ++ "    ") d ds')
        (Text.nl ++ indent)
  end.

(** The pith of the PEP-compliant child hint of index [k] of a union:
    the variable that stands for the pith once it was assigned, which is
    after a test of the PEP-noncompliant children or after the first two
    PEP-compliant children. *)
Definition union_child_pith (nonpep_present : bool) (a x : pexpr) (k : Z) : pexpr :=
  if nonpep_present || (k >? 1) then x else a.

(** The queue items of the PEP-compliant child hints of a union. *)
Fixpoint union_items (nonpep_present : bool) (a x : pexpr) (indent_child : string)
    (k : Z) (pep : list hint) (placeholders : list string) : list hint_meta :=
  match pep, placeholders with
  | h :: pep', ph :: placeholders' =>
      HintMeta h ph (unparse_p (union_child_pith nonpep_present a x k))
        indent_child
      :: union_items nonpep_present a x indent_child (k + 1) pep' placeholders'
  | _, _ => []
  end.

(** The disjuncts of the check of a union: one [isinstance] test against
    the tuple of the PEP-noncompliant children, if there are any, then
    the placeholder of each PEP-compliant child. *)
Definition union_disjuncts (nonpep pep : list hint) (e a : pexpr)
    (types_expr : string) (placeholders : list string) : list bexpr :=
  (if nonempty nonpep
   then [BIsInstance (if nonempty pep then a else e) types_expr]
   else []) ++
  map BChild placeholders.

(** The hint is PEP-compliant, supported and not ignorable, and the
    switch on signs takes it to the case of unions. *)
Definition union_case (E : External) (h : hint) : bool :=
  let s := get_hint_pep_sign h in
  is_hint_pep h && is_hint_pep_supported E h &&
  negb (is_hint_ignorable E h) && HINT_PEP_SIGNS_SUPPORTED E s &&
  HINT_PEP484_SIGNS_UNION E s.

(** The line of one disjunct in the code of a union before its last
    formatting, and the lines of several. *)
Definition union_line (d : string) : string :=
  Text.nl ++ "{indent_curr}    " ++ d ++ " or".

Fixpoint union_lines (ds : list string) : string :=
  match ds with
  | [] => EmptyString
  | d :: ds' => union_line d ++ union_lines ds'
  end.

(** The variable that the pith [e] is assigned to, if it is assigned to
    one, is not mentioned in [e]. *)
Definition assigned_fresh (E : External) (pith_root_expr : string) (e : pexpr)
    (counter : Z) : bool :=
  match fst (assigned_piths E pith_root_expr e counter) with
  | PAssign name _ => negb (mentions name e)
  | _ => true
  end.

(** The code that replaces the placeholder of each PEP-compliant child
    of a union checks the pith handed to that child against the values
    that the child accepts. *)
Definition union_children_check (rt : runtime)
    (chk : string -> store -> result (bool * store)) (nonpep_present : bool)
    (a x : pexpr) (k : Z) (placeholders : list string)
    (accepts : list (value -> bool)) : Prop :=
  Forall2
    (fun item acc =>
       child_checks rt chk (snd item)
         (union_child_pith nonpep_present a x (fst item)) acc)
    (enumerate_from k placeholders) accepts.

(** ** Placeholders in the generated code *)

(** A text without the character that opens a placeholder. *)
Definition atfree (s : string) : bool := negb (Text.has_char "@" s).

(** The text holds the character [@] only in whole placeholders, of
    identifiers above [lo] and up to [hi]. *)
Inductive tokens (lo hi : Z) : string -> Prop :=
| tokens_nil : tokens lo hi EmptyString
| tokens_char (c : ascii) (s : string) :
    Ascii.eqb c "@" = false -> tokens lo hi s -> tokens lo hi (String c s)
| tokens_placeholder (i : Z) (s : string) :
    lo < i <= hi -> tokens lo hi s -> tokens lo hi (placeholder_of i ++ s).

(** The text is made of placeholders and plain characters, and ends with
    at least [n] plain characters unless it holds no placeholder at all:
    stripping its last [n] characters cuts no placeholder. *)
Definition strippable (n : nat) (lo hi : Z) (s : string) : Prop :=
  exists x lit,
    s = x ++ lit /\ tokens lo hi x /\ atfree lit = true /\
    ((n <= String.length lit)%nat \/ x = EmptyString).

(** Python's [s.endswith(suffix)]. *)
Fixpoint endswith (suffix s : string) : bool :=
  String.eqb s suffix ||
  match s with
  | EmptyString => false
  | String _ s' => endswith suffix s'
  end.

(** No class name, forward reference or validator code in the hint
    holds the character [@]. *)
Fixpoint hint_atfree (h : hint) : bool :=
  match h with
  | HintNone | HintEllipsis | HintSign _ => true
  | HintClass c => atfree c
  | HintObject repr => atfree repr
  | HintSubscriptedIs is_valid_code _ => atfree is_valid_code
  | HintForwardRef classname => atfree classname
  | HintNewType c => atfree c
  | HintIOGeneric protocol => hint_atfree protocol
  | HintAnnotated metahint metadata0 metadata =>
      hint_atfree metahint && hint_atfree metadata0 &&
      forallb hint_atfree metadata
  | HintGeneric generic_type bases =>
      match generic_type with
      | Some c => atfree c
      | None => true
      end &&
      (fix bases_atfree (l : list (hint * hint)) : bool :=
         match l with
         | [] => true
         | (unerased, erased) :: l' =>
             hint_atfree unerased && hint_atfree erased && bases_atfree l'
         end) bases
  | HintSubscripted _ args => forallb hint_atfree args
  end.

(** The text of a queue item, but for its placeholder, holds no [@]. *)
Definition item_atfree (m : hint_meta) : bool :=
  hint_atfree (HINT_META_INDEX_HINT m) &&
  atfree (HINT_META_INDEX_PITH_EXPR m) &&
  atfree (HINT_META_INDEX_INDENT m).

(** Every item of the queue is so. *)
Definition queue_atfree (st : state) : Prop :=
  forall (k : nat) (m : hint_meta),
    nth_error (hints_meta st) k = Some (Some m) -> item_atfree m = true.

(** What the generator imports holds no [@]: the snippets and the
    indentation, and the names that the scope builders and the
    classifier return for hints that hold none; the snippets of the
    children of generics and the prefix of validators end with [ and];
    and the indices that strip [ and] and [ or] are -4 and -3. *)
Record external_atfree (E : External) : Prop := {
  atfree_indent_1 : atfree (CODE_INDENT_1 E) = true;
  atfree_indent_2 : atfree (CODE_INDENT_2 E) = true;
  atfree_NoneType : atfree (NoneType E) = true;
  atfree_root_prefix : atfree (PEP_CODE_CHECK_HINT_ROOT_PREFIX E) = true;
  atfree_root_suffix : atfree (PEP_CODE_CHECK_HINT_ROOT_SUFFIX E) = true;
  atfree_root_random :
    atfree (PEP_CODE_CHECK_HINT_ROOT_SUFFIX_RANDOM_INT E) = true;
  atfree_generic_prefix : atfree (PEP_CODE_CHECK_HINT_GENERIC_PREFIX E) = true;
  atfree_generic_suffix : atfree (PEP_CODE_CHECK_HINT_GENERIC_SUFFIX E) = true;
  atfree_generic_child : atfree (PEP_CODE_CHECK_HINT_GENERIC_CHILD E) = true;
  atfree_literal_prefix : atfree (PEP586_CODE_CHECK_HINT_PREFIX E) = true;
  atfree_literal_literal : atfree (PEP586_CODE_CHECK_HINT_LITERAL E) = true;
  atfree_literal_suffix : atfree (PEP586_CODE_CHECK_HINT_SUFFIX E) = true;
  atfree_validator_prefix :
    atfree (PEP593_CODE_CHECK_HINT_SUBSCRIPTEDIS_PREFIX E) = true;
  atfree_validator_suffix :
    atfree (PEP593_CODE_CHECK_HINT_SUBSCRIPTEDIS_SUFFIX E) = true;
  atfree_validator_child :
    atfree (PEP593_CODE_CHECK_HINT_SUBSCRIPTEDIS_CHILD E) = true;
  atfree_tuple_prefix :
    atfree (PEP_CODE_CHECK_HINT_TUPLE_FIXED_PREFIX E) = true;
  generic_child_and :
    endswith " and" (PEP_CODE_CHECK_HINT_GENERIC_CHILD E) = true;
  validator_prefix_and :
    endswith " and" (PEP593_CODE_CHECK_HINT_SUBSCRIPTEDIS_PREFIX E) = true;
  rstrip_and : LINE_RSTRIP_INDEX_AND E = -4;
  rstrip_or : LINE_RSTRIP_INDEX_OR E = -3;
  atfree_stdlib_type :
    forall h c, get_hint_pep_stdlib_type E h = Return c -> atfree c = true;
  atfree_type_of :
    forall h, hint_atfree h = true -> atfree (type_of E h) = true;
  atfree_scope_type :
    forall c scope,
      atfree c = true -> atfree (fst (add_func_scope_type E c scope)) = true;
  atfree_scope_types :
    forall hs scope,
      forallb hint_atfree hs = true ->
      atfree (fst (add_func_scope_types E hs scope)) = true;
  atfree_scope_attr :
    forall h scope,
      hint_atfree h = true ->
      atfree (fst (add_func_scope_attr E h scope)) = true;
  atfree_typistry :
    forall classname,
      atfree classname = true ->
      atfree (register_typistry_forwardref E classname) = true;
}.

(** The local variables of the iteration hold no [@]. *)
Definition frame_atfree (f : frame) : bool :=
  hint_atfree (hint_curr f) && forallb hint_atfree (hint_childs f) &&
  atfree (pith_curr_expr f) && atfree (pith_curr_assign_expr f) &&
  atfree (pith_curr_assigned_expr f) && atfree (indent_curr f) &&
  atfree (indent_child f).

(** From [st] to [st1] the code [code] was generated: it holds [@] only
    in the placeholders minted in between, and the queue still holds no
    other [@]. *)
Definition minted (st st1 : state) (code : string) : Prop :=
  tokens (hint_child_placeholder_id st) (hint_child_placeholder_id st1) code /\
  hint_child_placeholder_id st <= hint_child_placeholder_id st1 /\
  queue_atfree st1.

(** The same of the code accumulated by a loop, whose last [n]
    characters are stripped after the loop. *)
Definition accumulated (n : nat) (id0 : Z) (acc : string * state) : Prop :=
  strippable n id0 (hint_child_placeholder_id (snd acc)) (fst acc) /\
  id0 <= hint_child_placeholder_id (snd acc) /\
  queue_atfree (snd acc).

(** The invariant of the loop: the queue is well formed, the code holds
    [@] only in the placeholders of the hints still to visit, and the
    queue holds none but in the placeholders of its items. *)
Definition placeholders_pending (st : state) : Prop :=
  (exists pend, queue_wf st pend) /\
  tokens (hints_meta_index_curr st - 1) (hint_child_placeholder_id st)
    (func_wrapper_code st) /\
  queue_atfree st.

(** ** The cases of the switch, and what a visit does to the state *)

(** The hint is PEP-compliant, supported and not ignorable, and so is
    its sign: the visit comes to the switch on signs. *)
Definition reaches_switch (E : External) (h : hint) : bool :=
  is_hint_pep h && is_hint_pep_supported E h &&
  negb (is_hint_ignorable E h) &&
  HINT_PEP_SIGNS_SUPPORTED E (get_hint_pep_sign h).

(** The switch takes the hint to the case of shallowly checked hints. *)
Definition shallow_case (E : External) (h : hint) : bool :=
  let s := get_hint_pep_sign h in
  reaches_switch E h &&
  negb (HINT_PEP484_SIGNS_UNION E s) &&
  (hint_is_sign h s ||
   (HINT_PEP_SIGNS_TYPE_ORIGIN_STDLIB E s &&
    negb (HINT_PEP_SIGNS_SUPPORTED_DEEP E s))).

(** The switch takes the hint to the case of fixed-length tuples. *)
Definition tuple_fixed_case (E : External) (h : hint) : bool :=
  let s := get_hint_pep_sign h in
  reaches_switch E h &&
  negb (HINT_PEP484_SIGNS_UNION E s) &&
  negb (hint_is_sign h s ||
        (HINT_PEP_SIGNS_TYPE_ORIGIN_STDLIB E s &&
         negb (HINT_PEP_SIGNS_SUPPORTED_DEEP E s))) &&
  negb (HINT_PEP_SIGNS_SEQUENCE_STANDARD E s ||
        (HINT_PEP_SIGNS_TUPLE E s && (len (get_hint_pep_args h) =? 2) &&
         second_is_Ellipsis (get_hint_pep_args h))) &&
  HINT_PEP_SIGNS_TUPLE E s.

(** The switch takes the hint to the case of literals. *)
Definition literal_case (E : External) (h : hint) : bool :=
  let s := get_hint_pep_sign h in
  reaches_switch E h &&
  negb (HINT_PEP484_SIGNS_UNION E s) &&
  negb (hint_is_sign h s ||
        (HINT_PEP_SIGNS_TYPE_ORIGIN_STDLIB E s &&
         negb (HINT_PEP_SIGNS_SUPPORTED_DEEP E s))) &&
  negb (HINT_PEP_SIGNS_SEQUENCE_STANDARD E s ||
        (HINT_PEP_SIGNS_TUPLE E s && (len (get_hint_pep_args h) =? 2) &&
         second_is_Ellipsis (get_hint_pep_args h))) &&
  negb (HINT_PEP_SIGNS_TUPLE E s) &&
  negb (sign_eqb s HINT_PEP593_SIGN_ANNOTATED) &&
  negb (sign_eqb s HINT_PEP484_TYPE_FORWARDREF) &&
  negb (sign_eqb s Generic) &&
  sign_eqb s HINT_PEP586_SIGN_LITERAL.

(** The counter of pith variables after the piths of a visit were made:
    one more when the pith is assigned to a new variable. *)
Definition assigned_counter (E : External) (pith_root_expr pith_curr_expr : string)
    (counter : Z) : Z :=
  if IS_PYTHON_AT_LEAST_3_8 E &&
     negb (String.eqb pith_curr_expr pith_root_expr)
  then counter + 1 else counter.

(** The visit of the hint takes the case of sequences and finds a child
    hint to check: the one case that asks for the random integer. *)
Definition samples_item (E : External) (h : hint) : bool :=
  sequence_case E h &&
  match get_hint_pep_args h with
  | hint_child :: _ => negb (is_hint_ignorable E hint_child)
  | [] => false
  end.

(** The switch takes the hint to neither of its first four cases. *)
Definition passes_tuples (E : External) (h : hint) : bool :=
  let s := get_hint_pep_sign h in
  reaches_switch E h &&
  negb (HINT_PEP484_SIGNS_UNION E s) &&
  negb (hint_is_sign h s ||
        (HINT_PEP_SIGNS_TYPE_ORIGIN_STDLIB E s &&
         negb (HINT_PEP_SIGNS_SUPPORTED_DEEP E s))) &&
  negb (HINT_PEP_SIGNS_SEQUENCE_STANDARD E s ||
        (HINT_PEP_SIGNS_TUPLE E s && (len (get_hint_pep_args h) =? 2) &&
         second_is_Ellipsis (get_hint_pep_args h))) &&
  negb (HINT_PEP_SIGNS_TUPLE E s).

(** The switch takes the hint to the case of annotated metahints. *)
Definition annotated_case (E : External) (h : hint) : bool :=
  passes_tuples E h &&
  sign_eqb (get_hint_pep_sign h) HINT_PEP593_SIGN_ANNOTATED.

(** The switch takes the hint to the case of generics. *)
Definition generic_case (E : External) (h : hint) : bool :=
  let s := get_hint_pep_sign h in
  passes_tuples E h &&
  negb (sign_eqb s HINT_PEP593_SIGN_ANNOTATED) &&
  negb (sign_eqb s HINT_PEP484_TYPE_FORWARDREF) &&
  sign_eqb s Generic.

(** The pseudo-superclasses of a generic that the loop over them
    enqueues: those that are no classes, erased unless they are both
    PEP 585 builtins and [typing] hints, and not ignorable then. *)
Definition generic_enqueued (E : External) (bases : list (hint * hint))
  : list hint :=
  flat_map
    (fun base : hint * hint =>
       let (hint_child, erased) := base in
       if is_type hint_child then []
       else
         let hint_child :=
           if negb (is_hint_pep585_builtin E hint_child &&
                    is_hint_pep_typing E hint_child)
           then erased
           else hint_child in
         if is_hint_ignorable E hint_child then [] else [hint_child])
    bases.

(** Queue items of these hints, with the placeholders of the
    identifiers from [id] on and the same pith and indentation. *)
Fixpoint items_from (id : Z) (pith indent : string) (hs : list hint)
  : list hint_meta :=
  match hs with
  | [] => []
  | h :: hs' =>
      HintMeta h (placeholder_of id) pith indent ::
      items_from (id + 1) pith indent hs'
  end.

(** The queue items that the loop over the child hints of a fixed-length
    tuple enqueues: one for each child hint that is not ignorable, the
    child at position [index] to be checked against the item [index] of
    the pith [x]; the placeholders count from [id] on. *)
Fixpoint tuple_items (E : External) (id : Z) (x : pexpr) (indent : string)
    (index : Z) (hs : list hint) : list hint_meta :=
  match hs with
  | [] => []
  | h :: hs' =>
      if is_hint_ignorable E h then tuple_items E id x indent (index + 1) hs'
      else
        HintMeta h (placeholder_of id) (unparse_p (PItem x index)) indent ::
        tuple_items E (id + 1) x indent (index + 1) hs'
  end.

(** ** The check of a fixed-length tuple, as an expression *)

(** What the check of a fixed-length tuple tests after the type of the
    pith: that the tuple is empty, that it has [n] items, or what the
    code replacing the placeholder of a child hint tests. *)
Inductive conjunct : Type :=
| CEmpty (x : pexpr)
| CLen (x : pexpr) (n : Z)
| CItem (placeholder : string).

Definition unparse_c (c : conjunct) : string :=
  match c with
  | CEmpty x => "not " ++ unparse_p x
  | CLen x n => "len(" ++ unparse_p x ++ ") == " ++ Text.str_of_int n
  | CItem placeholder => placeholder
  end.

(** The comment that the snippet of a conjunct puts before it. *)
Definition comment_c (indent : string) (c : conjunct) : string :=
  match c with
  | CEmpty _ =>
      Text.nl ++ indent ++ "    # True only if this tuple is empty."
  | CLen _ _ =>
      Text.nl ++ indent ++
      "    # True only if this tuple is of the expected length."
  | CItem _ =>
      Text.nl ++ indent ++
      "    # True only if this item of this non-empty tuple deeply" ++
      Text.nl ++ indent ++ "    # satisfies this child hint."
  end.

(** The lines of a conjunct, and those of one or more conjuncts joined
    by [and]. *)
Definition tuple_line (indent : string) (c : conjunct) : string :=
  comment_c indent c ++ Text.nl ++ indent ++ "    " ++ unparse_c c.

Fixpoint tuple_lines (indent : string) (c : conjunct) (cs : list conjunct)
  : string :=
  match cs with
  | [] => tuple_line indent c
  | c' :: cs' => tuple_line indent c ++ " and" ++ tuple_lines indent c' cs'
  end.

(** The text of the check of a fixed-length tuple: the test of the type
    of the pith [a] and the conjuncts, between parentheses. *)
Definition unparse_tuple_check (indent : string) (a : pexpr)
    (type_expr : string) (c : conjunct) (cs : list conjunct) : string :=
  "(" ++ Text.nl ++ indent ++ "    # True only if this pith is a tuple." ++
  Text.nl ++ indent ++ "    " ++ unparse_b (BIsInstance a type_expr) ++
  " and" ++ tuple_lines indent c cs ++ Text.nl ++ indent ++ ")".

(** The truth of a conjunct, of a conjunction evaluated from left to
    right as far as its conjuncts are true, and of the check of a
    fixed-length tuple. *)
Definition eval_c (rt : runtime)
    (child : string -> store -> result (bool * store)) (s : store)
    (c : conjunct) : result (bool * store) :=
  match c with
  | CEmpty x => eval_b rt child s (BNot x)
  | CLen x n =>
      r <- eval_p rt s x ;;
      k <- len_of (fst r) ;;
      Return (k =? n, snd r)
  | CItem placeholder => child placeholder s
  end.

Fixpoint eval_conjuncts (rt : runtime)
    (child : string -> store -> result (bool * store)) (s : store)
    (cs : list conjunct) : result (bool * store) :=
  match cs with
  | [] => Return (true, s)
  | c :: cs' =>
      r <- eval_c rt child s c ;;
      if fst r then eval_conjuncts rt child (snd r) cs'
      else Return (false, snd r)
  end.

Definition eval_tuple_check (rt : runtime)
    (child : string -> store -> result (bool * store)) (s : store)
    (a : pexpr) (type_expr : string) (cs : list conjunct)
  : result (bool * store) :=
  r <- eval_b rt child s (BIsInstance a type_expr) ;;
  if fst r then eval_conjuncts rt child (snd r) cs
  else Return (false, snd r).

(** The placeholders of the child hints of a fixed-length tuple that are
    not ignorable, counted from [id] on. *)
Fixpoint tuple_placeholders (E : External) (id : Z) (hs : list hint)
  : list string :=
  match hs with
  | [] => []
  | h :: hs' =>
      if is_hint_ignorable E h then tuple_placeholders E id hs'
      else placeholder_of id :: tuple_placeholders E (id + 1) hs'
  end.

(** The conjuncts of the check of the fixed-length tuple [h] whose pith
    variable is [x]. *)
Definition tuple_conjuncts (E : External) (id : Z) (x : pexpr) (h : hint)
  : conjunct * list conjunct :=
  if is_hint_pep_tuple_empty E h then (CEmpty x, [])
  else
    (CLen x (len (get_hint_pep_args h)),
     map CItem (tuple_placeholders E id (get_hint_pep_args h))).

(** The prefix of the case of fixed-length tuples formats as the prefix
    of [_pepsnip.py] does once its field [hint_curr_expr] is bound to
    the expression [type_expr]. *)
Definition tuple_prefix_tests (E : External) (type_expr : string) : Prop :=
  forall indent pith : string,
    Format.format (PEP_CODE_CHECK_HINT_TUPLE_FIXED_PREFIX E)
      [("indent_curr", indent); ("pith_curr_assign_expr", pith)] =
    Format.format Snip.PEP_CODE_CHECK_HINT_TUPLE_FIXED_PREFIX
      [("indent_curr", indent); ("pith_curr_assign_expr", pith);
       ("hint_curr_expr", type_expr)].

(** The code that replaces the placeholder of each child hint that is
    not ignorable checks the item of the pith [x] at the position of
    that child against the values that the child accepts there. *)
Fixpoint tuple_children_check (E : External) (rt : runtime)
    (child : string -> store -> result (bool * store)) (id : Z) (x : pexpr)
    (index : Z) (hs : list hint) (accepts : Z -> value -> bool) : Prop :=
  match hs with
  | [] => True
  | h :: hs' =>
      if is_hint_ignorable E h
      then tuple_children_check E rt child id x (index + 1) hs' accepts
      else
        child_checks rt child (placeholder_of id) (PItem x index)
          (accepts index) /\
        tuple_children_check E rt child (id + 1) x (index + 1) hs' accepts
  end.

(** The items are as many as the child hints, and each child hint that
    is not ignorable accepts the item at its position. *)
Fixpoint tuple_accepted (E : External) (accepts : Z -> value -> bool)
    (index : Z) (hs : list hint) (items : list value) : bool :=
  match hs, items with
  | [], [] => true
  | h :: hs', w :: items' =>
      (is_hint_ignorable E h || accepts index w) &&
      tuple_accepted E accepts (index + 1) hs' items'
  | _, _ => false
  end.

(** The lines of these conjuncts as the code of the tuple holds them
    before its last formatting: each ends with [ and], and the
    indentation is still the field [indent_curr]. *)
Fixpoint tuple_lines_deferred (cs : list conjunct) : string :=
  match cs with
  | [] => EmptyString
  | c :: cs' =>
      tuple_line "{indent_curr}" c ++ " and" ++ tuple_lines_deferred cs'
  end.

(** * Properties *)

Unset Implicit Arguments.

(** ** Python text *)

Module TextFacts.
Import Text.

Lemma has_char_app (c : ascii) (a b : string) :
  has_char c (a ++ b) = has_char c a || has_char c b.
Proof.
  induction a as [|d a IH]; simpl; [reflexivity|].
  rewrite IH. now rewrite orb_assoc.
Qed.

Lemma startswith_app (a b c : string) :
  startswith (a ++ b) (a ++ c) = startswith b c.
Proof.
  induction a as [|d a IH]; simpl; [reflexivity|].
  now rewrite Ascii.eqb_refl, IH.
Qed.

Lemma app_nil_r_string (a : string) : a ++ EmptyString = a.
Proof. induction a as [|c a IH]; simpl; [reflexivity|now rewrite IH]. Qed.

Lemma startswith_app_self (a b : string) : startswith a (a ++ b) = true.
Proof.
  induction a as [|d a IH]; simpl; [reflexivity|].
  now rewrite Ascii.eqb_refl, IH.
Qed.

(** A text that does not hold the first character of [sub] does not
    hold [sub]. *)
Lemma contains_without_head (c : ascii) (sub s : string) :
  has_char c s = false -> contains (String c sub) s = false.
Proof.
  induction s as [|d s IH]; simpl; intros H; [reflexivity|].
  apply orb_false_iff in H. destruct H as [Hc Hs].
  rewrite Hc. simpl. now apply IH.
Qed.

(** Two texts without the delimiter [d], each followed by [d]: one
    starts with the other only when they are equal. *)
Lemma startswith_delimited (d : ascii) (t a b : string) :
  has_char d a = false -> has_char d b = false ->
  startswith (a ++ String d t) (b ++ String d t) = String.eqb a b.
Proof.
  revert b. induction a as [|c a IH]; intros [|e b]; simpl; intros Ha Hb.
  - rewrite Ascii.eqb_refl. simpl.
    pose proof (startswith_app_self t EmptyString) as H.
    now rewrite app_nil_r_string in H.
  - apply orb_false_iff in Hb. destruct Hb as [Hb _]. now rewrite Hb.
  - apply orb_false_iff in Ha. destruct Ha as [Ha _].
    rewrite Ascii.eqb_sym, Ha. reflexivity.
  - apply orb_false_iff in Ha. apply orb_false_iff in Hb.
    destruct Ha as [_ Ha]. destruct Hb as [_ Hb].
    now rewrite (IH b Ha Hb).
Qed.

Lemma string_of_uint_chars (c : ascii) (d : Decimal.uint) :
  Text.decimal_char c = false -> has_char c (NilEmpty.string_of_uint d) = false.
Proof.
  intros Hc. unfold Text.decimal_char in Hc. simpl in Hc.
  repeat (apply orb_false_iff in Hc; destruct Hc as [? Hc]).
  induction d; simpl; rewrite ?IHd; auto;
    match goal with |- (?x || false)%bool = false => now rewrite orb_false_r end.
Qed.

Lemma str_of_int_chars (c : ascii) (i : Z) :
  Text.decimal_char c = false -> has_char c (str_of_int i) = false.
Proof.
  intros Hc. unfold str_of_int.
  assert (Hu : forall d, has_char c (NilZero.string_of_uint d) = false).
  { intros d. pose proof (string_of_uint_chars c d Hc) as H.
    destruct d; try exact H. simpl.
    unfold Text.decimal_char in Hc. simpl in Hc.
    apply orb_false_iff in Hc. destruct Hc as [Hc _]. now rewrite Hc. }
  destruct (Z.to_int i) as [d|d]; simpl; [apply Hu|].
  rewrite Hu. unfold Text.decimal_char in Hc. simpl in Hc.
  repeat (apply orb_false_iff in Hc; destruct Hc as [? Hc]).
  now rewrite orb_false_r.
Qed.

Lemma str_of_int_inj (i j : Z) : str_of_int i = str_of_int j -> i = j.
Proof.
  unfold str_of_int. intros H.
  apply DecimalZ.to_int_inj.
  assert (Hn : forall z, Z.to_int z <> Decimal.Pos Decimal.Nil /\
                         Z.to_int z <> Decimal.Neg Decimal.Nil).
  { intros [|p|p]; simpl; split; try discriminate;
      intros Hp; injection Hp as Hp;
      now apply DecimalPos.Unsigned.to_uint_nonnil in Hp. }
  destruct (Hn i) as [Hi1 Hi2]. destruct (Hn j) as [Hj1 Hj2].
  pose proof (NilZero.isi _ Hi1 Hi2) as Ei.
  pose proof (NilZero.isi _ Hj1 Hj2) as Ej.
  rewrite H in Ei. rewrite Ei in Ej. now injection Ej.
Qed.

Lemma str_of_int_eqb (i j : Z) :
  String.eqb (str_of_int i) (str_of_int j) = Z.eqb i j.
Proof.
  destruct (Z.eqb_spec i j) as [->|Hne].
  - apply String.eqb_refl.
  - apply String.eqb_neq. intros H. now apply str_of_int_inj in H.
Qed.

End TextFacts.

(** ** Placeholders and the queue *)

Lemma fixed_list_get_set_same {A : Type} (l : list (option A)) (i : nat)
    (x : option A) :
  fixed_list_get (fixed_list_set l i x) i = x.
Proof.
  unfold fixed_list_get. revert l.
  induction i as [|i IH]; intros [|y l]; simpl; try reflexivity; apply IH.
Qed.

Lemma placeholder_of_unfold (id : Z) :
  placeholder_of id = String "@" (String "[" (Text.str_of_int id ++ ")!")).
Proof. reflexivity. Qed.

Lemma placeholder_contains (i j : Z) :
  Text.contains (placeholder_of i) (placeholder_of j) = Z.eqb i j.
Proof.
  rewrite (placeholder_of_unfold j).
  cbn [Text.contains]. rewrite (placeholder_of_unfold i).
  rewrite (TextFacts.contains_without_head "@").
  - rewrite orb_false_r. cbn [Text.startswith].
    rewrite !Ascii.eqb_refl. cbn [andb].
    rewrite (TextFacts.startswith_delimited ")" "!").
    + apply TextFacts.str_of_int_eqb.
    + now apply TextFacts.str_of_int_chars.
    + now apply TextFacts.str_of_int_chars.
  - cbn [Text.has_char]. rewrite TextFacts.has_char_app.
    rewrite TextFacts.str_of_int_chars by reflexivity. reflexivity.
Qed.

(** C6: every call to [_enqueue_hint_child] adds one to the identifier of
    child hints and to the index of the last queued hint, returns the
    placeholder made of the new identifier between the delimiters
    ["@["] and [")!"], and stores the new item at that index; and the
    placeholder of one identifier occurs inside the placeholder of
    another exactly when the two identifiers are equal, so the
    placeholder of 1 never matches inside that of 10. *)
Theorem enqueue_mints_collision_free_placeholder :
  forall (st : state) (hint_child : hint) (indent_child pith_child_expr : string),
    let ph := fst (_enqueue_hint_child st hint_child indent_child pith_child_expr) in
    let st' := snd (_enqueue_hint_child st hint_child indent_child pith_child_expr) in
    hint_child_placeholder_id st' = hint_child_placeholder_id st + 1 /\
    hint_child_placeholder_id st < hint_child_placeholder_id st' /\
    hints_meta_index_last st' = hints_meta_index_last st + 1 /\
    ph = "@[" ++ Text.str_of_int (hint_child_placeholder_id st') ++ ")!" /\
    fixed_list_get (hints_meta st') (Z.to_nat (hints_meta_index_last st')) =
      Some (HintMeta hint_child ph pith_child_expr indent_child) /\
    (forall i j : Z,
        Text.contains (placeholder_of i) (placeholder_of j) = Z.eqb i j) /\
    Text.contains (placeholder_of 1) (placeholder_of 10) = false.
Proof.
  intros st hint_child indent_child pith_child_expr. cbn zeta.
  unfold _enqueue_hint_child. cbn [fst snd hint_child_placeholder_id
    hints_meta_index_last hints_meta].
  repeat split; try lia; try reflexivity.
  - apply fixed_list_get_set_same.
  - apply placeholder_contains.
Qed.

(** ** The queue of hints still to visit *)

Open Scope list_scope.

Lemma fixed_list_set_end {A : Type} (l : list (option A)) (x : option A) :
  fixed_list_set l (List.length l) x = l ++ [x].
Proof. induction l as [|y l IH]; simpl; [reflexivity|now rewrite IH]. Qed.

Lemma fixed_list_get_pending {A : Type} (n : nat) (m : A) (rest : list (option A)) :
  fixed_list_get (repeat None n ++ Some m :: rest) n = Some m.
Proof.
  unfold fixed_list_get. induction n as [|n IH]; simpl; [reflexivity|exact IH].
Qed.

Lemma fixed_list_get_empty {A : Type} (n : nat) :
  fixed_list_get (repeat (@None A) n) n = None.
Proof.
  unfold fixed_list_get. induction n as [|n IH]; simpl; [reflexivity|exact IH].
Qed.

Lemma fixed_list_set_pending {A : Type} (n : nat) (x : option A)
    (rest : list (option A)) :
  fixed_list_set (repeat None n ++ x :: rest) n None = repeat None (S n) ++ rest.
Proof. induction n as [|n IH]; simpl; [reflexivity|now rewrite IH]. Qed.

Lemma len_app {A : Type} (a b : list A) : len (a ++ b) = len a + len b.
Proof. unfold len. rewrite length_app. lia. Qed.

Lemma len_nonneg {A : Type} (a : list A) : 0 <= len a.
Proof. unfold len. lia. Qed.

Lemma sizes_app (a b : list hint_meta) : sizes (a ++ b) = (sizes a + sizes b)%nat.
Proof. unfold sizes. now rewrite map_app, list_sum_app. Qed.

Lemma hint_size_pos (h : hint) : (1 <= hint_size h)%nat.
Proof. destruct h; simpl; lia. Qed.

(** *** The loops *)

Lemma for_each_ind {A S : Type} (P : list A -> S -> Prop)
    (body : S -> A -> result S) :
  (forall x l s s', P (x :: l) s -> body s x = Return s' -> P l s') ->
  forall l s r, P l s -> for_each body l s = Return r -> P [] r.
Proof.
  intros Hstep l. induction l as [|x l IH]; simpl; intros s r HP H.
  - now injection H as <-.
  - destruct (body s x) as [s'|e] eqn:Hb; simpl in H; [|discriminate].
    eapply IH; [|exact H]. eapply Hstep; eauto.
Qed.

(** *** Growth of the queue *)

Lemma grows_refl (st : state) : grows st st [].
Proof.
  split; [|split; reflexivity].
  intros pend Hw. now rewrite List.app_nil_r.
Qed.

Lemma grows_trans (st1 st2 st3 : state) (a b : list hint_meta) :
  grows st1 st2 a -> grows st2 st3 b -> grows st1 st3 (a ++ b).
Proof.
  intros (H1 & C1 & I1) (H2 & C2 & I2).
  split; [|split; congruence].
  intros pend Hw. rewrite List.app_assoc. apply H2, H1, Hw.
Qed.

Lemma grows_same (st st' : state) :
  hint_child_placeholder_id st' = hint_child_placeholder_id st ->
  hints_meta st' = hints_meta st ->
  hints_meta_index_curr st' = hints_meta_index_curr st ->
  hints_meta_index_last st' = hints_meta_index_last st ->
  func_wrapper_code st' = func_wrapper_code st ->
  grows st st' [].
Proof.
  intros Hid Hm Hc Hl Hcode. split; [|split; assumption].
  intros pend Hw. rewrite List.app_nil_r. unfold queue_wf in *.
  now rewrite Hid, Hm, Hc, Hl.
Qed.

Lemma grows_with_locals (st : state) (scope : CallableScope) :
  grows st (with_locals st scope) [].
Proof. now apply grows_same. Qed.

Lemma grows_with_counter (st : state) (counter : Z) :
  grows st (with_counter st counter) [].
Proof. now apply grows_same. Qed.

Lemma grows_with_random_int (st : state) : grows st (with_random_int st) [].
Proof. now apply grows_same. Qed.

Lemma grows_with_forwardrefs (st : state) (names : option (list string)) :
  grows st (with_forwardrefs st names) [].
Proof. now apply grows_same. Qed.

Lemma grows_enqueue (st : state) (h : hint) (indent pith : string) :
  grows st (snd (_enqueue_hint_child st h indent pith))
    [HintMeta h (fst (_enqueue_hint_child st h indent pith)) pith indent].
Proof.
  split; [|split; reflexivity].
  intros pend (Hc & Hm & Hl & Hid & Hph).
  unfold _enqueue_hint_child. cbn [fst snd].
  unfold queue_wf.
  cbn [hints_meta_index_curr hints_meta hints_meta_index_last
       hint_child_placeholder_id].
  assert (Hlen : Z.to_nat (hints_meta_index_last st + 1) =
                 List.length (hints_meta st)).
  { rewrite Hm, length_app, repeat_length, length_map, Hl. unfold len. lia. }
  repeat split.
  - exact Hc.
  - rewrite Hlen, fixed_list_set_end, Hm, map_app, <- List.app_assoc.
    reflexivity.
  - rewrite len_app, Hl. unfold len. simpl. lia.
  - lia.
  - intros k m Hk.
    destruct (Nat.lt_ge_cases k (List.length pend)) as [Hlt|Hge].
    + rewrite nth_error_app1 in Hk by exact Hlt. now apply Hph.
    + rewrite nth_error_app2 in Hk by exact Hge.
      destruct (k - List.length pend)%nat as [|k'] eqn:Hk'.
      * simpl in Hk. injection Hk as <-. cbn [HINT_META_INDEX_PLACEHOLDER].
        f_equal. rewrite Hid, Hl. unfold len. lia.
      * simpl in Hk. now destruct k'.
Qed.

(** ** What one visit enqueues *)

Lemma bind_Return_inv {A B : Type} (r : result A) (k : A -> result B) (b : B) :
  bind r k = Return b -> exists a, r = Return a /\ k a = Return b.
Proof. destruct r as [a|e]; simpl; [eauto|discriminate]. Qed.

Ltac inv_bind H :=
  let a := fresh "a" in
  let Ha := fresh "Ha" in
  apply bind_Return_inv in H; destruct H as (a & Ha & H).

Ltac inv_Return H := injection H as <- <- || injection H as <-.

Lemma map_snd_enumerate_from {A : Type} (i : Z) (l : list A) :
  map snd (enumerate_from i l) = l.
Proof.
  revert i. induction l as [|x l IH]; intros i; simpl; [reflexivity|].
  now rewrite IH.
Qed.

Lemma hsum_cons (h : hint) (l : list hint) :
  hsum (h :: l) = (hint_size h + hsum l)%nat.
Proof. reflexivity. Qed.

Lemma hsum_app (a b : list hint) : hsum (a ++ b) = (hsum a + hsum b)%nat.
Proof. unfold hsum. now rewrite map_app, list_sum_app. Qed.

Lemma hsum_set_add (same : hint -> hint -> bool) (x : hint) (s : list hint) :
  (hsum (set_add same x s) <= hint_size x + hsum s)%nat.
Proof.
  unfold set_add. destruct (existsb (same x) s); cbv iota; [lia|].
  rewrite hsum_app, hsum_cons. change (hsum []) with 0%nat. lia.
Qed.

Lemma sizes_one (m : hint_meta) :
  sizes [m] = hint_size (HINT_META_INDEX_HINT m).
Proof. unfold sizes. simpl. lia. Qed.

Lemma hint_size_Annotated (m m0 : hint) (md : list hint) :
  hint_size (HintAnnotated m m0 md) = S (hint_size m + hint_size m0 + hsum md).
Proof. reflexivity. Qed.

Lemma hint_size_Subscripted (s : sign) (args : list hint) :
  hint_size (HintSubscripted s args) = S (hsum args).
Proof. reflexivity. Qed.

Lemma args_size (h : hint) : (hsum (get_hint_pep_args h) < hint_size h)%nat.
Proof.
  destruct h; try (cbn; lia).
  - unfold get_hint_pep_args.
    rewrite hint_size_Annotated, !hsum_cons. lia.
  - unfold get_hint_pep_args. rewrite hint_size_Subscripted. lia.
Qed.

(** A loop whose body enqueues hints of size at most [w x] for the item
    [x] enqueues hints of size at most the sum of the [w x]. *)
Lemma for_each_grows {A C : Type} (w : A -> nat)
    (body : C * state -> A -> result (C * state)) :
  (forall acc x acc',
      body acc x = Return acc' ->
      exists new, grows (snd acc) (snd acc') new /\ (sizes new <= w x)%nat) ->
  forall l acc acc',
    for_each body l acc = Return acc' ->
    exists new,
      grows (snd acc) (snd acc') new /\ (sizes new <= list_sum (map w l))%nat.
Proof.
  intros Hbody l. induction l as [|x l IH]; simpl; intros acc acc' H.
  - injection H as <-. exists []. split; [apply grows_refl|].
    unfold sizes. simpl. lia.
  - inv_bind H. destruct (Hbody _ _ _ Ha) as (n1 & G1 & S1).
    destruct (IH _ _ H) as (n2 & G2 & S2).
    exists (n1 ++ n2). split; [eapply grows_trans; eauto|].
    rewrite sizes_app. lia.
Qed.

Lemma list_sum_enumerate_from (i : Z) (l : list hint) :
  list_sum (map (fun ih : Z * hint => hint_size (snd ih)) (enumerate_from i l)) =
  hsum l.
Proof.
  revert i. induction l as [|x l IH]; intros i; simpl; [reflexivity|].
  rewrite IH. reflexivity.
Qed.

Section Branches.

Variable E : External.

Lemma check_shallow_grows (f : frame) (st st1 : state) (code : string) :
  check_shallow E f st = Return (code, st1) -> grows st st1 [].
Proof.
  unfold check_shallow. intros H.
  destruct (hint_is_sign (hint_curr f) NoReturn); [discriminate|].
  inv_bind H.
  destruct (add_func_scope_type E a (func_wrapper_locals st)) as [expr scope].
  inv_bind H. inv_Return H. apply grows_with_locals.
Qed.

Lemma check_forwardref_grows (f : frame) (st st1 : state) (code : string) :
  check_forwardref E f st = Return (code, st1) -> grows st st1 [].
Proof.
  unfold check_forwardref. intros H. inv_bind H.
  destruct (Text.has_char "." a); inv_bind H; inv_Return H.
  - apply grows_with_locals.
  - apply grows_with_forwardrefs.
Qed.

Lemma check_sequence_grows (f : frame) (st st1 : state) (code : string) :
  check_sequence E f st = Return (code, st1) ->
  exists new, grows st st1 new /\ (sizes new <= hsum (hint_childs f))%nat.
Proof.
  unfold check_sequence. intros H. inv_bind H.
  destruct (add_func_scope_type E a (func_wrapper_locals st)) as [expr scope].
  inv_bind H.
  destruct (hint_childs f) as [|hint_child rest]; [discriminate|].
  destruct (negb (is_hint_ignorable E hint_child)).
  - inv_bind H.
    match type of H with
    | context [_enqueue_hint_child ?s ?h ?i ?p] =>
        pose proof (grows_enqueue s h i p) as Hg;
        destruct (_enqueue_hint_child s h i p) as [ph st2]
    end.
    inv_bind H. inv_Return H. cbn [fst snd] in Hg.
    eexists. split.
    + eapply (grows_trans _ _ _ [] _); [|exact Hg].
      eapply (grows_trans _ _ _ [] []);
        [apply grows_with_locals|apply grows_with_random_int].
    + simpl. rewrite sizes_one, hsum_cons. simpl. lia.
  - inv_bind H. inv_Return H. exists []. split.
    + apply grows_with_locals.
    + unfold sizes. simpl. lia.
Qed.

Lemma tuple_fixed_child_grows (f : frame) (acc : string * state)
    (item : Z * hint) (acc' : string * state) :
  tuple_fixed_child E f acc item = Return acc' ->
  exists new,
    grows (snd acc) (snd acc') new /\ (sizes new <= hint_size (snd item))%nat.
Proof.
  unfold tuple_fixed_child. destruct acc as [c st]. destruct item as [i h].
  intros H. destruct (is_hint_ignorable E h).
  - injection H as <-. exists []. split; [apply grows_refl|].
    unfold sizes. simpl. lia.
  - inv_bind H.
    match type of H with
    | context [_enqueue_hint_child ?s ?h ?i ?p] =>
        pose proof (grows_enqueue s h i p) as Hg;
        destruct (_enqueue_hint_child s h i p) as [ph st2]
    end.
    inv_bind H. injection H as <-. cbn [fst snd] in *.
    eexists. split; [exact Hg|]. rewrite sizes_one. simpl. lia.
Qed.

Lemma check_tuple_fixed_grows (f : frame) (st st1 : state) (code : string) :
  check_tuple_fixed E f st = Return (code, st1) ->
  exists new, grows st st1 new /\ (sizes new <= hsum (hint_childs f))%nat.
Proof.
  unfold check_tuple_fixed. intros H. inv_bind H. inv_bind H. inv_bind H.
  destruct a1 as [c st2]. inv_bind H. injection H as <- <-.
  destruct (is_hint_pep_tuple_empty E (hint_curr f)).
  - inv_bind Ha1. injection Ha1 as <- <-. exists []. split; [apply grows_refl|].
    unfold sizes. simpl. lia.
  - inv_bind Ha1.
    apply (for_each_grows (fun ih => hint_size (snd ih))) in Ha1;
      [|apply tuple_fixed_child_grows].
    destruct Ha1 as (new & G & S). exists new. split; [exact G|].
    unfold enumerate in S. now rewrite list_sum_enumerate_from in S.
Qed.

Ltac enqueue_step H Hg ph st2 :=
  match type of H with
  | context [_enqueue_hint_child ?s ?h ?i ?p] =>
      pose proof (grows_enqueue s h i p) as Hg;
      destruct (_enqueue_hint_child s h i p) as [ph st2];
      cbn [fst snd] in Hg
  end.

Lemma union_filter_size (childs : list hint) (sets : list hint * list hint) :
  for_each (union_filter_child E) childs ([], []) = Return sets ->
  (hsum (snd sets) <= hsum childs)%nat.
Proof.
  intros H.
  apply (for_each_ind
           (fun rem (s : list hint * list hint) =>
              (hsum (fst s) + hsum (snd s) + hsum rem <= hsum childs)%nat))
    in H.
  - change (hsum []) with 0%nat in H. lia.
  - intros x l s s' HP Hb. unfold union_filter_child in Hb.
    inv_bind Hb. rewrite hsum_cons in HP.
    destruct (is_hint_pep x); injection Hb as <-; cbn [fst snd].
    + pose proof (hsum_set_add (hint_eqb E) x (snd s)). lia.
    + pose proof (hsum_set_add (hint_eqb E) x (fst s)). lia.
  - cbn [fst snd]. change (hsum []) with 0%nat. lia.
Qed.

Lemma union_child_pep_grows (f : frame) (nonpep : list hint)
    (acc : string * state) (item : Z * hint) (acc' : string * state) :
  union_child_pep f nonpep acc item = Return acc' ->
  exists new,
    grows (snd acc) (snd acc') new /\ (sizes new <= hint_size (snd item))%nat.
Proof.
  unfold union_child_pep. destruct acc as [c st]. destruct item as [i h].
  intros H. enqueue_step H Hg ph st2.
  inv_bind H. injection H as <-. cbn [fst snd] in *.
  eexists. split; [exact Hg|]. rewrite sizes_one. simpl. lia.
Qed.

Lemma check_union_grows (f : frame) (st st1 : state) (code : string) :
  check_union E f st = Return (code, st1) ->
  exists new, grows st st1 new /\ (sizes new <= hsum (hint_childs f))%nat.
Proof.
  unfold check_union. intros H. inv_bind H. inv_bind H.
  pose proof (union_filter_size _ _ Ha0) as Hsets.
  inv_bind H. inv_bind H. destruct a2 as [c st3].
  assert (G1 : grows st (snd a1) []).
  { destruct (nonempty (fst a0)).
    - destruct (add_func_scope_types E (fst a0) (func_wrapper_locals st))
        as [expr scope].
      inv_bind Ha1. injection Ha1 as <-. apply grows_with_locals.
    - injection Ha1 as <-. apply grows_refl. }
  apply (for_each_grows (fun ih => hint_size (snd ih))) in Ha2;
    [|apply union_child_pep_grows].
  destruct Ha2 as (new & G & S). cbn [snd] in G.
  unfold enumerate in S. rewrite list_sum_enumerate_from in S.
  assert (st1 = st3) as ->.
  { destruct (negb (String.eqb c Snip.PEP484_CODE_CHECK_HINT_UNION_PREFIX)).
    - inv_bind H. now injection H.
    - now injection H. }
  exists new. split; [|lia].
  apply (grows_trans _ _ _ [] new G1 G).
Qed.

Lemma annotated_child_grows (f : frame) (acc : string * state) (h : hint)
    (acc' : string * state) :
  annotated_child E f acc h = Return acc' ->
  exists new, grows (snd acc) (snd acc') new /\ (sizes new <= 0)%nat.
Proof.
  unfold annotated_child. destruct acc as [c st]. intros H.
  destruct h; try discriminate.
  inv_bind H. inv_bind H. inv_bind H. injection H as <-.
  exists []. split; [apply grows_with_locals|]. unfold sizes. simpl. lia.
Qed.

Lemma check_annotated_grows (f : frame) (st st1 : state) (code : string) :
  check_annotated E f st = Return (code, st1) ->
  exists new, grows st st1 new /\ (sizes new < hint_size (hint_curr f))%nat.
Proof.
  unfold check_annotated. intros H. inv_bind H.
  destruct (hint_curr f) as [| | | | | | | |m m0 md| | |] eqn:Hh;
    try discriminate.
  enqueue_step H Hg ph st2. inv_bind H. inv_bind H.
  destruct a1 as [c st3]. inv_bind H. injection H as <- <-.
  apply (for_each_grows (fun _ => 0%nat)) in Ha1;
    [|apply annotated_child_grows].
  destruct Ha1 as (new & G & S). cbn [snd] in G.
  eexists. split; [eapply grows_trans; [exact Hg|exact G]|].
  rewrite sizes_app, sizes_one. cbn [HINT_META_INDEX_HINT get_hint_pep593_metahint].
  rewrite hint_size_Annotated.
  assert (list_sum (map (fun _ : hint => 0%nat) (get_hint_pep593_metadata (HintAnnotated m m0 md))) = 0%nat) as Hz.
  { generalize (get_hint_pep593_metadata (HintAnnotated m m0 md)).
    intros l. induction l; simpl; auto. }
  lia.
Qed.

Lemma generic_child_grows (f : frame) (acc : string * state)
    (base : hint * hint) (acc' : string * state) :
  generic_child E f acc base = Return acc' ->
  exists new,
    grows (snd acc) (snd acc') new /\
    (sizes new <= hint_size (fst base) + hint_size (snd base))%nat.
Proof.
  unfold generic_child. destruct acc as [c st]. destruct base as [u e].
  intros H. cbn [fst snd].
  assert (Hskip : forall a : string * state,
             Return (c, st) = Return a ->
             exists new, grows st (snd a) new /\
                         (sizes new <= hint_size u + hint_size e)%nat).
  { intros a Ha. injection Ha as <-. exists []. split; [apply grows_refl|].
    unfold sizes. simpl. lia. }
  destruct (is_type u); [now apply Hskip|].
  match type of H with
  | context [is_hint_ignorable E ?h] =>
      assert (Hsz : (hint_size h <= hint_size u + hint_size e)%nat)
        by (destruct (negb _); lia);
      generalize dependent h
  end.
  intros h' H Hsz.
  destruct (is_hint_ignorable E h'); [now apply Hskip|].
  enqueue_step H Hg ph st2. inv_bind H. injection H as <-. cbn [fst snd] in *.
  eexists. split; [exact Hg|]. rewrite sizes_one. simpl. lia.
Qed.

Lemma hint_size_Generic (c : option cls) (bases : list (hint * hint)) :
  hint_size (HintGeneric c bases) =
  S (list_sum (map (fun b : hint * hint =>
                      (hint_size (fst b) + hint_size (snd b))%nat) bases)).
Proof.
  simpl. f_equal.
  induction bases as [|[u e] l IH]; [reflexivity|].
  simpl. rewrite IH. reflexivity.
Qed.

Lemma check_generic_grows (f : frame) (st st1 : state) (code : string) :
  check_generic E f st = Return (code, st1) ->
  exists new, grows st st1 new /\ (sizes new < hint_size (hint_curr f))%nat.
Proof.
  unfold check_generic. intros H.
  destruct (get_hint_pep_generic_type_or_none (hint_curr f)) as [c|] eqn:Hc;
    [|discriminate].
  inv_bind H. destruct a as [c1 st2].
  destruct (add_func_scope_type E c (func_wrapper_locals st2)) as [expr scope].
  inv_bind H. injection H as <- <-.
  apply (for_each_grows
           (fun b : hint * hint => (hint_size (fst b) + hint_size (snd b))%nat))
    in Ha; [|apply generic_child_grows].
  destruct Ha as (new & G & S). cbn [snd] in G.
  exists new. split.
  - rewrite <- (List.app_nil_r new).
    eapply grows_trans; [exact G|apply grows_with_locals].
  - destruct (hint_curr f); try discriminate.
    cbn [get_hint_pep_generic_bases_unerased] in S.
    rewrite hint_size_Generic. lia.
Qed.

Lemma literal_child_grows (f : frame) (acc : string * state) (h : hint)
    (acc' : string * state) :
  literal_child E f acc h = Return acc' ->
  exists new, grows (snd acc) (snd acc') new /\ (sizes new <= 0)%nat.
Proof.
  unfold literal_child. destruct acc as [c st]. intros H.
  destruct (add_func_scope_attr E h (func_wrapper_locals st)) as [expr scope].
  inv_bind H. injection H as <-.
  exists []. split; [apply grows_with_locals|]. unfold sizes. simpl. lia.
Qed.

Lemma check_literal_grows (f : frame) (st st1 : state) (code : string) :
  check_literal E f st = Return (code, st1) -> grows st st1 [].
Proof.
  unfold check_literal. intros H.
  destruct (negb (is_hint_pep586 E (hint_curr f))); [discriminate|].
  match type of H with
  | context [add_func_scope_types E ?t ?sc] =>
      destruct (add_func_scope_types E t sc) as [expr scope]
  end.
  inv_bind H. inv_bind H. destruct a0 as [c st2]. inv_bind H.
  injection H as <- <-.
  apply (for_each_grows (fun _ => 0%nat)) in Ha0;
    [|apply literal_child_grows].
  destruct Ha0 as (new & G & S). cbn [snd] in G.
  assert (new = []) as ->.
  { assert (Hz : (sizes new <= 0)%nat).
    { revert S. generalize (hint_childs f). intros l.
      assert (list_sum (map (fun _ : hint => 0%nat) l) = 0%nat) as ->
        by (induction l; simpl; auto).
      auto. }
    destruct new as [|m new]; [reflexivity|].
    unfold sizes in Hz. simpl in Hz.
    pose proof (hint_size_pos (HINT_META_INDEX_HINT m)). lia. }
  apply (grows_trans _ _ _ [] [] (grows_with_locals st scope) G).
Qed.

Lemma check_sign_grows (f : frame) (st st1 : state) (code : string) :
  hint_childs f = get_hint_pep_args (hint_curr f) ->
  check_sign E f st = Return (code, st1) ->
  exists new, grows st st1 new /\ (sizes new < hint_size (hint_curr f))%nat.
Proof.
  intros Hargs H. unfold check_sign in H.
  pose proof (args_size (hint_curr f)) as Hsz. rewrite <- Hargs in Hsz.
  pose proof (hint_size_pos (hint_curr f)) as Hpos.
  assert (Hle : forall new, (sizes new <= hsum (hint_childs f))%nat ->
                            (sizes new < hint_size (hint_curr f))%nat)
    by (intros; lia).
  assert (Hnil : (sizes [] < hint_size (hint_curr f))%nat)
    by (unfold sizes; simpl; lia).
  repeat match type of H with
         | (if ?c then _ else _) = _ => destruct c
         end.
  - apply check_union_grows in H. destruct H as (new & G & S). eauto.
  - apply check_shallow_grows in H. eauto.
  - apply check_sequence_grows in H. destruct H as (new & G & S). eauto.
  - apply check_tuple_fixed_grows in H. destruct H as (new & G & S). eauto.
  - now apply check_annotated_grows in H.
  - apply check_forwardref_grows in H. eauto.
  - now apply check_generic_grows in H.
  - apply check_literal_grows in H. eauto.
  - discriminate.
Qed.

Lemma check_pep_grows (root : string) (h : hint) (pith indent : string)
    (st st1 : state) (code : string) :
  check_pep E root h pith indent st = Return (code, st1) ->
  exists new, grows st st1 new /\ (sizes new < hint_size h)%nat.
Proof.
  unfold check_pep. intros H. inv_bind H. inv_bind H. inv_bind H. inv_bind H.
  destruct a2 as [[assign assigned] counter].
  apply check_sign_grows in H; [|reflexivity].
  destruct H as (new & G & S). cbn [hint_curr] in S.
  exists new. split; [|exact S].
  apply (grows_trans _ _ _ [] new (grows_with_counter st counter) G).
Qed.

Lemma check_hint_grows (root : string) (h : hint) (pith indent : string)
    (st st1 : state) (code : string) :
  check_hint E root h pith indent st = Return (code, st1) ->
  exists new, grows st st1 new /\ (sizes new < hint_size h)%nat.
Proof.
  unfold check_hint. intros H. destruct (is_hint_pep h).
  - now apply check_pep_grows in H.
  - destruct h; try discriminate.
    destruct (add_func_scope_type E c (func_wrapper_locals st)) as [expr scope].
    inv_bind H. injection H as <- <-.
    exists []. split; [apply grows_with_locals|]. unfold sizes. simpl. lia.
Qed.

Lemma reduce_hint_size (h : hint) :
  (hint_size (reduce_hint E h) <= hint_size h)%nat.
Proof.
  destruct h; try (cbn; lia).
  - cbn [reduce_hint is_hint_pep593 is_hint_pep593_beartype
         get_hint_pep593_metahint].
    destruct (negb (is_SubscriptedIs h2)); [|lia].
    rewrite hint_size_Annotated. lia.
Qed.

(** One iteration of the loop on a well-formed queue whose first pending
    item is [m]: the item is consumed, new items are appended, and the
    placeholder of [m] is replaced in the code by the code of its hint. *)
Lemma visit_queue (root : string) (st st' : state) (m : hint_meta)
    (pend : list hint_meta) :
  queue_wf st (m :: pend) ->
  visit E root st = Return st' ->
  exists new code st1,
    check_hint E root (reduce_hint E (HINT_META_INDEX_HINT m))
      (HINT_META_INDEX_PITH_EXPR m) (HINT_META_INDEX_INDENT m) st =
      Return (code, st1) /\
    grows st st1 new /\
    queue_wf st' (pend ++ new) /\
    (sizes new < hint_size (HINT_META_INDEX_HINT m))%nat /\
    hints_meta_index_curr st' = hints_meta_index_curr st + 1 /\
    func_wrapper_code st' =
      replace_str_substrs (func_wrapper_code st)
        (HINT_META_INDEX_PLACEHOLDER m) code /\
    func_wrapper_locals st' = func_wrapper_locals st1 /\
    is_var_random_int_needed st' = is_var_random_int_needed st1 /\
    hints_forwardref_class_basename st' = hints_forwardref_class_basename st1.
Proof.
  intros Hw H. unfold visit in H.
  pose proof Hw as (Hc & Hm & Hl & Hid & Hph).
  rewrite Hm in H. cbn [map] in H. rewrite fixed_list_get_pending in H.
  inv_bind H. destruct a as [code st1]. injection H as <-.
  pose proof Ha as Hchk.
  apply check_hint_grows in Ha. destruct Ha as (new & G & Hsz).
  pose proof (reduce_hint_size (HINT_META_INDEX_HINT m)) as Hr.
  destruct G as (Gw & Gc & Gi).
  pose proof (Gw _ Hw) as (Hc1 & Hm1 & Hl1 & Hid1 & Hph1).
  exists new, code, st1.
  split; [exact Hchk|]. split; [exact (conj Gw (conj Gc Gi))|].
  split;
    [|cbn [hints_meta_index_curr func_wrapper_code func_wrapper_locals
           is_var_random_int_needed hints_forwardref_class_basename];
      rewrite Gc, Gi; repeat split; lia].
  unfold queue_wf.
  cbn [hints_meta_index_curr hints_meta hints_meta_index_last
       hint_child_placeholder_id].
  rewrite Gi in *. repeat split.
  - lia.
  - rewrite Hm1. cbn [List.app map].
    rewrite fixed_list_set_pending.
    replace (Z.to_nat (hints_meta_index_curr st + 1))
      with (S (Z.to_nat (hints_meta_index_curr st))) by lia.
    reflexivity.
  - rewrite Hl1. cbn [List.app]. unfold len. simpl. lia.
  - exact Hid1.
  - intros k m' Hk.
    rewrite (Hph1 (S k) m' Hk). f_equal. lia.
Qed.

End Branches.

(** ** The search *)

Section Search.

Variable E : External.

(** The root item of the queue. *)
Lemma state_root_wf (h : hint) :
  queue_wf (snd (state_root E h))
    [HintMeta h (placeholder_of 0) Snip.PEP_CODE_PITH_ROOT_NAME (CODE_INDENT_2 E)] /\
  fst (state_root E h) = (PEP_CODE_CHECK_HINT_ROOT_PREFIX E ++ placeholder_of 0)%string /\
  func_wrapper_code (snd (state_root E h)) = fst (state_root E h).
Proof.
  unfold state_root, _enqueue_hint_child. cbn. unfold queue_wf. cbn.
  repeat split; try lia.
  intros [|[|k]] m Hk; simpl in Hk; try discriminate.
  now injection Hk as <-.
Qed.

Lemma queue_wf_pending (st : state) (pend : list hint_meta) :
  queue_wf st pend ->
  (hints_meta_index_curr st <=? hints_meta_index_last st) = nonempty pend.
Proof.
  intros (Hc & Hm & Hl & _). rewrite Hl. destruct pend as [|m pend]; simpl.
  - apply Z.leb_gt. unfold len. simpl. lia.
  - apply Z.leb_le. unfold len. simpl. lia.
Qed.

(** An invariant of the loop body holds when the loop ends, and then no
    hint is left to visit. *)
Lemma search_invariant (root : string) (I : state -> Prop) :
  (forall st st',
      I st -> (hints_meta_index_curr st <=? hints_meta_index_last st) = true ->
      visit E root st = Return st' -> I st') ->
  forall fuel st st',
    I st -> search E root fuel st = Some (Return st') ->
    I st' /\ (hints_meta_index_curr st' <=? hints_meta_index_last st') = false.
Proof.
  intros Hstep fuel. induction fuel as [|fuel IH]; intros st st' HI H;
    simpl in H;
    destruct (hints_meta_index_curr st <=? hints_meta_index_last st) eqn:Hp;
    try discriminate.
  - injection H as <-. now split.
  - destruct (visit E root st) as [st1|e] eqn:Hv; [|discriminate].
    apply (IH st1); [|exact H]. eapply Hstep; eauto.
  - injection H as <-. now split.
Qed.

(** The loop ends within as many iterations as the pending hints have
    objects. *)
Lemma search_total (root : string) (fuel : nat) :
  forall st pend,
    queue_wf st pend -> (sizes pend <= fuel)%nat ->
    search E root fuel st <> None.
Proof.
  induction fuel as [|fuel IH]; intros st pend Hw Hs; simpl;
    rewrite (queue_wf_pending _ _ Hw); destruct pend as [|m pend]; simpl;
    try discriminate.
  - unfold sizes in Hs. simpl in Hs.
    pose proof (hint_size_pos (HINT_META_INDEX_HINT m)). lia.
  - destruct (visit E root st) as [st1|e] eqn:Hv; [|discriminate].
    destruct (visit_queue E root st st1 m pend Hw Hv)
      as (new & code & st2 & _ & _ & Hw1 & Hsz & _).
    apply (IH st1 _ Hw1). rewrite sizes_app.
    unfold sizes in Hs. simpl in Hs. fold (sizes pend) in Hs. lia.
Qed.

(** More iterations do not change the outcome of a loop that ended. *)
Lemma search_more (root : string) (fuel : nat) :
  forall st r k,
    search E root fuel st = Some r -> search E root (fuel + k) st = Some r.
Proof.
  induction fuel as [|fuel IH]; intros st r k H; simpl in H.
  - destruct (hints_meta_index_curr st <=? hints_meta_index_last st) eqn:Hp;
      [discriminate|].
    destruct k; simpl; now rewrite Hp.
  - simpl. destruct (hints_meta_index_curr st <=? hints_meta_index_last st);
      [|exact H].
    destruct (visit E root st) as [st1|e]; [|exact H]. now apply IH.
Qed.

(** [pep_code_check_hint] always returns or raises: the iterations it is
    given suffice. *)
Lemma pep_code_check_hint_total (h : hint) : pep_code_check_hint E h <> None.
Proof.
  unfold pep_code_check_hint.
  destruct (state_root_wf h) as (Hw & _ & _).
  destruct (state_root E h) as [root st]. cbn [snd] in Hw.
  pose proof (search_total Snip.PEP_CODE_PITH_ROOT_NAME (hint_size h) st _ Hw) as Ht.
  destruct (search E Snip.PEP_CODE_PITH_ROOT_NAME (hint_size h) st) as [[st'|e]|].
  - discriminate.
  - discriminate.
  - exfalso. apply Ht; [|reflexivity]. unfold sizes. simpl. lia.
Qed.

End Search.

(** ** The hints the search visits *)

Section Visits.

Variable E : External.

Lemma steps_search (root : string) (n : nat) :
  forall st0 st k,
    steps E root n st0 = Some st ->
    search E root (n + k) st0 = search E root k st.
Proof.
  induction n as [|n IH]; intros st0 st k H; simpl in H.
  - now injection H as <-.
  - simpl.
    destruct (hints_meta_index_curr st0 <=? hints_meta_index_last st0);
      [|discriminate].
    destruct (visit E root st0) as [st1|e]; [|discriminate].
    now apply IH.
Qed.

Lemma steps_wf (root : string) (n : nat) :
  forall st0 st pend0,
    steps E root n st0 = Some st -> queue_wf st0 pend0 ->
    exists pend, queue_wf st pend.
Proof.
  induction n as [|n IH]; intros st0 st pend0 H Hw; simpl in H.
  - injection H as <-. eauto.
  - rewrite (queue_wf_pending _ _ Hw) in H.
    destruct pend0 as [|m pend0]; [discriminate|]. cbn [nonempty] in H.
    destruct (visit E root st0) as [st1|e] eqn:Hv; [|discriminate].
    destruct (visit_queue E root st0 st1 m pend0 Hw Hv)
      as (new & code & st2 & _ & _ & Hw1 & _).
    eapply IH; eauto.
Qed.

(** The state in which an item is visited has a well-formed queue that
    starts with the item. *)
Lemma visits_in_wf (hint_root : hint) (st : state) (m : hint_meta) :
  visits_in E hint_root st m -> exists pend, queue_wf st (m :: pend).
Proof.
  intros (n & Hn & Hp & Hm).
  destruct (state_root_wf E hint_root) as (Hw0 & _).
  destruct (steps_wf _ _ _ _ _ Hn Hw0) as (pend & Hw).
  rewrite (queue_wf_pending _ _ Hw) in Hp.
  destruct pend as [|m' pend]; [discriminate|].
  exists pend. pose proof Hw as (_ & Hmeta & _).
  rewrite Hmeta in Hm. cbn [map] in Hm. rewrite fixed_list_get_pending in Hm.
  now injection Hm as <-.
Qed.

(** An exception raised while visiting an item is raised by
    [pep_code_check_hint]. *)
Lemma visits_in_raise (hint_root : hint) (st : state) (m : hint_meta) (e : exn) :
  visits_in E hint_root st m ->
  visit E Snip.PEP_CODE_PITH_ROOT_NAME st = Raise e ->
  pep_code_check_hint E hint_root = Some (Raise e).
Proof.
  intros (n & Hn & Hp & Hm) Hv.
  pose proof (pep_code_check_hint_total E hint_root) as Ht.
  unfold pep_code_check_hint in *.
  destruct (state_root E hint_root) as [root st0]. cbn [snd] in Hn.
  assert (Hs : search E Snip.PEP_CODE_PITH_ROOT_NAME
                 (n + 1 + hint_size hint_root) st0 = Some (Raise e)).
  { rewrite <- Nat.add_assoc. rewrite (steps_search _ _ _ _ _ Hn).
    simpl. now rewrite Hp, Hv. }
  destruct (search E Snip.PEP_CODE_PITH_ROOT_NAME (hint_size hint_root) st0)
    as [r|] eqn:Hr; [|congruence].
  apply (search_more E _ _ _ _ (n + 1)%nat) in Hr.
  rewrite Nat.add_comm in Hr. rewrite Hr in Hs. injection Hs as ->.
  reflexivity.
Qed.

Lemma visit_unfold (root : string) (st : state) (m : hint_meta) :
  fixed_list_get (hints_meta st) (Z.to_nat (hints_meta_index_curr st)) = Some m ->
  forall e,
    check_hint E root (reduce_hint E (HINT_META_INDEX_HINT m))
      (HINT_META_INDEX_PITH_EXPR m) (HINT_META_INDEX_INDENT m) st = Raise e ->
    visit E root st = Raise e.
Proof. intros Hm e He. unfold visit. now rewrite Hm, He. Qed.

Lemma assign_pith_returns (root pith : string) (counter : Z) :
  exists r, assign_pith E root pith counter = Return r.
Proof.
  unfold assign_pith.
  destruct (IS_PYTHON_AT_LEAST_3_8 E && negb (String.eqb pith root)).
  - eexists. cbn. reflexivity.
  - eexists. reflexivity.
Qed.

End Visits.

(** ** What the cases of the switch leave unchanged *)

(** Every case of the switch but that of forward references changes the
    state only by enqueueing child hints, binding scope attributes,
    counting pith variables and asking for the random integer: a
    relation between states that these steps respect holds between the
    state before and the state after the case. *)
Section Frame.

Variable E : External.
Variable R : state -> state -> Prop.
Hypothesis R_refl : forall st, R st st.
Hypothesis R_trans : forall a b c, R a b -> R b c -> R a c.
Hypothesis R_enqueue :
  forall st h i p, R st (snd (_enqueue_hint_child st h i p)).
Hypothesis R_locals : forall st scope, R st (with_locals st scope).
Hypothesis R_counter : forall st counter, R st (with_counter st counter).
Hypothesis R_random : forall st, R st (with_random_int st).

Lemma for_each_frame {A C : Type} (body : C * state -> A -> result (C * state)) :
  (forall acc x acc', body acc x = Return acc' -> R (snd acc) (snd acc')) ->
  forall l acc acc',
    for_each body l acc = Return acc' -> R (snd acc) (snd acc').
Proof.
  intros Hbody l. induction l as [|x l IH]; simpl; intros acc acc' H.
  - injection H as <-. apply R_refl.
  - inv_bind H. eapply R_trans; [eapply Hbody|eapply IH]; eauto.
Qed.

Ltac enqueue_frame H Hg ph st2 :=
  match type of H with
  | context [_enqueue_hint_child ?s ?h ?i ?p] =>
      pose proof (R_enqueue s h i p) as Hg;
      destruct (_enqueue_hint_child s h i p) as [ph st2];
      cbn [fst snd] in Hg
  end.

Lemma check_union_frame (f : frame) (st st1 : state) (code : string) :
  check_union E f st = Return (code, st1) -> R st st1.
Proof.
  unfold check_union. intros H. inv_bind H. inv_bind H.
  inv_bind H. inv_bind H. destruct a2 as [c st3].
  assert (G1 : R st (snd a1)).
  { destruct (nonempty (fst a0)).
    - destruct (add_func_scope_types E (fst a0) (func_wrapper_locals st))
        as [expr scope].
      inv_bind Ha1. injection Ha1 as <-. apply R_locals.
    - injection Ha1 as <-. apply R_refl. }
  apply for_each_frame in Ha2.
  - cbn [snd] in Ha2.
    assert (st1 = st3) as ->.
    { destruct (negb (String.eqb c Snip.PEP484_CODE_CHECK_HINT_UNION_PREFIX)).
      - inv_bind H. now injection H.
      - now injection H. }
    eapply R_trans; eauto.
  - intros [c0 s0] [i h] acc' Hb. unfold union_child_pep in Hb.
    enqueue_frame Hb Hg ph st2. inv_bind Hb. now injection Hb as <-.
Qed.

Lemma check_shallow_frame (f : frame) (st st1 : state) (code : string) :
  check_shallow E f st = Return (code, st1) -> R st st1.
Proof.
  unfold check_shallow. intros H.
  destruct (hint_is_sign (hint_curr f) NoReturn); [discriminate|].
  inv_bind H.
  destruct (add_func_scope_type E a (func_wrapper_locals st)) as [expr scope].
  inv_bind H. inv_Return H. apply R_locals.
Qed.

Lemma check_sequence_frame (f : frame) (st st1 : state) (code : string) :
  check_sequence E f st = Return (code, st1) -> R st st1.
Proof.
  unfold check_sequence. intros H. inv_bind H.
  destruct (add_func_scope_type E a (func_wrapper_locals st)) as [expr scope].
  inv_bind H.
  destruct (hint_childs f) as [|hint_child rest]; [discriminate|].
  destruct (negb (is_hint_ignorable E hint_child)).
  - inv_bind H. enqueue_frame H Hg ph st2. inv_bind H. inv_Return H.
    eapply R_trans; [|exact Hg].
    eapply R_trans; [apply R_locals|apply R_random].
  - inv_bind H. inv_Return H. apply R_locals.
Qed.

Lemma check_tuple_fixed_frame (f : frame) (st st1 : state) (code : string) :
  check_tuple_fixed E f st = Return (code, st1) -> R st st1.
Proof.
  unfold check_tuple_fixed. intros H. inv_bind H. inv_bind H. inv_bind H.
  destruct a1 as [c st2]. inv_bind H. injection H as <- <-.
  destruct (is_hint_pep_tuple_empty E (hint_curr f)).
  - inv_bind Ha1. injection Ha1 as <- <-. apply R_refl.
  - inv_bind Ha1. apply for_each_frame in Ha1; [exact Ha1|].
    intros [c0 s0] [i h] acc' Hb. unfold tuple_fixed_child in Hb.
    destruct (is_hint_ignorable E h).
    + injection Hb as <-. apply R_refl.
    + inv_bind Hb. enqueue_frame Hb Hg ph st3. inv_bind Hb.
      now injection Hb as <-.
Qed.

Lemma check_annotated_frame (f : frame) (st st1 : state) (code : string) :
  check_annotated E f st = Return (code, st1) -> R st st1.
Proof.
  unfold check_annotated. intros H. inv_bind H.
  enqueue_frame H Hg ph st2. inv_bind H. inv_bind H.
  destruct a1 as [c st3]. inv_bind H. injection H as <- <-.
  apply for_each_frame in Ha1.
  - eapply R_trans; eauto.
  - intros [c0 s0] h acc' Hb. unfold annotated_child in Hb.
    destruct h; try discriminate.
    inv_bind Hb. inv_bind Hb. inv_bind Hb. injection Hb as <-.
    apply R_locals.
Qed.

Lemma check_generic_frame (f : frame) (st st1 : state) (code : string) :
  check_generic E f st = Return (code, st1) -> R st st1.
Proof.
  unfold check_generic. intros H.
  destruct (get_hint_pep_generic_type_or_none (hint_curr f)) as [c|];
    [|discriminate].
  inv_bind H. destruct a as [c1 st2].
  destruct (add_func_scope_type E c (func_wrapper_locals st2)) as [expr scope].
  inv_bind H. injection H as <- <-.
  apply for_each_frame in Ha.
  - eapply R_trans; [exact Ha|apply R_locals].
  - intros [c0 s0] [u e] acc' Hb. unfold generic_child in Hb.
    destruct (is_type u); [injection Hb as <-; apply R_refl|].
    match type of Hb with
    | context [is_hint_ignorable E ?h] => destruct (is_hint_ignorable E h)
    end; [injection Hb as <-; apply R_refl|].
    enqueue_frame Hb Hg ph st3. inv_bind Hb. now injection Hb as <-.
Qed.

Lemma check_literal_frame (f : frame) (st st1 : state) (code : string) :
  check_literal E f st = Return (code, st1) -> R st st1.
Proof.
  unfold check_literal. intros H.
  destruct (negb (is_hint_pep586 E (hint_curr f))); [discriminate|].
  match type of H with
  | context [add_func_scope_types E ?t ?sc] =>
      destruct (add_func_scope_types E t sc) as [expr scope]
  end.
  inv_bind H. inv_bind H. destruct a0 as [c st2]. inv_bind H.
  injection H as <- <-.
  apply for_each_frame in Ha0.
  - eapply R_trans; [apply R_locals|exact Ha0].
  - intros [c0 s0] h acc' Hb. unfold literal_child in Hb.
    destruct (add_func_scope_attr E h (func_wrapper_locals s0)) as [x sc].
    inv_bind Hb. injection Hb as <-. apply R_locals.
Qed.

End Frame.
(** ** What one visit does *)

Lemma assign_pith_counter (E : External) (root pith : string) (counter : Z) :
  exists a x,
    assign_pith E root pith counter =
      Return (a, x, assigned_counter E root pith counter).
Proof.
  unfold assign_pith, assigned_counter.
  destruct (IS_PYTHON_AT_LEAST_3_8 E && negb (String.eqb pith root)).
  - eexists. eexists. cbn. reflexivity.
  - eexists. eexists. reflexivity.
Qed.

(** The visit of a hint that reaches the switch makes the piths and
    enters the switch. *)
Lemma check_hint_switch (E : External) (root : string) (h : hint)
    (pith indent : string) (st : state) :
  reaches_switch E h = true ->
  check_hint E root h pith indent st =
    (piths <- assign_pith E root pith (pith_curr_assign_expr_name_counter st) ;;
     check_sign E
       (Frame h (get_hint_pep_sign h) (get_hint_pep_args h) pith
          (fst (fst piths)) (snd (fst piths)) indent
          (indent ++ CODE_INDENT_1 E)%string)
       (with_counter st (snd piths))).
Proof.
  unfold reaches_switch. intros H.
  apply andb_true_iff in H. destruct H as [H Hsign].
  apply andb_true_iff in H. destruct H as [H Hign].
  apply andb_true_iff in H. destruct H as [Hpep Hsup].
  apply negb_true_iff in Hign.
  unfold check_hint. rewrite Hpep.
  unfold check_pep, die_if_hint_pep_unsupported,
    die_if_hint_pep_sign_unsupported.
  rewrite Hsup, Hign, Hsign. cbn [negb assert bind].
  destruct (assign_pith E root pith (pith_curr_assign_expr_name_counter st))
    as [[[a x] counter]|e]; reflexivity.
Qed.

(** The piths of a visit, as expressions. *)
Lemma assign_pith_unparse (E : External) (root : string) (e : pexpr)
    (counter : Z) :
  exists counter',
    assign_pith E root (unparse_p e) counter =
      Return (unparse_p (fst (assigned_piths E root e counter)),
              unparse_p (snd (assigned_piths E root e counter)),
              counter').
Proof.
  unfold assign_pith, assigned_piths.
  destruct (IS_PYTHON_AT_LEAST_3_8 E && negb (String.eqb (unparse_p e) root)).
  - eexists. cbn. rewrite TextFacts.app_nil_r_string. reflexivity.
  - eexists. reflexivity.
Qed.

(** An assignment expression is never the name of the root pith. *)
Lemma assignment_not_root (name : string) (e : pexpr) :
  String.eqb (unparse_p (PAssign name e)) Snip.PEP_CODE_PITH_ROOT_NAME = false.
Proof.
  apply String.eqb_neq. intros H.
  assert (Hs : Text.has_char " " (unparse_p (PAssign name e)) = true).
  { cbn [unparse_p]. rewrite TextFacts.has_char_app. apply orb_true_iff.
    right. reflexivity. }
  rewrite H in Hs. discriminate.
Qed.

(** From Python 3.8 on, the visit of a hint whose pith is an assignment
    expression assigns that expression to one more variable. *)
Lemma assigned_piths_again (E : External) (name : string) (e : pexpr)
    (counter : Z) :
  IS_PYTHON_AT_LEAST_3_8 E = true ->
  assigned_piths E Snip.PEP_CODE_PITH_ROOT_NAME (PAssign name e) counter =
    (PAssign (Snip.PEP_CODE_PITH_NAME_PREFIX ++ Text.str_of_int (counter + 1))
       (PAssign name e),
     PVar (Snip.PEP_CODE_PITH_NAME_PREFIX ++ Text.str_of_int (counter + 1))).
Proof.
  intros Hpy. unfold assigned_piths.
  now rewrite Hpy, assignment_not_root.
Qed.


(** ** Fatal hints *)

Section Fatal.

Variable E : External.

Lemma check_hint_unrecognized (root : string) (h : hint) (pith indent : string)
    (st : state) :
  unrecognized E h = true ->
  exists e,
    check_hint E root h pith indent st = Raise e /\
    (e = BeartypeDecorHintPepUnsupportedException \/
     e = BeartypeDecorHintPepException).
Proof.
  unfold unrecognized, check_hint. intros H.
  destruct (is_hint_pep h).
  - unfold check_pep, die_if_hint_pep_unsupported,
      die_if_hint_pep_sign_unsupported.
    destruct (is_hint_pep_supported E h); cbn [negb orb bind] in *;
      [|eexists; split; [reflexivity|now left]].
    destruct (is_hint_ignorable E h); cbn [negb andb assert bind] in *;
      [discriminate|].
    destruct (HINT_PEP_SIGNS_SUPPORTED E (get_hint_pep_sign h));
      cbn [negb orb bind] in *;
      [|eexists; split; [reflexivity|now left]].
    destruct (assign_pith_returns E root pith
                (pith_curr_assign_expr_name_counter st))
      as ([[assign assigned] counter] & ->).
    cbn [bind]. unfold check_sign, sign_unhandled in *.
    cbn [hint_curr_sign hint_curr hint_childs] in *.
    repeat match goal with
           | H : (_ && _)%bool = true |- _ =>
               apply andb_true_iff in H; destruct H
           | H : negb ?c = true |- _ => apply negb_true_iff in H; rewrite H
           end.
    eexists. split; [reflexivity|now left].
  - destruct h; try discriminate;
      eexists; (split; [reflexivity|now right]).
Qed.

End Fatal.

(** C4: when the search from the root hint visits a hint whose sign the
    generator does not recognize as supported (the classifier does not
    support the hint or its sign, or no case of the switch on signs takes
    it, or the hint is neither PEP-compliant nor a class),
    [pep_code_check_hint] raises [BeartypeDecorHintPepUnsupportedException]
    or [BeartypeDecorHintPepException], and returns no 3-tuple. *)
Theorem unrecognized_hint_raises (E : External) (hint_root h : hint) :
  visits E hint_root h ->
  unrecognized E h = true ->
  exists e,
    pep_code_check_hint E hint_root = Some (Raise e) /\
    (e = BeartypeDecorHintPepUnsupportedException \/
     e = BeartypeDecorHintPepException) /\
    forall artifact, pep_code_check_hint E hint_root <> Some (Return artifact).
Proof.
  intros (st & m & Hv & Hr) Hu.
  destruct (check_hint_unrecognized E Snip.PEP_CODE_PITH_ROOT_NAME h
              (HINT_META_INDEX_PITH_EXPR m) (HINT_META_INDEX_INDENT m) st Hu)
    as (e & He & Hkind).
  exists e.
  assert (Hp : pep_code_check_hint E hint_root = Some (Raise e)).
  { apply (visits_in_raise E hint_root st m e Hv).
    destruct Hv as (n & _ & _ & Hm).
    apply (visit_unfold E _ st m Hm). now rewrite Hr. }
  split; [exact Hp|]. split; [exact Hkind|].
  intros artifact. rewrite Hp. discriminate.
Qed.

Lemma unrecognized_hint_raises_witness :
  exists e,
    pep_code_check_hint (Demo.env true)
      (Demo.List_ (HintSubscripted (SignAttr "Callable") [Demo.int_])) =
      Some (Raise e) /\
    (e = BeartypeDecorHintPepUnsupportedException \/
     e = BeartypeDecorHintPepException) /\
    forall artifact,
      pep_code_check_hint (Demo.env true)
        (Demo.List_ (HintSubscripted (SignAttr "Callable") [Demo.int_])) <>
      Some (Return artifact).
Proof.
  apply (unrecognized_hint_raises (Demo.env true)
           (Demo.List_ (HintSubscripted (SignAttr "Callable") [Demo.int_]))
           (HintSubscripted (SignAttr "Callable") [Demo.int_])).
  - eexists. eexists. split.
    + exists 1%nat. split; [vm_compute; reflexivity|].
      split; [reflexivity|vm_compute; reflexivity].
    + reflexivity.
  - reflexivity.
Defined.

(** C10: when the search from the root hint visits [typing.NoReturn],
    which the classifier supports and does not ignore,
    [pep_code_check_hint] raises [BeartypeDecorHintPep484Exception]. *)
Theorem visited_noreturn_raises (E : External) (hint_root : hint) :
  visits E hint_root (HintSign NoReturn) ->
  is_hint_pep_supported E (HintSign NoReturn) = true ->
  is_hint_ignorable E (HintSign NoReturn) = false ->
  HINT_PEP_SIGNS_SUPPORTED E NoReturn = true ->
  HINT_PEP484_SIGNS_UNION E NoReturn = false ->
  pep_code_check_hint E hint_root =
    Some (Raise BeartypeDecorHintPep484Exception).
Proof.
  intros (st & m & Hv & Hr) Hsup Hign Hsign Hunion.
  apply (visits_in_raise E hint_root st m _ Hv).
  destruct Hv as (n & _ & _ & Hm).
  apply (visit_unfold E _ st m Hm). rewrite Hr.
  unfold check_hint, check_pep, die_if_hint_pep_unsupported,
    die_if_hint_pep_sign_unsupported.
  cbn [is_hint_pep get_hint_pep_sign].
  rewrite Hsup, Hign, Hsign. cbn [negb assert bind].
  destruct (assign_pith_returns E Snip.PEP_CODE_PITH_ROOT_NAME
              (HINT_META_INDEX_PITH_EXPR m)
              (pith_curr_assign_expr_name_counter st))
    as ([[assign assigned] counter] & ->).
  cbn [bind]. unfold check_sign. cbn [hint_curr_sign hint_curr].
  rewrite Hunion. cbn [hint_is_sign sign_eqb orb].
  reflexivity.
Qed.

Lemma visited_noreturn_raises_witness :
  pep_code_check_hint (Demo.env true)
    (Demo.Tuple_ [Demo.List_ (HintSign NoReturn); HintEllipsis]) =
    Some (Raise BeartypeDecorHintPep484Exception).
Proof.
  apply (visited_noreturn_raises (Demo.env true)).
  - eexists. eexists. split.
    + exists 2%nat. split; [vm_compute; reflexivity|].
      split; [reflexivity|vm_compute; reflexivity].
    + reflexivity.
  - reflexivity.
  - reflexivity.
  - reflexivity.
  - reflexivity.
Defined.

(** C7: when the loop ends with the code still equal to its initial
    value, the root prefix followed by the root placeholder,
    [pep_code_check_hint] raises [BeartypeDecorHintPepException] and
    returns no code. *)
Theorem unexpanded_root_raises (E : External) (hint_root : hint) (st' : state) :
  search E Snip.PEP_CODE_PITH_ROOT_NAME (hint_size hint_root)
    (snd (state_root E hint_root)) = Some (Return st') ->
  func_wrapper_code st' = fst (state_root E hint_root) ->
  fst (state_root E hint_root) =
    (PEP_CODE_CHECK_HINT_ROOT_PREFIX E ++ placeholder_of 0)%string /\
  finish E (fst (state_root E hint_root)) st' =
    Raise BeartypeDecorHintPepException /\
  pep_code_check_hint E hint_root =
    Some (Raise BeartypeDecorHintPepException).
Proof.
  intros Hs Hc.
  assert (Hf : finish E (fst (state_root E hint_root)) st' =
               Raise BeartypeDecorHintPepException).
  { unfold finish. now rewrite Hc, String.eqb_refl. }
  split; [apply state_root_wf|]. split; [exact Hf|].
  unfold pep_code_check_hint.
  destruct (state_root E hint_root) as [root st0]. cbn [fst snd] in *.
  now rewrite Hs, Hf.
Qed.

Lemma unexpanded_root_raises_witness :
  pep_code_check_hint (Demo.env_with true "@[0)!xyz" "")
    (HintSubscripted HINT_PEP586_SIGN_LITERAL []) =
    Some (Raise BeartypeDecorHintPepException).
Proof.
  eapply (unexpanded_root_raises (Demo.env_with true "@[0)!xyz" "")
            (HintSubscripted HINT_PEP586_SIGN_LITERAL [])).
  - vm_compute. reflexivity.
  - vm_compute. reflexivity.
Defined.

(** ** Annotated metahints *)

Lemma scan_raise_kind (kw : Format.kwargs) (s : string) :
  forall m e,
    Format.scan kw m s = Raise e ->
    e = ValueError \/ e = IndexError \/ exists k, e = KeyError k.
Proof.
  induction s as [|c s IH]; intros m e H; simpl in H.
  - destruct m; try discriminate; injection H as <-; auto.
  - destruct m.
    + destruct (Ascii.eqb c "{"); [eauto|].
      destruct (Ascii.eqb c "}"); [eauto|].
      destruct (Format.scan kw Format.Literal s) eqn:Hs; [discriminate|].
      injection H as <-. eauto.
    + destruct (Ascii.eqb c "{").
      * destruct (Format.scan kw Format.Literal s) eqn:Hs; [discriminate|].
        injection H as <-. eauto.
      * destruct (Ascii.eqb c "}"); [injection H as <-; auto|eauto].
    + destruct (Ascii.eqb c "}").
      * destruct (Format.scan kw Format.Literal s) eqn:Hs; [discriminate|].
        injection H as <-. eauto.
      * injection H as <-. auto.
    + destruct (Ascii.eqb c "}").
      * destruct (Format.lookup kw name).
        -- destruct (Format.scan kw Format.Literal s) eqn:Hs; [discriminate|].
           injection H as <-. eauto.
        -- injection H as <-. eauto.
      * destruct (Ascii.eqb c "{"); [injection H as <-; auto|eauto].
Qed.

Lemma format_not_Pep593 (t : string) (kw : Format.kwargs) :
  Format.format t kw <> Raise BeartypeDecorHintPep593Exception.
Proof.
  intros H. apply scan_raise_kind in H.
  destruct H as [H|[H|[k H]]]; discriminate.
Qed.

Section Annotated.

Variable E : External.
Hypothesis Hfmt : annotated_snippets_format E.

(** The loop over the metadata raises at the first object that is not a
    validator, and ends otherwise. *)
Lemma annotated_loop (f : frame) (l : list hint) :
  Forall validator_formats l ->
  forall acc,
    if existsb (fun h => negb (is_SubscriptedIs h)) l
    then for_each (annotated_child E f) l acc =
           Raise BeartypeDecorHintPep593Exception
    else exists acc', for_each (annotated_child E f) l acc = Return acc'.
Proof.
  destruct Hfmt as (_ & Hchild & Hupd).
  induction 1 as [|h l Hh Hl IH]; intros acc; simpl; [eauto|].
  destruct h; try (destruct acc; reflexivity).
  cbn [is_SubscriptedIs negb orb]. destruct acc as [c st].
  cbn [annotated_child]. cbn [validator_formats] in Hh.
  destruct (Hh (indent_child f) (pith_curr_assigned_expr f)) as (r1 & ->).
  cbn [bind].
  destruct (Hchild (indent_curr f) r1) as (r2 & ->). cbn [bind].
  destruct (Hupd (func_wrapper_locals st) is_valid_code_locals) as (r3 & ->).
  cbn [bind]. apply IH.
Qed.

Lemma check_annotated_Pep593 (f : frame) (st : state) (m m0 : hint)
    (md : list hint) :
  hint_curr f = HintAnnotated m m0 md ->
  Forall validator_formats (m0 :: md) ->
  check_annotated E f st = Raise BeartypeDecorHintPep593Exception <->
  existsb (fun h => negb (is_SubscriptedIs h)) (m0 :: md) = true.
Proof.
  intros Hh Hv. unfold check_annotated. rewrite Hh.
  cbn [is_hint_pep593 bind get_hint_pep593_metahint get_hint_pep593_metadata].
  destruct (_enqueue_hint_child st m (indent_child f) (pith_curr_assign_expr f))
    as [ph st1].
  destruct Hfmt as (Hprefix & _ & _).
  destruct (Hprefix (indent_curr f) ph) as (r & ->). cbn [bind].
  pose proof (annotated_loop f (m0 :: md) Hv (r, st1)) as Hloop.
  destruct (existsb (fun h => negb (is_SubscriptedIs h)) (m0 :: md)).
  - rewrite Hloop. cbn [bind]. tauto.
  - destruct Hloop as ([c st2] & ->). cbn [bind].
    split; [|discriminate]. intros H. exfalso.
    destruct (Format.format (PEP593_CODE_CHECK_HINT_SUBSCRIPTEDIS_SUFFIX E)
                [("indent_curr", indent_curr f)]) eqn:Hs;
      cbn [bind] in H; [discriminate|].
    injection H as ->. now apply format_not_Pep593 in Hs.
Qed.

End Annotated.

Lemma visit_raise_iff (E : External) (root : string) (st : state)
    (m : hint_meta) (e : exn) :
  fixed_list_get (hints_meta st) (Z.to_nat (hints_meta_index_curr st)) = Some m ->
  visit E root st = Raise e <->
  check_hint E root (reduce_hint E (HINT_META_INDEX_HINT m))
    (HINT_META_INDEX_PITH_EXPR m) (HINT_META_INDEX_INDENT m) st = Raise e.
Proof.
  intros Hm. unfold visit. rewrite Hm.
  destruct (check_hint E root (reduce_hint E (HINT_META_INDEX_HINT m))
              (HINT_META_INDEX_PITH_EXPR m) (HINT_META_INDEX_INDENT m) st)
    as [[code st1]|e']; cbn [bind]; split; intros H;
    try discriminate; now injection H as ->.
Qed.

(** C8: visiting an Annotated metahint whose second argument is a
    beartype validator raises [BeartypeDecorHintPep593Exception] exactly
    when one of the remaining metadata arguments is not a validator (the
    classifier supporting the metahint and the snippets being well
    formed), and that exception ends [pep_code_check_hint]; a metahint
    whose second argument is not a validator is reduced to its
    underlying hint before the switch on signs. *)
Theorem annotated_validator_mix_raises (E : External) (st : state)
    (m : hint_meta) (metahint : hint) (code0 : string) (locals0 : CallableScope)
    (metadata : list hint) :
  fixed_list_get (hints_meta st) (Z.to_nat (hints_meta_index_curr st)) = Some m ->
  HINT_META_INDEX_HINT m =
    HintAnnotated metahint (HintSubscriptedIs code0 locals0) metadata ->
  is_hint_pep_supported E (HINT_META_INDEX_HINT m) = true ->
  is_hint_ignorable E (HINT_META_INDEX_HINT m) = false ->
  HINT_PEP_SIGNS_SUPPORTED E HINT_PEP593_SIGN_ANNOTATED = true ->
  annotated_dispatch E = true ->
  annotated_snippets_format E ->
  Forall validator_formats (HintSubscriptedIs code0 locals0 :: metadata) ->
  (visit E Snip.PEP_CODE_PITH_ROOT_NAME st =
     Raise BeartypeDecorHintPep593Exception <->
   existsb (fun h => negb (is_SubscriptedIs h)) metadata = true) /\
  (forall hint_root,
      visits_in E hint_root st m ->
      existsb (fun h => negb (is_SubscriptedIs h)) metadata = true ->
      pep_code_check_hint E hint_root =
        Some (Raise BeartypeDecorHintPep593Exception)) /\
  (forall metadata0,
      is_SubscriptedIs metadata0 = false ->
      reduce_hint E (HintAnnotated metahint metadata0 metadata) = metahint).
Proof.
  intros Hm Hh Hsup Hign Hsign Hdisp Hfmt Hval.
  assert (Hiff : visit E Snip.PEP_CODE_PITH_ROOT_NAME st =
                   Raise BeartypeDecorHintPep593Exception <->
                 existsb (fun h => negb (is_SubscriptedIs h)) metadata = true).
  { rewrite (visit_raise_iff E _ st m _ Hm). rewrite Hh in *.
    cbn [reduce_hint is_hint_pep593 is_hint_pep593_beartype is_SubscriptedIs
         negb].
    unfold check_hint, check_pep, die_if_hint_pep_unsupported,
      die_if_hint_pep_sign_unsupported.
    cbn [is_hint_pep get_hint_pep_sign].
    rewrite Hsup, Hign, Hsign. cbn [negb assert bind].
    destruct (assign_pith_returns E Snip.PEP_CODE_PITH_ROOT_NAME
                (HINT_META_INDEX_PITH_EXPR m)
                (pith_curr_assign_expr_name_counter st))
      as ([[assign assigned] counter] & ->).
    cbn [bind]. unfold check_sign. cbn [hint_curr_sign hint_curr hint_childs].
    unfold annotated_dispatch in Hdisp.
    repeat match goal with
           | H : (_ && _)%bool = true |- _ =>
               apply andb_true_iff in H; destruct H
           | H : negb ?c = true |- _ => apply negb_true_iff in H; rewrite H
           end.
    cbn [hint_is_sign orb andb sign_eqb].
    match goal with
    | |- check_annotated E ?f ?s = _ <-> _ =>
        rewrite (check_annotated_Pep593 E Hfmt f s metahint
                   (HintSubscriptedIs code0 locals0) metadata
                   eq_refl Hval)
    end.
    reflexivity. }
  split; [exact Hiff|]. split.
  - intros hint_root Hv Hex.
    apply (visits_in_raise E hint_root st m _ Hv). now apply Hiff.
  - intros metadata0 H0.
    cbn [reduce_hint is_hint_pep593 is_hint_pep593_beartype
         get_hint_pep593_metahint].
    now rewrite H0.
Qed.

Lemma annotated_validator_mix_raises_witness :
  pep_code_check_hint (Demo.env true)
    (HintAnnotated Demo.int_ (HintSubscriptedIs "{obj} > 0" [])
       [HintObject "50"]) =
    Some (Raise BeartypeDecorHintPep593Exception).
Proof.
  refine (proj1 (proj2
    (annotated_validator_mix_raises (Demo.env true)
       (snd (state_root (Demo.env true)
               (HintAnnotated Demo.int_ (HintSubscriptedIs "{obj} > 0" [])
                  [HintObject "50"])))
       (HintMeta
          (HintAnnotated Demo.int_ (HintSubscriptedIs "{obj} > 0" [])
             [HintObject "50"])
          (placeholder_of 0) Snip.PEP_CODE_PITH_ROOT_NAME "        ")
       Demo.int_ "{obj} > 0" [] [HintObject "50"]
       _ _ _ _ _ _ _ _)) _ _ _).
  - vm_compute. reflexivity.
  - reflexivity.
  - reflexivity.
  - reflexivity.
  - reflexivity.
  - reflexivity.
  - repeat split; intros; eexists; reflexivity.
  - repeat constructor; intros i o; eexists; reflexivity.
  - exists 0%nat. split; [reflexivity|]. split; vm_compute; reflexivity.
  - reflexivity.
Defined.

(** ** Forward references *)

Section ForwardRefs.

Variable E : External.
Hypothesis Hdisp : forwardref_dispatch E = true.

Let kept (st st' : state) : Prop :=
  hints_forwardref_class_basename st' = hints_forwardref_class_basename st.

Lemma check_sign_names_kept (f : frame) (st st1 : state) (code : string) :
  unqualified_forwardref (hint_curr f) = None ->
  (forall n, hint_curr f = HintForwardRef n -> Text.has_char "." n = true) ->
  check_sign E f st = Return (code, st1) ->
  names_of st1 = names_of st.
Proof.
  intros _ Hq H. unfold names_of.
  enough (kept st st1) as -> by reflexivity.
  unfold check_sign in H.
  assert (Hrefl : forall s, kept s s) by reflexivity.
  assert (Htrans : forall a b c, kept a b -> kept b c -> kept a c)
    by (unfold kept; intros; congruence).
  assert (Henq : forall s h i p, kept s (snd (_enqueue_hint_child s h i p)))
    by reflexivity.
  assert (Hloc : forall s sc, kept s (with_locals s sc)) by reflexivity.
  assert (Hcnt : forall s c, kept s (with_counter s c)) by reflexivity.
  assert (Hrnd : forall s, kept s (with_random_int s)) by reflexivity.
  repeat match type of H with
         | (if ?c then _ else _) = _ => destruct c
         end.
  - eapply (check_union_frame E kept); eauto.
  - eapply (check_shallow_frame E kept); eauto.
  - eapply (check_sequence_frame E kept); eauto.
  - eapply (check_tuple_fixed_frame E kept); eauto.
  - eapply (check_annotated_frame E kept); eauto.
  - unfold check_forwardref in H. inv_bind H.
    destruct (hint_curr f); try discriminate.
    injection Ha as <-. rewrite (Hq _ eq_refl) in H.
    inv_bind H. now injection H as <- <-.
  - eapply (check_generic_frame E kept); eauto.
  - eapply (check_literal_frame E kept); eauto.
  - discriminate.
Qed.

Lemma check_sign_forwardref (f : frame) (st : state) (n : string) :
  hint_curr f = HintForwardRef n ->
  hint_curr_sign f = HINT_PEP484_TYPE_FORWARDREF ->
  check_sign E f st = check_forwardref E f st.
Proof.
  intros Hh Hs. unfold check_sign. rewrite Hs, Hh.
  unfold forwardref_dispatch in Hdisp.
  repeat match goal with
         | H : (_ && _)%bool = true |- _ =>
             apply andb_true_iff in H; destruct H
         | H : negb ?c = true |- _ => apply negb_true_iff in H; rewrite H
         end.
  reflexivity.
Qed.

(** The classnames collected by the check of one hint. *)
Lemma check_hint_names (root : string) (h : hint) (pith indent : string)
    (st st1 : state) (code : string) :
  check_hint E root h pith indent st = Return (code, st1) ->
  names_of st1 =
    match unqualified_forwardref h with
    | Some n => set_add String.eqb n (names_of st)
    | None => names_of st
    end.
Proof.
  unfold check_hint. intros H. destruct (is_hint_pep h) eqn:Hpep.
  - unfold check_pep in H. inv_bind H. inv_bind H. inv_bind H. inv_bind H.
    destruct a2 as [[assign assigned] counter].
    destruct (unqualified_forwardref h) as [n|] eqn:Hu.
    + destruct h; try discriminate. cbn [unqualified_forwardref] in Hu.
      destruct (Text.has_char "." classname) eqn:Hdot; [discriminate|].
      injection Hu as ->.
      match type of H with
      | check_sign E ?f ?s = _ =>
          rewrite (check_sign_forwardref f s n eq_refl eq_refl) in H
      end.
      unfold check_forwardref in H.
      cbn [hint_curr get_hint_forwardref_classname bind] in H.
      rewrite Hdot in H. inv_bind H. now injection H as <- <-.
    + apply check_sign_names_kept in H; [exact H|exact Hu|].
      cbn [hint_curr]. intros n ->. cbn [unqualified_forwardref] in Hu.
      now destruct (Text.has_char "." n).
  - destruct h; try discriminate.
    destruct (add_func_scope_type E c (func_wrapper_locals st)) as [expr scope].
    inv_bind H. now injection H as <- <-.
Qed.

End ForwardRefs.

(** *** The iterations of the loop, one by one *)

Section Steps.

Variable E : External.
Variable root : string.

Lemma steps_add (a : nat) :
  forall st0 s b,
    steps E root a st0 = Some s ->
    steps E root (a + b) st0 = steps E root b s.
Proof.
  induction a as [|a IH]; intros st0 s b H; simpl in H.
  - now injection H as <-.
  - simpl.
    destruct (hints_meta_index_curr st0 <=? hints_meta_index_last st0);
      [|discriminate].
    destruct (visit E root st0) as [st1|e]; [|discriminate].
    now apply IH.
Qed.

Lemma steps_snoc (k : nat) (st0 st : state) :
  steps E root (S k) st0 = Some st <->
  exists st',
    steps E root k st0 = Some st' /\
    (hints_meta_index_curr st' <=? hints_meta_index_last st') = true /\
    visit E root st' = Return st.
Proof.
  split.
  - revert st0. induction k as [|k IH]; intros st0 H.
    + exists st0. simpl in H. split; [reflexivity|].
      destruct (hints_meta_index_curr st0 <=? hints_meta_index_last st0);
        [|discriminate].
      destruct (visit E root st0) as [st1|e]; [|discriminate].
      now injection H as <-.
    + change (steps E root (S (S k)) st0)
        with (if hints_meta_index_curr st0 <=? hints_meta_index_last st0
              then match visit E root st0 with
                   | Return st' => steps E root (S k) st'
                   | Raise _ => None
                   end
              else None) in H.
      destruct (hints_meta_index_curr st0 <=? hints_meta_index_last st0) eqn:Hp;
        [|discriminate].
      destruct (visit E root st0) as [st1|e] eqn:Hv; [|discriminate].
      destruct (IH st1 H) as (st' & Hs & Hp' & Hv').
      exists st'. split; [|now split].
      simpl. now rewrite Hp, Hv.
  - intros (st' & Hs & Hp & Hv).
    replace (S k) with (k + 1)%nat by lia.
    rewrite (steps_add k st0 st' 1 Hs). simpl. now rewrite Hp, Hv.
Qed.

(** A loop that ends has made some number of iterations and left no
    hint to visit. *)
Lemma search_steps (fuel : nat) :
  forall st0 st,
    search E root fuel st0 = Some (Return st) ->
    exists k,
      steps E root k st0 = Some st /\
      (hints_meta_index_curr st <=? hints_meta_index_last st) = false.
Proof.
  induction fuel as [|fuel IH]; intros st0 st H; simpl in H;
    destruct (hints_meta_index_curr st0 <=? hints_meta_index_last st0) eqn:Hp;
    try discriminate.
  - injection H as <-. exists 0%nat. now split.
  - destruct (visit E root st0) as [st1|e] eqn:Hv; [|discriminate].
    destruct (IH st1 st H) as (k & Hk & Hend).
    exists (S k). split; [|exact Hend]. simpl. now rewrite Hp, Hv.
  - injection H as <-. exists 0%nat. now split.
Qed.

(** With the loop ended after [k] iterations, every visit is one of
    these iterations. *)
Lemma steps_before_end (k n : nat) (st0 st_end st : state) :
  steps E root k st0 = Some st_end ->
  (hints_meta_index_curr st_end <=? hints_meta_index_last st_end) = false ->
  steps E root n st0 = Some st ->
  (hints_meta_index_curr st <=? hints_meta_index_last st) = true ->
  (n < k)%nat.
Proof.
  intros Hk Hend Hn Hp.
  destruct (Nat.lt_ge_cases n k) as [Hlt|Hge]; [exact Hlt|exfalso].
  replace n with (k + (n - k))%nat in Hn by lia.
  rewrite (steps_add k st0 st_end (n - k) Hk) in Hn.
  destruct (n - k)%nat as [|d]; simpl in Hn.
  - injection Hn as <-. congruence.
  - now rewrite Hend in Hn.
Qed.

End Steps.

Lemma set_add_In (n x : string) (l : list string) :
  In x (set_add String.eqb n l) <-> x = n \/ In x l.
Proof.
  unfold set_add. destruct (existsb (String.eqb n) l) eqn:Hex.
  - apply existsb_exists in Hex. destruct Hex as (y & Hy & Heq).
    apply String.eqb_eq in Heq. subst y.
    split; [auto|]. intros [->|H]; assumption.
  - rewrite in_app_iff. simpl. intuition (subst; auto).
Qed.

Lemma set_add_NoDup (n : string) (l : list string) :
  NoDup l -> NoDup (set_add String.eqb n l).
Proof.
  intros Hl. unfold set_add. destruct (existsb (String.eqb n) l) eqn:Hex;
    [exact Hl|].
  apply NoDup_app; [exact Hl|repeat constructor; auto|].
  intros y Hy [Heq|[]]. subst y.
  assert (existsb (String.eqb n) l = true); [|congruence].
  apply existsb_exists. exists n. split; [exact Hy|apply String.eqb_refl].
Qed.

Section Names.

Variable E : External.
Hypothesis Hdisp : forwardref_dispatch E = true.

Let root : string := Snip.PEP_CODE_PITH_ROOT_NAME.

(** The classnames collected after [k] iterations are those of the
    unqualified forward references visited by these iterations. *)
Lemma names_steps (st0 : state) (pend0 : list hint_meta) :
  queue_wf st0 pend0 -> names_of st0 = [] ->
  forall k st,
    steps E root k st0 = Some st ->
    NoDup (names_of st) /\
    forall x,
      In x (names_of st) <->
      exists j stj m,
        (j < k)%nat /\ steps E root j st0 = Some stj /\
        (hints_meta_index_curr stj <=? hints_meta_index_last stj) = true /\
        fixed_list_get (hints_meta stj)
          (Z.to_nat (hints_meta_index_curr stj)) = Some m /\
        unqualified_forwardref (reduce_hint E (HINT_META_INDEX_HINT m)) = Some x.
Proof.
  intros Hw0 Hn0. induction k as [|k IH]; intros st Hk.
  - simpl in Hk. injection Hk as <-. rewrite Hn0. split; [constructor|].
    intros x. split; [intros []|]. intros (j & _ & _ & Hj & _). lia.
  - apply steps_snoc in Hk. destruct Hk as (st' & Hs & Hp & Hv).
    destruct (IH st' Hs) as (Hnd & Hin).
    destruct (steps_wf E root k st0 st' pend0 Hs Hw0) as (pend & Hw).
    pose proof Hp as Hp'. rewrite (queue_wf_pending _ _ Hw) in Hp'.
    destruct pend as [|m pend]; [discriminate|].
    destruct (visit_queue E root st' st m pend Hw Hv)
      as (new & code & st1 & Hchk & _ & _ & _ & _ & _ & _ & _ & Hnames).
    apply (check_hint_names E Hdisp) in Hchk.
    assert (Hm : fixed_list_get (hints_meta st')
                   (Z.to_nat (hints_meta_index_curr st')) = Some m).
    { destruct Hw as (_ & Hmeta & _). rewrite Hmeta. cbn [map].
      apply fixed_list_get_pending. }
    assert (Hst : names_of st = names_of st1)
      by (unfold names_of; now rewrite Hnames).
    rewrite Hst, Hchk.
    assert (Hold : forall x,
               In x (names_of st') ->
               exists j stj m0,
                 (j < S k)%nat /\ steps E root j st0 = Some stj /\
                 (hints_meta_index_curr stj <=? hints_meta_index_last stj) = true /\
                 fixed_list_get (hints_meta stj)
                   (Z.to_nat (hints_meta_index_curr stj)) = Some m0 /\
                 unqualified_forwardref
                   (reduce_hint E (HINT_META_INDEX_HINT m0)) = Some x).
    { intros x Hx. apply Hin in Hx.
      destruct Hx as (j & stj & m0 & Hj & Hrest).
      exists j, stj, m0. split; [lia|exact Hrest]. }
    assert (Hnew : forall x j stj m0,
               (j < S k)%nat -> steps E root j st0 = Some stj ->
               fixed_list_get (hints_meta stj)
                 (Z.to_nat (hints_meta_index_curr stj)) = Some m0 ->
               (hints_meta_index_curr stj <=? hints_meta_index_last stj) = true ->
               unqualified_forwardref
                 (reduce_hint E (HINT_META_INDEX_HINT m0)) = Some x ->
               In x (names_of st') \/
               unqualified_forwardref
                 (reduce_hint E (HINT_META_INDEX_HINT m)) = Some x).
    { intros x j stj m0 Hj Hsj Hm0 Hpj Hu.
      destruct (Nat.eq_dec j k) as [->|Hne].
      - right. rewrite Hs in Hsj. injection Hsj as <-.
        rewrite Hm in Hm0. now injection Hm0 as <-.
      - left. apply Hin. exists j, stj, m0. repeat split; auto. lia. }
    destruct (unqualified_forwardref (reduce_hint E (HINT_META_INDEX_HINT m)))
      as [n|] eqn:Hu.
    + split; [now apply set_add_NoDup|]. intros x.
      rewrite set_add_In. split.
      * intros [->|Hx]; [|now apply Hold].
        exists k, st', m. repeat split; auto.
      * intros (j & stj & m0 & Hj & Hsj & Hpj & Hm0 & Hux).
        destruct (Hnew x j stj m0 Hj Hsj Hm0 Hpj Hux) as [Hx|Hx]; [now right|].
        left. congruence.
    + split; [exact Hnd|]. intros x. split; [now apply Hold|].
      intros (j & stj & m0 & Hj & Hsj & Hpj & Hm0 & Hux).
      destruct (Hnew x j stj m0 Hj Hsj Hm0 Hpj Hux) as [Hx|Hx];
        [exact Hx|discriminate].
Qed.

End Names.

Lemma scope_get_set_same (scope : CallableScope) (name : string)
    (v : scope_value) :
  scope_get (scope_set scope name v) name = Some v.
Proof.
  induction scope as [|[k w] scope IH]; simpl.
  - now rewrite String.eqb_refl.
  - destruct (String.eqb k name) eqn:Hk; simpl; rewrite Hk; auto.
Qed.

Lemma unqualified_forwardref_Some (h : hint) (n : string) :
  unqualified_forwardref h = Some n <->
  h = HintForwardRef n /\ Text.has_char "." n = false.
Proof.
  destruct h; simpl; try (split; [discriminate|intros [? _]; discriminate]).
  destruct (Text.has_char "." classname) eqn:Hd; split.
  - discriminate.
  - intros [H1 H2]. injection H1 as ->. congruence.
  - intros H. injection H as ->. now split.
  - intros [H1 _]. now injection H1 as ->.
Qed.

(** The code and the scope of a visited forward reference. *)
Lemma check_hint_forwardref (E : External) (root : string) (n : string)
    (pith indent : string) (st st1 : state) (snippet : string) :
  forwardref_dispatch E = true ->
  check_hint E root (HintForwardRef n) pith indent st = Return (snippet, st1) ->
  Format.format Snip.PEP_CODE_CHECK_HINT_NONPEP_TYPE
    [("pith_curr_expr", pith);
     ("hint_curr_expr",
      if Text.has_char "." n then register_typistry_forwardref E n
      else (Snip.PEP_CODE_HINT_FORWARDREF_UNQUALIFIED_PLACEHOLDER_PREFIX ++ n ++
            Snip.PEP_CODE_HINT_FORWARDREF_UNQUALIFIED_PLACEHOLDER_SUFFIX)%string)] =
    Return snippet /\
  (Text.has_char "." n = true ->
   scope_get (func_wrapper_locals st1) (ARG_NAME_TYPISTRY E) = Some ScopeTypistry /\
   names_of st1 = names_of st).
Proof.
  intros Hdisp H. unfold check_hint in H. cbn [is_hint_pep] in H.
  unfold check_pep in H. inv_bind H. inv_bind H. inv_bind H. inv_bind H.
  destruct a2 as [[assign assigned] counter].
  match type of H with
  | check_sign E ?f ?s = _ =>
      rewrite (check_sign_forwardref E Hdisp f s n eq_refl eq_refl) in H
  end.
  unfold check_forwardref in H.
  cbn [hint_curr get_hint_forwardref_classname bind pith_curr_expr] in H.
  destruct (Text.has_char "." n); inv_bind H; injection H as <- <-.
  - split; [exact Ha3|]. intros _. split; [|reflexivity].
    cbn [with_locals func_wrapper_locals]. apply scope_get_set_same.
  - split; [exact Ha3|]. discriminate.
Qed.

(** When [pep_code_check_hint] returns, the loop made some number of
    iterations from the root state and ended in the state that [finish]
    turns into the returned 3-tuple. *)
Lemma pep_code_check_hint_returns (E : External) (hint_root : hint)
    (artifact : string * CallableScope * list string) :
  pep_code_check_hint E hint_root = Some (Return artifact) ->
  exists k st_end,
    steps E Snip.PEP_CODE_PITH_ROOT_NAME k (snd (state_root E hint_root)) =
      Some st_end /\
    (hints_meta_index_curr st_end <=? hints_meta_index_last st_end) = false /\
    finish E (fst (state_root E hint_root)) st_end = Return artifact.
Proof.
  unfold pep_code_check_hint. intros H.
  destruct (state_root E hint_root) as [root st0]. cbn [fst snd].
  destruct (search E Snip.PEP_CODE_PITH_ROOT_NAME (hint_size hint_root) st0)
    as [[st_end|e]|] eqn:Hs; try discriminate.
  injection H as H. apply search_steps in Hs. destruct Hs as (k & Hk & Hend).
  eauto.
Qed.

Lemma finish_names (E : External) (root : string) (st : state)
    (code : string) (scope : CallableScope) (names : list string) :
  finish E root st = Return (code, scope, names) -> names = names_of st.
Proof.
  unfold finish. intros H.
  destruct (String.eqb (func_wrapper_code st) root); [discriminate|].
  destruct (is_var_random_int_needed st); inv_bind H;
    now injection H as <- <- <-.
Qed.



(** ** Fixed-length tuples *)

Lemma string_app_assoc (a b c : string) : ((a ++ b) ++ c = a ++ (b ++ c))%string.
Proof. induction a as [|x a IH]; simpl; [reflexivity|now rewrite IH]. Qed.

Lemma string_length_app (a b : string) :
  String.length (a ++ b) = (String.length a + String.length b)%nat.
Proof. induction a as [|x a IH]; simpl; [reflexivity|now rewrite IH]. Qed.

Lemma substring_0_app (p s : string) (n : nat) :
  substring 0 (String.length p + n) (p ++ s) = (p ++ substring 0 n s)%string.
Proof. induction p as [|c p IH]; simpl; [reflexivity|now rewrite IH]. Qed.

(** Stripping a suffix that the text after [p] is long enough to hold
    leaves [p] whole. *)
Lemma slice_to_app (k : nat) (p s : string) :
  (0 < k <= String.length s)%nat ->
  Text.slice_to (- Z.of_nat k) (p ++ s) = (p ++ Text.slice_to (- Z.of_nat k) s)%string.
Proof.
  intros Hk. unfold Text.slice_to. rewrite string_length_app.
  destruct (Z.ltb_spec (- Z.of_nat k) 0) as [Hneg|Hpos].
  - replace (Z.to_nat (Z.max 0 (Z.of_nat (String.length p + String.length s)
                                + - Z.of_nat k)))
      with (String.length p +
            Z.to_nat (Z.max 0 (Z.of_nat (String.length s) + - Z.of_nat k)))%nat
      by lia.
    apply substring_0_app.
  - lia.
Qed.

(** Formatting a template that formats on its own, followed by more
    text: the more text is formatted from the start. *)
Lemma scan_app (kw : Format.kwargs) (t rest : string) :
  forall (m : Format.mode) (r : string),
    Format.scan kw m t = Return r ->
    Format.scan kw m (t ++ rest) =
      (q <- Format.scan kw Format.Literal rest ;; Return (r ++ q)%string).
Proof.
  induction t as [|c t IH]; intros m r H.
  - destruct m; try discriminate. injection H as <-. cbn [String.append].
    destruct (Format.scan kw Format.Literal rest); reflexivity.
  - cbn [String.append]. destruct m; cbn [Format.scan] in *.
    + destruct (Ascii.eqb c "{"); [now apply IH|].
      destruct (Ascii.eqb c "}"); [now apply IH|].
      inv_bind H. injection H as <-. rewrite (IH _ _ Ha).
      destruct (Format.scan kw Format.Literal rest); reflexivity.
    + destruct (Ascii.eqb c "{").
      * inv_bind H. injection H as <-. rewrite (IH _ _ Ha).
        destruct (Format.scan kw Format.Literal rest); reflexivity.
      * destruct (Ascii.eqb c "}"); [discriminate|now apply IH].
    + destruct (Ascii.eqb c "}"); [|discriminate].
      inv_bind H. injection H as <-. rewrite (IH _ _ Ha).
      destruct (Format.scan kw Format.Literal rest); reflexivity.
    + destruct (Ascii.eqb c "}").
      * destruct (Format.lookup kw name) as [v|]; [|discriminate].
        inv_bind H. injection H as <-. rewrite (IH _ _ Ha).
        destruct (Format.scan kw Format.Literal rest); cbn [bind];
          [now rewrite string_app_assoc|reflexivity].
      * destruct (Ascii.eqb c "{"); [discriminate|now apply IH].
Qed.

(** The loop over the child hints of a fixed-length tuple enqueues those
    of [tuple_items], in their order, and appends one line for each. *)
Lemma tuple_fixed_loop (E : External) (f : frame) (x : pexpr) :
  pith_curr_assigned_expr f = unparse_p x ->
  forall (hs : list hint) (k : Z) (code code' : string) (st st' : state),
    for_each (tuple_fixed_child E f) (enumerate_from k hs) (code, st) =
      Return (code', st') ->
    grows st st'
      (tuple_items E (hint_child_placeholder_id st + 1) x (indent_child f)
         k hs) /\
    hint_child_placeholder_id st' =
      hint_child_placeholder_id st +
      len (tuple_items E (hint_child_placeholder_id st + 1) x
             (indent_child f) k hs) /\
    code' =
      (code ++
       tuple_lines_deferred
         (map CItem
            (tuple_placeholders E (hint_child_placeholder_id st + 1) hs)))%string.
Proof.
  intros Hx. induction hs as [|h hs IH]; intros k code code' st st' H.
  - cbn in H. injection H as <- <-. split; [apply grows_refl|].
    split; [unfold len; cbn; lia|].
    cbn. now rewrite TextFacts.app_nil_r_string.
  - cbn [enumerate_from for_each] in H.
    apply bind_Return_inv in H. destruct H as ([code1 st1] & Hb & H).
    apply IH in H. destruct H as (Hg & Hid & Hcode).
    unfold tuple_fixed_child in Hb. cbn [tuple_items tuple_placeholders].
    destruct (is_hint_ignorable E h).
    { injection Hb as <- <-. now split. }
    rewrite Hx in Hb. cbn [Format.format] in Hb.
    match type of Hb with
    | bind ?fmt _ = _ =>
        assert (Hfmt : fmt = Return (unparse_p (PItem x k)))
          by (cbn; rewrite ?TextFacts.app_nil_r_string; reflexivity)
    end.
    rewrite Hfmt in Hb. cbn [bind] in Hb.
    match type of Hb with
    | context [_enqueue_hint_child ?s ?hc ?i ?p] =>
        pose proof (grows_enqueue s hc i p) as Hq;
        assert (Hid1 : hint_child_placeholder_id
                         (snd (_enqueue_hint_child s hc i p)) =
                       hint_child_placeholder_id s + 1) by reflexivity;
        assert (Hph : fst (_enqueue_hint_child s hc i p) =
                      placeholder_of (hint_child_placeholder_id s + 1))
          by reflexivity;
        rewrite Hph in Hq;
        destruct (_enqueue_hint_child s hc i p) as [ph st2]
    end.
    cbn [fst snd] in Hq, Hid1, Hph. subst ph.
    apply bind_Return_inv in Hb. destruct Hb as (r & Hr & Hb).
    injection Hb as <- <-. rewrite Hid1 in Hg, Hid, Hcode. split.
    + exact (grows_trans _ _ _ [_] _ Hq Hg).
    + split; [rewrite Hid; unfold len; cbn [length]; lia|].
      rewrite Hcode. cbn [map tuple_lines_deferred].
      cbn in Hr. injection Hr as <-.
      unfold tuple_line. cbn [comment_c unparse_c].
      repeat (rewrite ?string_app_assoc; cbn). reflexivity.
Qed.

(** One conjunct or more: the lines end with [ and]. *)
Lemma tuple_lines_deferred_length (c : conjunct) (cs : list conjunct) :
  (4 <= String.length (tuple_lines_deferred (c :: cs)))%nat.
Proof.
  cbn [tuple_lines_deferred]. unfold tuple_line.
  rewrite !string_length_app. destruct c; cbn; lia.
Qed.

(** What the visit of a fixed-length tuple does: it enqueues the child
    hints that are not ignorable, and formats the prefix and the lines
    of the conjuncts, less the last [ and], and the suffix with the
    indentation and the expression that assigns the pith. *)
Lemma check_hint_tuple_fixed (E : External) (h : hint) (e : pexpr)
    (indent : string) (st st1 : state) (code : string) :
  tuple_fixed_case E h = true ->
  check_hint E Snip.PEP_CODE_PITH_ROOT_NAME h (unparse_p e) indent st =
    Return (code, st1) ->
  let a := fst (assigned_piths E Snip.PEP_CODE_PITH_ROOT_NAME e
                  (pith_curr_assign_expr_name_counter st)) in
  let x := snd (assigned_piths E Snip.PEP_CODE_PITH_ROOT_NAME e
                  (pith_curr_assign_expr_name_counter st)) in
  let items :=
    tuple_items E (hint_child_placeholder_id st + 1) x
      (indent ++ CODE_INDENT_1 E)%string 0
      (if is_hint_pep_tuple_empty E h then [] else get_hint_pep_args h) in
  let cs := tuple_conjuncts E (hint_child_placeholder_id st + 1) x h in
  grows st st1 items /\
  hint_child_placeholder_id st1 = hint_child_placeholder_id st + len items /\
  Format.format
    (Text.slice_to (LINE_RSTRIP_INDEX_AND E)
       (PEP_CODE_CHECK_HINT_TUPLE_FIXED_PREFIX E ++
        tuple_lines_deferred (fst cs :: snd cs)) ++
     Snip.PEP_CODE_CHECK_HINT_TUPLE_FIXED_SUFFIX)%string
    [("indent_curr", indent); ("pith_curr_assign_expr", unparse_p a)] =
    Return code.
Proof.
  intros Hcase H a x items cs. unfold tuple_fixed_case in Hcase.
  apply andb_true_iff in Hcase. destruct Hcase as [Hcase Htuple].
  apply andb_true_iff in Hcase. destruct Hcase as [Hcase Hseq].
  apply andb_true_iff in Hcase. destruct Hcase as [Hcase Hshallow].
  apply andb_true_iff in Hcase. destruct Hcase as [Hreach Hunion].
  apply negb_true_iff in Hunion, Hshallow, Hseq.
  rewrite (check_hint_switch E _ h _ indent st Hreach) in H.
  destruct (assign_pith_unparse E Snip.PEP_CODE_PITH_ROOT_NAME e
              (pith_curr_assign_expr_name_counter st)) as (counter & Hpith).
  rewrite Hpith in H. cbn [bind fst snd] in H. fold a x in H.
  unfold check_sign in H. cbn [hint_curr_sign hint_curr hint_childs] in H.
  rewrite Hunion, Hshallow, Hseq, Htuple in H.
  unfold check_tuple_fixed in H.
  apply bind_Return_inv in H. destruct H as (u1 & _ & H).
  apply bind_Return_inv in H. destruct H as (u2 & _ & H).
  apply bind_Return_inv in H. destruct H as ([code2 st2] & Hacc & H).
  apply bind_Return_inv in H. destruct H as (r & Hr & H).
  injection H as <- <-.
  cbn [hint_curr hint_childs pith_curr_assigned_expr pith_curr_assign_expr
       indent_curr indent_child] in *.
  assert (Hq : grows (with_counter st counter) st2 items /\
               hint_child_placeholder_id st2 =
                 hint_child_placeholder_id st + len items /\
               code2 =
                 (PEP_CODE_CHECK_HINT_TUPLE_FIXED_PREFIX E ++
                  tuple_lines_deferred (fst cs :: snd cs))%string).
  { subst items cs. unfold tuple_conjuncts.
    destruct (is_hint_pep_tuple_empty E h).
    - apply bind_Return_inv in Hacc. destruct Hacc as (c & Hc & Hacc).
      injection Hacc as <- <-. cbn [tuple_items]. split; [apply grows_refl|].
      split; [unfold len; cbn; lia|].
      cbn in Hc. injection Hc as <-. cbn [fst snd tuple_lines_deferred].
      unfold tuple_line. cbn [comment_c unparse_c].
      repeat (rewrite ?string_app_assoc; cbn). reflexivity.
    - apply bind_Return_inv in Hacc. destruct Hacc as (c & Hc & Hacc).
      unfold enumerate in Hacc.
      match type of Hacc with
      | for_each (tuple_fixed_child E ?f) _ _ = _ =>
          apply (tuple_fixed_loop E f x eq_refl) in Hacc
      end.
      destruct Hacc as (Hg & Hid & Hcode).
      cbn [with_counter hint_child_placeholder_id] in Hg, Hid, Hcode.
      split; [exact Hg|]. split; [exact Hid|].
      rewrite Hcode. cbn in Hc. injection Hc as <-.
      cbn [fst snd tuple_lines_deferred].
      unfold tuple_line. cbn [comment_c unparse_c].
      repeat (rewrite ?string_app_assoc; cbn). reflexivity. }
  destruct Hq as (Hg & Hid & Hcode2). subst code2.
  split; [|split; [exact Hid|exact Hr]].
  eapply (grows_trans _ _ _ [] _); [apply grows_with_counter|exact Hg].
Qed.



(** ** The checks of sequences *)

(** Evaluating a pith expression without assignments leaves the local
    variables as they were. *)
Lemma pure_eval_store (rt : runtime) (e : pexpr) :
  pure e = true ->
  forall s v s', eval_p rt s e = Return (v, s') -> s' = s.
Proof.
  induction e as [name|name e IH|e IH|e IH index]; simpl; intros Hp s v s' H.
  - destruct (store_get s name); [|discriminate]. now injection H.
  - discriminate.
  - inv_bind H. inv_bind H. inv_bind H.
    destruct (a1 =? 0); [discriminate|]. inv_bind H. injection H as _ <-.
    destruct a as [v1 s1]. destruct a0 as [v2 s2]. cbn [fst snd] in *.
    apply IH in Ha; [|exact Hp]. subst s1. now apply IH in Ha0.
  - inv_bind H. inv_bind H. injection H as _ <-.
    destruct a as [v1 s1]. cbn [snd]. now apply IH in Ha.
Qed.

(** After the pith is evaluated once, the expression that stands for it
    evaluates to its value and changes nothing more. *)
Lemma eval_assigned (E : External) (rt : runtime) (root : string) (e : pexpr)
    (counter : Z) (s s1 : store) (v : value) :
  pure e = true ->
  eval_p rt s (fst (assigned_piths E root e counter)) = Return (v, s1) ->
  eval_p rt s1 (snd (assigned_piths E root e counter)) = Return (v, s1).
Proof.
  intros Hp H. unfold assigned_piths in *.
  destruct (IS_PYTHON_AT_LEAST_3_8 E && negb (String.eqb (unparse_p e) root));
    cbn [fst snd] in *.
  - cbn [eval_p] in H. inv_bind H. injection H as <- <-.
    cbn [eval_p store_get store_set]. now rewrite String.eqb_refl.
  - pose proof (pure_eval_store rt e Hp _ _ _ H) as ->. exact H.
Qed.

(** The code and the queue item that the case of sequences produces for
    a hint with an unignorable child. *)
Lemma check_hint_sequence (E : External) (h child : hint) (rest : list hint)
    (e : pexpr) (indent : string) (st st1 : state) (code : string) :
  sequence_case E h = true ->
  get_hint_pep_args h = child :: rest ->
  is_hint_ignorable E child = false ->
  check_hint E Snip.PEP_CODE_PITH_ROOT_NAME h (unparse_p e) indent st =
    Return (code, st1) ->
  let a := fst (assigned_piths E Snip.PEP_CODE_PITH_ROOT_NAME e
                  (pith_curr_assign_expr_name_counter st)) in
  let x := snd (assigned_piths E Snip.PEP_CODE_PITH_ROOT_NAME e
                  (pith_curr_assign_expr_name_counter st)) in
  exists c placeholder,
    get_hint_pep_stdlib_type E h = Return c /\
    grows st st1
      [HintMeta child placeholder (unparse_p (PRandomItem x))
         (indent ++ CODE_INDENT_1 E)] /\
    is_var_random_int_needed st1 = true /\
    code =
      unparse_b
        (sequence_check indent a x
           (fst (add_func_scope_type E c (func_wrapper_locals st)))
           placeholder).
Proof.
  intros Hcase Hargs Hign H a x. unfold sequence_case in Hcase.
  apply andb_true_iff in Hcase. destruct Hcase as [Hcase Hseq].
  apply andb_true_iff in Hcase. destruct Hcase as [Hcase Hshallow].
  apply andb_true_iff in Hcase. destruct Hcase as [Hcase Hunion].
  apply andb_true_iff in Hcase. destruct Hcase as [Hcase Hsign].
  apply andb_true_iff in Hcase. destruct Hcase as [Hcase Hnign].
  apply andb_true_iff in Hcase. destruct Hcase as [Hpep Hsup].
  apply negb_true_iff in Hshallow, Hunion, Hnign.
  unfold check_hint in H. rewrite Hpep in H.
  unfold check_pep, die_if_hint_pep_unsupported,
    die_if_hint_pep_sign_unsupported in H.
  rewrite Hsup, Hnign, Hsign in H. cbn [negb assert bind] in H.
  destruct (assign_pith_unparse E Snip.PEP_CODE_PITH_ROOT_NAME e
              (pith_curr_assign_expr_name_counter st)) as (counter & Hpith).
  rewrite Hpith in H. cbn [bind] in H. fold a x in H.
  unfold check_sign in H. cbn [hint_curr_sign hint_curr hint_childs] in H.
  rewrite Hunion, Hshallow, Hseq in H.
  unfold check_sequence in H.
  cbn [hint_curr hint_curr_sign hint_childs pith_curr_expr
       pith_curr_assign_expr pith_curr_assigned_expr indent_curr
       indent_child] in H.
  destruct (get_hint_pep_stdlib_type E h) as [c|] eqn:Hc; [|discriminate].
  cbn [bind] in H.
  cbn [with_counter func_wrapper_locals] in H.
  destruct (add_func_scope_type E c (func_wrapper_locals st))
    as [type_expr scope0] eqn:Hscope.
  inv_bind H. rewrite Hargs, Hign in H. cbn [negb] in H.
  cbn [Format.format] in H.
  match type of H with
  | bind ?fmt _ = _ =>
      assert (Hfmt : fmt = Return (unparse_p (PRandomItem x)))
        by (cbn; rewrite ?TextFacts.app_nil_r_string; reflexivity)
  end.
  rewrite Hfmt in H. cbn [bind] in H.
  match type of H with
  | context [_enqueue_hint_child ?s ?hc ?i ?p] =>
      pose proof (grows_enqueue s hc i p) as Hg;
      assert (Hrand : is_var_random_int_needed
                        (snd (_enqueue_hint_child s hc i p)) = true)
        by reflexivity;
      destruct (_enqueue_hint_child s hc i p) as [ph st2]
  end.
  cbn [fst snd] in Hg, Hrand.
  inv_bind H. injection H as <- <-.
  exists c, ph. split; [reflexivity|]. split.
  - eapply (grows_trans _ _ _ [] _); [|exact Hg].
    eapply (grows_trans _ _ _ [] []); [apply grows_with_counter|].
    eapply (grows_trans _ _ _ [] []);
      [apply grows_with_locals|apply grows_with_random_int].
  - split; [exact Hrand|].
    rewrite Hscope. cbn [fst]. cbn in Ha0. injection Ha0 as <-.
    cbn. repeat (rewrite ?string_app_assoc; cbn).
    rewrite ?TextFacts.app_nil_r_string. reflexivity.
Qed.

(** The value of the check of a sequence whose pith has the value [v]. *)
Lemma eval_sequence_check (E : External) (rt : runtime)
    (chk : string -> store -> result (bool * store)) (e : pexpr) (counter : Z)
    (indent type_expr placeholder : string) (c : cls) (s s1 : store)
    (v : value) (accepts : value -> bool) :
  let a := fst (assigned_piths E Snip.PEP_CODE_PITH_ROOT_NAME e counter) in
  let x := snd (assigned_piths E Snip.PEP_CODE_PITH_ROOT_NAME e counter) in
  pure e = true ->
  scope_get (scope rt) type_expr = Some (ScopeType c) ->
  child_checks rt chk placeholder (PRandomItem x) accepts ->
  eval_p rt s a = Return (v, s1) ->
  eval_b rt chk s (sequence_check indent a x type_expr placeholder) =
    if issubclass rt (class_of v) c then
      if truthy v then
        match v with
        | VSequence _ items =>
            w <- subscript v (__beartype_random_int rt mod len items) ;;
            Return (accepts w, s1)
        | VObject _ _ => Raise TypeError
        end
      else Return (true, s1)
    else Return (false, s1).
Proof.
  intros a x Hp Hscope Hchild Ha.
  pose proof (eval_assigned E rt _ e counter s s1 v Hp Ha) as Hx.
  fold x in Hx.
  unfold sequence_check. cbn [eval_b]. rewrite Ha. cbn [bind fst snd].
  unfold isinstance. rewrite Hscope. cbn [bind fst snd].
  destruct (issubclass rt (class_of v) c); [|reflexivity].
  rewrite Hx. cbn [bind fst snd].
  destruct (truthy v) eqn:Ht; cbn [negb]; [|reflexivity].
  rewrite (Hchild s1). cbn [eval_p].
  repeat (rewrite Hx; cbn [bind fst snd]).
  destruct v as [cl truth|cl items]; [reflexivity|].
  cbn [len_of bind]. cbn [truthy] in Ht.
  destruct items as [|w items]; [discriminate|].
  replace (len (w :: items) =? 0) with false
    by (symmetry; apply Z.eqb_neq; unfold len; simpl; lia).
  destruct (subscript (VSequence cl (w :: items))
              (__beartype_random_int rt mod len (w :: items)));
    reflexivity.
Qed.

(** C1: from Python 3.8 on, a standard sequence hint (or variadic tuple
    hint) with an unignorable child whose pith is handed down as an
    assignment expression, as the union case hands it to its first
    PEP-compliant children and the annotated case to its metahint, gets
    a check whose [isinstance] test assigns the pith a second time
    within the first assignment, [p2 := p1 := ...], which Python does
    not read as an expression. For [List[Union[List[int], List[str]]]]
    the returned code tests
    [isinstance(__beartype_pith_2 := __beartype_pith_1 := ..., list)]. *)
Theorem nested_sequence_assigns_pith_twice :
  (exists artifact,
     pep_code_check_hint (Demo.env true)
       (Demo.List_
          (Demo.Union_ [Demo.List_ Demo.int_; Demo.List_ Demo.str_])) =
       Some (Return artifact) /\
     Text.contains
       "isinstance(__beartype_pith_2 := __beartype_pith_1 := __beartype_pith_0[__beartype_random_int % len(__beartype_pith_0)], __beartype_type_list) and"
       (fst (fst artifact)) = true) /\
  forall (E : External) (h child : hint) (rest : list hint) (name : string)
         (e0 : pexpr) (indent : string) (st st1 : state) (code : string),
    IS_PYTHON_AT_LEAST_3_8 E = true ->
    sequence_case E h = true ->
    get_hint_pep_args h = child :: rest ->
    is_hint_ignorable E child = false ->
    check_hint E Snip.PEP_CODE_PITH_ROOT_NAME h (unparse_p (PAssign name e0))
      indent st = Return (code, st1) ->
    let variable :=
      (Snip.PEP_CODE_PITH_NAME_PREFIX ++
       Text.str_of_int (pith_curr_assign_expr_name_counter st + 1))%string in
    let assigned_twice := PAssign variable (PAssign name e0) in
    parses assigned_twice = false /\
    exists c placeholder,
      get_hint_pep_stdlib_type E h = Return c /\
      code =
        unparse_b
          (sequence_check indent assigned_twice (PVar variable)
             (fst (add_func_scope_type E c (func_wrapper_locals st)))
             placeholder).
Proof.
  split.
  { eexists. split; [vm_compute; reflexivity|]. vm_compute. reflexivity. }
  intros E h child rest name e0 indent st st1 code Hpy Hcase Hargs Hign H
    variable assigned_twice.
  split; [reflexivity|].
  destruct (check_hint_sequence E h child rest (PAssign name e0) indent st
              st1 code Hcase Hargs Hign H) as (c & ph & Hc & _ & _ & Hcode).
  rewrite (assigned_piths_again E name e0 _ Hpy) in Hcode.
  cbn [fst snd] in Hcode. exists c, ph. split; [exact Hc|exact Hcode].
Qed.

Lemma nested_sequence_assigns_pith_twice_witness :
  let E := Demo.env true in
  let h := Demo.List_ Demo.int_ in
  let st := with_counter (snd (state_root E h)) 1 in
  let checked :=
    Demo.returned (EmptyString, st)
      (check_hint E Snip.PEP_CODE_PITH_ROOT_NAME h
         "__beartype_pith_1 := __beartype_pith_0[__beartype_random_int % len(__beartype_pith_0)]"
         "    " st) in
  exists c placeholder,
    get_hint_pep_stdlib_type E h = Return c /\
    fst checked =
      unparse_b
        (sequence_check "    "
           (PAssign "__beartype_pith_2"
              (PAssign "__beartype_pith_1"
                 (PRandomItem (PVar "__beartype_pith_0"))))
           (PVar "__beartype_pith_2")
           (fst (add_func_scope_type E c (func_wrapper_locals st)))
           placeholder).
Proof.
  intros E h st checked.
  destruct nested_sequence_assigns_pith_twice as [_ Hvisit].
  exact (proj2
           (Hvisit E h Demo.int_ [] "__beartype_pith_1"
              (PRandomItem (PVar "__beartype_pith_0")) "    " st
              (snd checked) (fst checked)
              eq_refl eq_refl eq_refl eq_refl
              ltac:(vm_compute; reflexivity))).
Defined.



(** ** Unions *)

Lemma no_brace_app (a b : string) :
  no_brace (a ++ b) = no_brace a && no_brace b.
Proof.
  unfold no_brace. rewrite !TextFacts.has_char_app.
  destruct (Text.has_char "{" a), (Text.has_char "}" a),
    (Text.has_char "{" b), (Text.has_char "}" b); reflexivity.
Qed.

(** [str.format] copies a text without braces. *)
Lemma scan_plain (kw : Format.kwargs) (t s : string) :
  no_brace t = true ->
  Format.scan kw Format.Literal (t ++ s) =
    (r <- Format.scan kw Format.Literal s ;; Return (t ++ r)%string).
Proof.
  induction t as [|c t IH]; intros Hb.
  - cbn. now destruct (Format.scan kw Format.Literal s).
  - unfold no_brace in Hb. cbn [Text.has_char] in Hb.
    apply andb_true_iff in Hb. destruct Hb as [Ho Hc].
    apply negb_true_iff, orb_false_iff in Ho. destruct Ho as [Ho Ho'].
    apply negb_true_iff, orb_false_iff in Hc. destruct Hc as [Hc Hc'].
    cbn [String.append Format.scan].
    rewrite Ascii.eqb_sym, Ho, Ascii.eqb_sym, Hc.
    rewrite IH by (unfold no_brace; now rewrite Ho', Hc').
    now destruct (Format.scan kw Format.Literal s).
Qed.

(** The last formatting of one line of a union. *)
Lemma scan_union_line (indent d s : string) :
  no_brace d = true ->
  Format.scan [("indent_curr", indent)] Format.Literal
    (Text.nl ++ "{indent_curr}    " ++ d ++ s) =
    (r <- Format.scan [("indent_curr", indent)] Format.Literal s ;;
     Return (Text.nl ++ indent ++ "    " ++ d ++ r)%string).
Proof.
  intros Hb. cbn. rewrite (scan_plain _ d s Hb).
  destruct (Format.scan [("indent_curr", indent)] Format.Literal s); cbn;
    [|reflexivity].
  now rewrite ?string_app_assoc.
Qed.

Lemma union_lines_length (d : string) (ds : list string) :
  (3 <= String.length (union_lines (d :: ds)))%nat.
Proof.
  cbn [union_lines]. unfold union_line.
  rewrite !string_length_app. cbn. rewrite ?string_length_app. cbn. lia.
Qed.

(** The last formatting of the lines of a union, the [ or] of the last
    line stripped: the disjunction of the disjuncts, each on a line of
    its own at the indentation of the union. *)
Lemma scan_union_lines (indent rest : string) (ds : list bexpr) (d : bexpr) :
  forallb (fun d' => no_brace (unparse_b d')) (d :: ds) = true ->
  Format.scan [("indent_curr", indent)] Format.Literal
    (Text.slice_to (-3) (union_lines (map unparse_b (d :: ds))) ++ rest) =
    (r <- Format.scan [("indent_curr", indent)] Format.Literal rest ;;
     Return (Text.nl ++ indent ++ "    " ++
             unparse_b (disjunction (Text.nl ++ indent ++ "    ") d ds) ++
             r)%string).
Proof.
  revert d. induction ds as [|d' ds IH]; intros d Hb;
    cbn [forallb] in Hb; apply andb_true_iff in Hb; destruct Hb as [Hd Hb].
  - cbn [map union_lines]. rewrite TextFacts.app_nil_r_string.
    unfold union_line.
    replace (Text.nl ++ "{indent_curr}    " ++ unparse_b d ++ " or")%string
      with ((Text.nl ++ "{indent_curr}    " ++ unparse_b d) ++ " or")%string
      by (now rewrite !string_app_assoc).
    rewrite (slice_to_app 3 _ " or" ltac:(cbn; lia)).
    change (Text.slice_to (- Z.of_nat 3) " or") with EmptyString.
    rewrite TextFacts.app_nil_r_string, !string_app_assoc.
    now rewrite (scan_union_line indent (unparse_b d) rest Hd).
  - change (map unparse_b (d :: d' :: ds))
      with (unparse_b d :: map unparse_b (d' :: ds)).
    change (union_lines (unparse_b d :: map unparse_b (d' :: ds)))
      with (union_line (unparse_b d) ++
            union_lines (map unparse_b (d' :: ds)))%string.
    change (-3) with (- Z.of_nat 3).
    rewrite (slice_to_app 3 (union_line (unparse_b d))
               (union_lines (map unparse_b (d' :: ds)))
               (conj (Nat.lt_0_succ 2) (union_lines_length _ _))).
    change (- Z.of_nat 3) with (-3).
    unfold union_line at 1. rewrite !string_app_assoc.
    rewrite (scan_union_line indent (unparse_b d) _ Hd).
    change (" or" ++ ?x)%string with (String " " (String "o" (String "r" x))).
    cbn [String.append Format.scan Ascii.eqb Bool.eqb].
    rewrite (IH d' Hb).
    destruct (Format.scan [("indent_curr", indent)] Format.Literal rest);
      [|reflexivity].
    cbn [bind disjunction unparse_b].
    now rewrite ?string_app_assoc.
Qed.

Lemma placeholder_no_brace (id : Z) : no_brace (placeholder_of id) = true.
Proof.
  unfold placeholder_of. rewrite !no_brace_app.
  unfold no_brace at 2.
  rewrite !(TextFacts.str_of_int_chars _ id) by reflexivity.
  reflexivity.
Qed.

Lemma union_lines_app (a b : list string) :
  union_lines (a ++ b) = (union_lines a ++ union_lines b)%string.
Proof.
  induction a as [|d a IH]; cbn [union_lines app]; [reflexivity|].
  now rewrite IH, string_app_assoc.
Qed.

(** The loop over the PEP-compliant children of a union appends one line
    and enqueues one item for each child. *)
Lemma union_pep_loop (f : frame) (nonpep : list hint) (a x : pexpr) :
  pith_curr_assign_expr f = unparse_p a ->
  pith_curr_assigned_expr f = unparse_p x ->
  forall (pep : list hint) (k : Z) (code code' : string) (st st' : state),
    for_each (union_child_pep f nonpep) (enumerate_from k pep) (code, st) =
      Return (code', st') ->
    exists placeholders,
      length placeholders = length pep /\
      forallb no_brace placeholders = true /\
      code' = (code ++ union_lines placeholders)%string /\
      grows st st'
        (union_items (nonempty nonpep) a x (indent_child f) k pep placeholders).
Proof.
  intros Ha Hx. induction pep as [|h pep IH]; intros k code code' st st' H.
  - cbn in H. injection H as <- <-. exists []. cbn.
    rewrite TextFacts.app_nil_r_string.
    split; [reflexivity|]. split; [reflexivity|]. split; [reflexivity|].
    apply grows_refl.
  - cbn [enumerate_from for_each] in H. inv_bind H.
    unfold union_child_pep in Ha0.
    match type of Ha0 with
    | context [_enqueue_hint_child ?s ?hc ?i ?p] =>
        pose proof (grows_enqueue s hc i p) as Hg;
        assert (Hph : fst (_enqueue_hint_child s hc i p) =
                      placeholder_of (hint_child_placeholder_id s + 1))
          by reflexivity;
        destruct (_enqueue_hint_child s hc i p) as [ph st2]
    end.
    cbn [fst snd] in Hg, Hph. cbn in Ha0. injection Ha0 as <-.
    apply IH in H. destruct H as (phs & Hlen & Hnb & Hcode & Hgrow).
    exists (ph :: phs). cbn [length forallb union_lines union_items].
    split; [now rewrite Hlen|]. split.
    { rewrite Hnb, Hph, placeholder_no_brace. reflexivity. }
    split.
    { rewrite Hcode. unfold union_line. cbn.
      repeat (rewrite ?string_app_assoc; cbn). reflexivity. }
    unfold union_child_pith.
    replace (unparse_p (if nonempty nonpep || (k >? 1) then x else a))
      with (if nonempty nonpep || (k >? 1)
            then unparse_p x else unparse_p a)
      by (now destruct (nonempty nonpep || (k >? 1))).
    rewrite <- Ha, <- Hx.
    exact (grows_trans _ _ _ [_] _ Hg Hgrow).
Qed.

(** The loop that sorts the children of a union leaves at least one
    child in one of the two sets. *)
Lemma union_filter_nonempty (E : External) (l : list hint)
    (sets sets' : list hint * list hint) :
  for_each (union_filter_child E) l sets = Return sets' ->
  nonempty l || nonempty (fst sets) || nonempty (snd sets) = true ->
  nonempty (fst sets') || nonempty (snd sets') = true.
Proof.
  revert sets. induction l as [|h l IH]; intros sets H Hne.
  - cbn in H. injection H as <-. exact Hne.
  - cbn [for_each] in H. inv_bind H. apply (IH _ H).
    unfold union_filter_child in Ha. inv_bind Ha.
    assert (Hadd : forall s, nonempty (set_add (hint_eqb E) h s) = true).
    { intros s. unfold set_add.
      destruct (existsb (hint_eqb E h) s) eqn:Hex.
      - destruct s; [discriminate|reflexivity].
      - destruct s; reflexivity. }
    destruct (is_hint_pep h); injection Ha as <-; cbn [fst snd];
      rewrite Hadd; now rewrite ?orb_true_r.
Qed.

(** Every child of a union is sorted by its PEP-compliance: it is, or
    equals, a member of the set of its kind, and each set holds only
    children of its kind. *)
Lemma union_filter_partition (E : External) (l : list hint)
    (sets sets' : list hint * list hint) :
  for_each (union_filter_child E) l sets = Return sets' ->
  (forall c, In c (fst sets) \/ existsb (hint_eqb E c) (fst sets) = true ->
             In c (fst sets') \/ existsb (hint_eqb E c) (fst sets') = true) /\
  (forall c, In c (snd sets) \/ existsb (hint_eqb E c) (snd sets) = true ->
             In c (snd sets') \/ existsb (hint_eqb E c) (snd sets') = true) /\
  (forall c, In c l ->
     HINTS_IGNORABLE_SHALLOW E c = false /\
     if is_hint_pep c
     then In c (snd sets') \/ existsb (hint_eqb E c) (snd sets') = true
     else In c (fst sets') \/ existsb (hint_eqb E c) (fst sets') = true) /\
  (forall c, In c (fst sets') ->
     In c (fst sets) \/ In c l /\ is_hint_pep c = false) /\
  (forall c, In c (snd sets') ->
     In c (snd sets) \/ In c l /\ is_hint_pep c = true).
Proof.
  revert sets. induction l as [|h l IH]; intros sets H.
  - cbn in H. injection H as <-.
    split; [auto|]. split; [auto|]. split; [intros c []|].
    split; intros c Hin; now left.
  - cbn [for_each] in H. inv_bind H.
    destruct (IH _ H) as (K1 & K2 & K3 & K4 & K5).
    unfold union_filter_child in Ha. inv_bind Ha.
    destruct (HINTS_IGNORABLE_SHALLOW E h) eqn:Hig; [discriminate|].
    assert (Hkeep : forall c s,
              In c s \/ existsb (hint_eqb E c) s = true ->
              In c (set_add (hint_eqb E) h s) \/
              existsb (hint_eqb E c) (set_add (hint_eqb E) h s) = true).
    { intros c s [Hin|Hex]; unfold set_add;
        destruct (existsb (hint_eqb E h) s); auto.
      - left. apply in_or_app. now left.
      - right. rewrite existsb_app, Hex. reflexivity. }
    assert (Hnew : forall s,
              In h (set_add (hint_eqb E) h s) \/
              existsb (hint_eqb E h) (set_add (hint_eqb E) h s) = true).
    { intros s. unfold set_add.
      destruct (existsb (hint_eqb E h) s) eqn:Hex; [now right|].
      left. apply in_or_app. right. now left. }
    assert (Horigin : forall c s,
              In c (set_add (hint_eqb E) h s) -> In c s \/ c = h).
    { intros c s. unfold set_add.
      destruct (existsb (hint_eqb E h) s); [now left|].
      intros Hin. apply in_app_or in Hin.
      destruct Hin as [Hin|[<-|[]]]; auto. }
    destruct (is_hint_pep h) eqn:Hpep; injection Ha as <-;
      cbn [fst snd] in *.
    + split; [intros c Hc; apply K1, Hc|].
      split; [intros c Hc; apply K2, Hkeep, Hc|].
      split.
      { intros c [<-|Hin]; [|apply K3, Hin].
        split; [exact Hig|]. rewrite Hpep. apply K2, Hnew. }
      split.
      { intros c Hin. destruct (K4 c Hin) as [Hs|[Hl Hp]]; [now left|].
        right. split; [now right|exact Hp]. }
      intros c Hin. destruct (K5 c Hin) as [Hs|[Hl Hp]].
      * destruct (Horigin _ _ Hs) as [Hs'| ->]; [now left|].
        right. split; [now left|exact Hpep].
      * right. split; [now right|exact Hp].
    + split; [intros c Hc; apply K1, Hkeep, Hc|].
      split; [intros c Hc; apply K2, Hc|].
      split.
      { intros c [<-|Hin]; [|apply K3, Hin].
        split; [exact Hig|]. rewrite Hpep. apply K1, Hnew. }
      split.
      { intros c Hin. destruct (K4 c Hin) as [Hs|[Hl Hp]].
        - destruct (Horigin _ _ Hs) as [Hs'| ->]; [now left|].
          right. split; [now left|exact Hpep].
        - right. split; [now right|exact Hp]. }
      intros c Hin. destruct (K5 c Hin) as [Hs|[Hl Hp]]; [now left|].
      right. split; [now right|exact Hp].
Qed.

Lemma map_unparse_BChild (placeholders : list string) :
  map unparse_b (map BChild placeholders) = placeholders.
Proof.
  induction placeholders as [|ph l IH]; cbn; [reflexivity|now rewrite IH].
Qed.

Lemma assigned_no_brace (E : External) (root : string) (e : pexpr)
    (counter : Z) :
  no_brace (unparse_p e) = true ->
  no_brace (unparse_p (fst (assigned_piths E root e counter))) = true.
Proof.
  intros Hb. unfold assigned_piths.
  destruct (IS_PYTHON_AT_LEAST_3_8 E && negb (String.eqb (unparse_p e) root));
    cbn [fst unparse_p]; [|exact Hb].
  rewrite !no_brace_app, Hb. unfold no_brace at 2.
  rewrite !(TextFacts.str_of_int_chars _ (counter + 1)) by reflexivity.
  reflexivity.
Qed.

(** The last formatting of the code of a union gives the text of the
    disjunction of its disjuncts between parentheses. *)
Lemma union_final_format (indent : string) (ds : list bexpr) (d : bexpr) :
  forallb (fun d' => no_brace (unparse_b d')) (d :: ds) = true ->
  Format.format
    (Text.slice_to (-3)
       (Snip.PEP484_CODE_CHECK_HINT_UNION_PREFIX ++
        union_lines (map unparse_b (d :: ds))) ++
     Snip.PEP484_CODE_CHECK_HINT_UNION_SUFFIX)
    [("indent_curr", indent)] =
    Return (unparse_b (union_check indent (d :: ds))).
Proof.
  intros Hb. unfold Format.format.
  change (-3) with (- Z.of_nat 3).
  rewrite (slice_to_app 3 Snip.PEP484_CODE_CHECK_HINT_UNION_PREFIX
             (union_lines (map unparse_b (d :: ds)))
             (conj (Nat.lt_0_succ 2) (union_lines_length _ _))).
  change (- Z.of_nat 3) with (-3).
  change Snip.PEP484_CODE_CHECK_HINT_UNION_PREFIX with "(".
  cbn [String.append Format.scan Ascii.eqb Bool.eqb].
  rewrite (scan_union_lines indent _ ds d Hb).
  cbn. repeat (rewrite ?string_app_assoc; cbn). reflexivity.
Qed.

(** The code and the queue items that the case of unions produces. *)
Lemma check_hint_union (E : External) (h : hint) (e : pexpr)
    (indent : string) (st st1 : state) (code : string) :
  LINE_RSTRIP_INDEX_OR E = -3 ->
  union_case E h = true ->
  no_brace (unparse_p e) = true ->
  (forall nonpep pep,
     for_each (union_filter_child E) (get_hint_pep_args h) ([], []) =
       Return (nonpep, pep) ->
     no_brace (fst (add_func_scope_types E nonpep (func_wrapper_locals st))) =
       true) ->
  check_hint E Snip.PEP_CODE_PITH_ROOT_NAME h (unparse_p e) indent st =
    Return (code, st1) ->
  let a := fst (assigned_piths E Snip.PEP_CODE_PITH_ROOT_NAME e
                  (pith_curr_assign_expr_name_counter st)) in
  let x := snd (assigned_piths E Snip.PEP_CODE_PITH_ROOT_NAME e
                  (pith_curr_assign_expr_name_counter st)) in
  exists nonpep pep placeholders,
    for_each (union_filter_child E) (get_hint_pep_args h) ([], []) =
      Return (nonpep, pep) /\
    nonempty nonpep || nonempty pep = true /\
    length placeholders = length pep /\
    grows st st1
      (union_items (nonempty nonpep) a x (indent ++ CODE_INDENT_1 E) 0 pep
         placeholders) /\
    code =
      unparse_b
        (union_check indent
           (union_disjuncts nonpep pep e a
              (fst (add_func_scope_types E nonpep (func_wrapper_locals st)))
              placeholders)).
Proof.
  intros Hor Hcase Hbe Hbt H a x. unfold union_case in Hcase.
  apply andb_true_iff in Hcase. destruct Hcase as [Hcase Hunion].
  apply andb_true_iff in Hcase. destruct Hcase as [Hcase Hsign].
  apply andb_true_iff in Hcase. destruct Hcase as [Hcase Hnign].
  apply andb_true_iff in Hcase. destruct Hcase as [Hpep Hsup].
  apply negb_true_iff in Hnign.
  unfold check_hint in H. rewrite Hpep in H.
  unfold check_pep, die_if_hint_pep_unsupported,
    die_if_hint_pep_sign_unsupported in H.
  rewrite Hsup, Hnign, Hsign in H. cbn [negb assert bind] in H.
  destruct (assign_pith_unparse E Snip.PEP_CODE_PITH_ROOT_NAME e
              (pith_curr_assign_expr_name_counter st)) as (counter & Hpith).
  rewrite Hpith in H. cbn [bind] in H. fold a x in H.
  unfold check_sign in H. cbn [hint_curr_sign hint_curr hint_childs] in H.
  rewrite Hunion in H.
  unfold check_union in H.
  cbn [hint_curr hint_curr_sign hint_childs pith_curr_expr
       pith_curr_assign_expr pith_curr_assigned_expr indent_curr
       indent_child] in H.
  apply bind_Return_inv in H. destruct H as (u & Hassert & H).
  apply bind_Return_inv in H. destruct H as ([nonpep pep] & Hsets & H).
  cbn [fst snd] in H.
  assert (Hne : nonempty nonpep || nonempty pep = true).
  { apply (union_filter_nonempty E _ _ _ Hsets). unfold assert in Hassert.
    destruct (nonempty (get_hint_pep_args h)); [reflexivity|discriminate]. }
  apply bind_Return_inv in H. destruct H as ([code1 st1'] & Hfirst0 & H).
  apply bind_Return_inv in H. destruct H as ([code2 st2] & Hloop0 & H).
  rewrite Hor in H.
  destruct (union_pep_loop
              (Frame h (get_hint_pep_sign h) (get_hint_pep_args h)
                 (unparse_p e) (unparse_p a) (unparse_p x) indent
                 (indent ++ CODE_INDENT_1 E))
              nonpep a x eq_refl eq_refl pep 0 code1 code2 st1' st2 Hloop0)
    as (phs & Hlen & Hnb & Hcode2 & Hgrow).
  cbn [indent_child] in Hgrow.
  assert (Hst : st2 = st1).
  { destruct (negb (String.eqb code2 Snip.PEP484_CODE_CHECK_HINT_UNION_PREFIX)).
    - apply bind_Return_inv in H. destruct H as (final & _ & H).
      now injection H.
    - now injection H. }
  subst st1.
  exists nonpep, pep, phs.
  split; [exact Hsets|]. split; [exact Hne|]. split; [exact Hlen|].
  cbn [with_counter func_wrapper_locals] in Hfirst0.
  set (types_expr :=
         fst (add_func_scope_types E nonpep (func_wrapper_locals st))).
  assert (Hfirst :
            code1 =
              (Snip.PEP484_CODE_CHECK_HINT_UNION_PREFIX ++
               union_lines
                 (map unparse_b
                    (if nonempty nonpep
                     then [BIsInstance (if nonempty pep then a else e)
                             types_expr]
                     else [])))%string /\
            grows (with_counter st counter) st1' []).
  { destruct (nonempty nonpep).
    - subst types_expr.
      destruct (add_func_scope_types E nonpep (func_wrapper_locals st))
        as [types_expr scope0].
      apply bind_Return_inv in Hfirst0.
      destruct Hfirst0 as (line & Hline & Hfirst0).
      injection Hfirst0 as <- <-. cbn [fst].
      split; [|apply grows_with_locals].
      replace (if nonempty pep then unparse_p a else unparse_p e)
        with (unparse_p (if nonempty pep then a else e)) in Hline
        by (now destruct (nonempty pep)).
      cbn in Hline. injection Hline as <-.
      cbn. unfold union_line.
      repeat (rewrite ?string_app_assoc; cbn).
      now rewrite ?TextFacts.app_nil_r_string.
    - injection Hfirst0 as <- <-. split; [reflexivity|apply grows_refl]. }
  destruct Hfirst as [Hcode1 Hg1].
  split.
  { eapply (grows_trans _ _ _ [] _); [|exact Hgrow].
    eapply (grows_trans _ _ _ [] []); [apply grows_with_counter|exact Hg1]. }
  assert (Hall : code2 =
            (Snip.PEP484_CODE_CHECK_HINT_UNION_PREFIX ++
             union_lines
               (map unparse_b
                  (union_disjuncts nonpep pep e a types_expr phs)))%string).
  { rewrite Hcode2, Hcode1. unfold union_disjuncts.
    rewrite map_app, union_lines_app, map_unparse_BChild.
    now rewrite string_app_assoc. }
  assert (Hbraces :
            forallb (fun d' => no_brace (unparse_b d'))
              (union_disjuncts nonpep pep e a types_expr phs) = true).
  { unfold union_disjuncts. rewrite forallb_app. apply andb_true_iff. split.
    - destruct (nonempty nonpep); [|reflexivity].
      cbn [forallb unparse_b]. rewrite andb_true_r.
      rewrite !no_brace_app. subst types_expr.
      rewrite (Hbt nonpep pep Hsets).
      replace (no_brace (unparse_p (if nonempty pep then a else e)))
        with true; [reflexivity|].
      symmetry. destruct (nonempty pep); [|exact Hbe].
      apply assigned_no_brace, Hbe.
    - rewrite forallb_forall. intros d Hd. apply in_map_iff in Hd.
      destruct Hd as (ph & <- & Hin). cbn [unparse_b].
      rewrite forallb_forall in Hnb. apply Hnb, Hin. }
  destruct (union_disjuncts nonpep pep e a types_expr phs) as [|d ds] eqn:Hds.
  { exfalso. unfold union_disjuncts in Hds.
    apply app_eq_nil in Hds. destruct Hds as [Hd1 Hd2].
    destruct (nonempty nonpep); [discriminate|].
    destruct phs; [|discriminate]. destruct pep; discriminate. }
  assert (Hneq : String.eqb code2 Snip.PEP484_CODE_CHECK_HINT_UNION_PREFIX =
                 false).
  { apply String.eqb_neq. intros Heq.
    pose proof (union_lines_length (unparse_b d) (map unparse_b ds)) as Hl.
    apply (f_equal String.length) in Heq. rewrite Hall in Heq.
    rewrite string_length_app in Heq. cbn [map] in Heq.
    cbn [Snip.PEP484_CODE_CHECK_HINT_UNION_PREFIX String.length] in Heq.
    cbn in Heq. lia. }
  rewrite Hneq in H. cbn [negb] in H.
  apply bind_Return_inv in H. destruct H as (final & Hfinal & H).
  injection H as <-.
  rewrite Hall, (union_final_format indent ds d Hbraces) in Hfinal.
  now injection Hfinal as <-.
Qed.

(** *** The meaning of the check of a union *)

(** A pith expression without assignments has the same value when a
    variable that it does not mention is assigned. *)
Lemma eval_p_fresh (rt : runtime) (name : string) (w : value) (e : pexpr) :
  pure e = true -> mentions name e = false ->
  forall s v,
    eval_p rt s e = Return (v, s) ->
    eval_p rt (store_set s name w) e = Return (v, store_set s name w).
Proof.
  induction e as [m|m e IH|e IH|e IH index]; cbn [pure mentions];
    intros Hp Hm s v H.
  - cbn [eval_p store_set store_get] in *.
    rewrite String.eqb_sym in Hm. rewrite Hm. destruct (store_get s m); [|discriminate].
    now injection H as <-.
  - discriminate.
  - cbn [eval_p] in *.
    destruct (eval_p rt s e) as [[v1 s1]|] eqn:He; [|discriminate].
    pose proof (pure_eval_store rt e Hp _ _ _ He) as ->.
    cbn [bind fst snd] in H. rewrite He in H. cbn [bind fst snd] in H.
    rewrite (IH Hp Hm s v1 He). cbn [bind fst snd].
    rewrite (IH Hp Hm s v1 He). cbn [bind fst snd].
    destruct (len_of v1) as [n|]; [|discriminate]. cbn [bind] in *.
    destruct (n =? 0); [discriminate|].
    destruct (subscript v1 (__beartype_random_int rt mod n));
      [|discriminate].
    cbn [bind] in *. now injection H as <-.
  - cbn [eval_p] in *.
    destruct (eval_p rt s e) as [[v1 s1]|] eqn:He; [|discriminate].
    pose proof (pure_eval_store rt e Hp _ _ _ He) as ->.
    cbn [bind fst snd] in H.
    rewrite (IH Hp Hm s v1 He). cbn [bind fst snd].
    destruct (subscript v1 index); [|discriminate].
    cbn [bind] in *. now injection H as <-.
Qed.

(** Where the pith has the value [v], the expression that assigns it
    has this value too, and after it both the pith and the expression
    that stands for it have this value and change nothing. *)
Lemma eval_assign (E : External) (rt : runtime) (root : string) (e : pexpr)
    (counter : Z) (v : value) :
  pure e = true ->
  assigned_fresh E root e counter = true ->
  forall s,
    eval_p rt s e = Return (v, s) ->
    exists s1,
      eval_p rt s (fst (assigned_piths E root e counter)) = Return (v, s1) /\
      eval_p rt s1 e = Return (v, s1) /\
      eval_p rt s1 (snd (assigned_piths E root e counter)) = Return (v, s1).
Proof.
  intros Hp Hf s H. unfold assigned_fresh in Hf. unfold assigned_piths in *.
  destruct (IS_PYTHON_AT_LEAST_3_8 E && negb (String.eqb (unparse_p e) root));
    cbn [fst snd] in *.
  - apply negb_true_iff in Hf.
    eexists. cbn [eval_p]. rewrite H. cbn [bind fst snd].
    split; [reflexivity|]. split.
    + now apply eval_p_fresh.
    + cbn [store_set store_get]. now rewrite String.eqb_refl.
  - exists s. auto.
Qed.

Section UnionMeaning.

Variable rt : runtime.
Variable chk : string -> store -> result (bool * store).
Variables e a x : pexpr.
Variable v : value.

Hypothesis Hassign :
  forall s,
    eval_p rt s e = Return (v, s) ->
    exists s1,
      eval_p rt s a = Return (v, s1) /\
      eval_p rt s1 e = Return (v, s1) /\
      eval_p rt s1 x = Return (v, s1).

(** The check of one PEP-compliant child of a union has the value that
    the child gives to the value of the pith. *)
Lemma union_child_step (nonpep_present : bool) (k : Z) (ph : string)
    (acc : value -> bool) (s : store) :
  eval_p rt s e = Return (v, s) ->
  (nonpep_present || (k >? 1) = true -> eval_p rt s x = Return (v, s)) ->
  child_checks rt chk ph (union_child_pith nonpep_present a x k) acc ->
  exists s2,
    chk ph s = Return (acc v, s2) /\
    eval_p rt s2 e = Return (v, s2) /\
    eval_p rt s2 x = Return (v, s2).
Proof.
  intros He Hx Hc. rewrite (Hc s). unfold union_child_pith.
  destruct (nonpep_present || (k >? 1)).
  - rewrite (Hx eq_refl). cbn. eauto.
  - destruct (Hassign s He) as (s1 & Ha & He1 & Hx1). rewrite Ha. cbn. eauto.
Qed.

(** The disjunction of the checks of the PEP-compliant children of a
    union is true exactly when one of them accepts the value of the
    pith. *)
Lemma union_children_eval (nonpep_present : bool) (space : string) :
  forall (phs : list string) (accs : list (value -> bool)) (k : Z)
         (ph : string) (acc : value -> bool) (s : store),
    eval_p rt s e = Return (v, s) ->
    (nonpep_present || (k >? 1) = true -> eval_p rt s x = Return (v, s)) ->
    union_children_check rt chk nonpep_present a x k (ph :: phs)
      (acc :: accs) ->
    exists s2,
      eval_b rt chk s (disjunction space (BChild ph) (map BChild phs)) =
        Return (existsb (fun acc' => acc' v) (acc :: accs), s2).
Proof.
  induction phs as [|ph' phs IH]; intros accs k ph acc s He Hx Hall;
    unfold union_children_check in Hall; cbn [enumerate_from] in Hall;
    inversion Hall as [|item acc0 items accs0 Hc Hrest]; subst;
    cbn [fst snd] in Hc;
    destruct (union_child_step nonpep_present k ph acc s He Hx Hc)
      as (s2 & Hchk & He2 & Hx2).
  - inversion Hrest; subst.
    cbn [map disjunction eval_b existsb]. rewrite Hchk, orb_false_r. eauto.
  - destruct accs as [|acc' accs]; [inversion Hrest|].
    cbn [map disjunction eval_b]. rewrite Hchk. cbn [bind fst snd].
    cbn [existsb]. destruct (acc v); [eauto|]. cbn [orb].
    exact (IH accs (k + 1) ph' acc' s2 He2 (fun _ => Hx2) Hrest).
Qed.

(** The check of a union has a value, which is true exactly when the
    value of the pith is an instance of one of the PEP-noncompliant
    children or one of the PEP-compliant children accepts it. *)
Lemma eval_union_check (indent types_expr : string) (nonpep pep : list hint)
    (phs : list string) (accs : list (value -> bool)) (cs : list cls)
    (s : store) :
  eval_p rt s e = Return (v, s) ->
  nonempty nonpep || nonempty pep = true ->
  length phs = length pep ->
  (nonempty nonpep = true ->
   scope_get (scope rt) types_expr = Some (ScopeTypes cs)) ->
  union_children_check rt chk (nonempty nonpep) a x 0 phs accs ->
  exists s2,
    eval_b rt chk s
      (union_check indent (union_disjuncts nonpep pep e a types_expr phs)) =
      Return
        (nonempty nonpep && existsb (issubclass rt (class_of v)) cs ||
         existsb (fun acc => acc v) accs, s2).
Proof.
  intros He Hne Hlen Hscope Hall. unfold union_disjuncts.
  destruct (nonempty nonpep) eqn:Hnp.
  - specialize (Hscope eq_refl). destruct pep as [|h pep].
    + destruct phs; [|discriminate]. inversion Hall; subst.
      cbn [nonempty app map union_check disjunction eval_b existsb].
      rewrite He. cbn [bind fst snd]. unfold isinstance. rewrite Hscope.
      cbn [bind andb]. rewrite orb_false_r. eauto.
    + destruct phs as [|ph phs]; [discriminate|].
      destruct accs as [|acc accs]; [inversion Hall|].
      cbn [nonempty app map union_check disjunction eval_b].
      destruct (Hassign s He) as (s1 & Ha & He1 & Hx1).
      rewrite Ha. cbn [bind fst snd]. unfold isinstance. rewrite Hscope.
      cbn [bind fst snd andb].
      destruct (existsb (issubclass rt (class_of v)) cs); [eauto|].
      cbn [orb].
      exact (union_children_eval true _ phs accs 0 ph acc s1 He1
               (fun _ => Hx1) Hall).
  - cbn [orb] in Hne. destruct pep as [|h pep]; [discriminate|].
    destruct phs as [|ph phs]; [discriminate|].
    destruct accs as [|acc accs]; [inversion Hall|].
    cbn [app map union_check andb orb].
    cbn [eval_b].
    refine (union_children_eval false _ phs accs 0 ph acc s He _ Hall).
    cbn. discriminate.
Qed.

End UnionMeaning.




(** ** Placeholders in the generated code *)

Lemma atfree_app (a b : string) : atfree (a ++ b) = atfree a && atfree b.
Proof.
  unfold atfree. rewrite TextFacts.has_char_app.
  now destruct (Text.has_char "@" a), (Text.has_char "@" b).
Qed.

Lemma atfree_cons (c : ascii) (s : string) :
  atfree (String c s) = negb (Ascii.eqb c "@") && atfree s.
Proof.
  unfold atfree. cbn [Text.has_char]. rewrite (Ascii.eqb_sym "@" c).
  now destruct (Ascii.eqb c "@"), (Text.has_char "@" s).
Qed.

Lemma atfree_str_of_int (i : Z) : atfree (Text.str_of_int i) = true.
Proof.
  unfold atfree. now rewrite (TextFacts.str_of_int_chars "@" i).
Qed.

Lemma tokens_atfree (lo hi : Z) (s : string) :
  atfree s = true -> tokens lo hi s.
Proof.
  induction s as [|c s IH]; intros H; [constructor|].
  rewrite atfree_cons in H. apply andb_true_iff in H. destruct H as [Hc Hs].
  apply negb_true_iff in Hc. constructor; auto.
Qed.

Lemma tokens_app (lo hi : Z) (a b : string) :
  tokens lo hi a -> tokens lo hi b -> tokens lo hi (a ++ b).
Proof.
  intros Ha Hb. induction Ha as [|c s Hc Hs IH|i s Hi Hs IH]; cbn.
  - exact Hb.
  - now constructor.
  - rewrite string_app_assoc. now constructor.
Qed.

Lemma tokens_mono (lo hi lo' hi' : Z) (s : string) :
  tokens lo hi s -> lo' <= lo -> hi <= hi' -> tokens lo' hi' s.
Proof.
  intros H Hlo Hhi. induction H as [|c s Hc Hs IH|i s Hi Hs IH].
  - constructor.
  - now constructor.
  - constructor; [lia|exact IH].
Qed.

Lemma tokens_empty (lo hi : Z) (s : string) :
  tokens lo hi s -> hi <= lo -> atfree s = true.
Proof.
  intros H Hle. induction H as [|c s Hc Hs IH|i s Hi Hs IH].
  - reflexivity.
  - rewrite atfree_cons, Hc, IH. reflexivity.
  - lia.
Qed.

Lemma tokens_one (lo hi i : Z) :
  lo < i <= hi -> tokens lo hi (placeholder_of i).
Proof.
  intros Hi. rewrite <- (TextFacts.app_nil_r_string (placeholder_of i)).
  constructor; [exact Hi|constructor].
Qed.

Lemma no_brace_cons (c : ascii) (b : string) :
  no_brace (String c b) = true ->
  Ascii.eqb c "{" = false /\ Ascii.eqb c "}" = false /\ no_brace b = true.
Proof.
  unfold no_brace. cbn [Text.has_char]. intros H.
  apply andb_true_iff in H. destruct H as [Ho Hc].
  apply negb_true_iff, orb_false_iff in Ho. destruct Ho as [Ho Ho'].
  apply negb_true_iff, orb_false_iff in Hc. destruct Hc as [Hc Hc'].
  rewrite (Ascii.eqb_sym c "{"), (Ascii.eqb_sym c "}"), Ho, Hc, Ho', Hc'.
  auto.
Qed.

(** Inside a replacement field, [str.format] takes a text without braces
    into the name of the field. *)
Lemma scan_field_block (kw : Format.kwargs) (b s : string) :
  no_brace b = true ->
  forall name,
    Format.scan kw (Format.Field name) (b ++ s) =
      Format.scan kw (Format.Field (name ++ b)) s.
Proof.
  induction b as [|c b IH]; intros Hb name.
  - cbn. now rewrite TextFacts.app_nil_r_string.
  - destruct (no_brace_cons c b Hb) as (Ho & Hc & Hb').
    cbn [String.append Format.scan]. rewrite Hc, Ho, (IH Hb').
    now rewrite string_app_assoc.
Qed.

Lemma scan_opened_block (kw : Format.kwargs) (c : ascii) (b s : string) :
  no_brace (String c b) = true ->
  Format.scan kw Format.Opened (String c b ++ s) =
    Format.scan kw (Format.Field (String c b)) s.
Proof.
  intros Hb. destruct (no_brace_cons c b Hb) as (Ho & Hc & Hb').
  cbn [String.append Format.scan]. rewrite Ho, Hc.
  now rewrite (scan_field_block kw b s Hb').
Qed.

Lemma scan_closed_block (kw : Format.kwargs) (c : ascii) (b s : string) :
  no_brace (String c b) = true ->
  Format.scan kw Format.Closed (String c b ++ s) = Raise ValueError.
Proof.
  intros Hb. destruct (no_brace_cons c b Hb) as (Ho & Hc & Hb').
  cbn [String.append Format.scan]. now rewrite Hc.
Qed.

Lemma placeholder_cons (i : Z) :
  exists t, placeholder_of i = String "@" t.
Proof. eexists. unfold placeholder_of. cbn. reflexivity. Qed.

(** [str.format] keeps the placeholders of the format string whole and
    adds those of its arguments. *)
Lemma scan_tokens (lo hi : Z) (kw : Format.kwargs) :
  (forall name v, Format.lookup kw name = Some v -> tokens lo hi v) ->
  forall s, tokens lo hi s ->
  forall m r, Format.scan kw m s = Return r -> tokens lo hi r.
Proof.
  intros Hkw s Hs. induction Hs as [|c s Hc Hs IH|i s Hi Hs IH]; intros m r H.
  - destruct m; cbn in H; try discriminate. injection H as <-. constructor.
  - destruct m; cbn [Format.scan] in H;
      destruct (Ascii.eqb c "{") eqn:Ho; destruct (Ascii.eqb c "}") eqn:Hcl;
      try discriminate; try (eapply IH; eassumption);
      try (inv_bind H; injection H as <-; constructor;
           [exact Hc|eapply IH; eassumption]).
    + destruct (Format.lookup kw name) as [v|] eqn:Hl; [|discriminate].
      inv_bind H. injection H as <-. apply tokens_app.
      * eapply Hkw; eassumption.
      * eapply IH; eassumption.
    + destruct (Format.lookup kw name) as [v|] eqn:Hl; [|discriminate].
      inv_bind H. injection H as <-. apply tokens_app.
      * eapply Hkw; eassumption.
      * eapply IH; eassumption.
  - pose proof (placeholder_no_brace i) as Hb.
    destruct m.
    + rewrite (scan_plain kw _ s Hb) in H. inv_bind H. injection H as <-.
      constructor; [exact Hi|eapply IH; eassumption].
    + destruct (placeholder_cons i) as (t & Ht). rewrite Ht in H, Hb.
      rewrite (scan_opened_block kw _ t s Hb) in H. eapply IH; eassumption.
    + destruct (placeholder_cons i) as (t & Ht). rewrite Ht in H, Hb.
      rewrite (scan_closed_block kw _ t s Hb) in H. discriminate.
    + rewrite (scan_field_block kw _ s Hb) in H. eapply IH; eassumption.
Qed.

Lemma format_tokens (lo hi : Z) (template : string) (kw : Format.kwargs)
    (r : string) :
  tokens lo hi template ->
  Forall (fun item => tokens lo hi (snd item)) kw ->
  Format.format template kw = Return r -> tokens lo hi r.
Proof.
  intros Ht Hkw H. apply (scan_tokens lo hi kw) with (s := template)
    (m := Format.Literal); [|exact Ht|exact H].
  clear H Ht. induction Hkw as [|[k v] kw Hv Hkw IH]; intros name w Hl.
  - discriminate.
  - cbn [Format.lookup] in Hl. destruct (String.eqb k name).
    + injection Hl as <-. exact Hv.
    + eapply IH; eassumption.
Qed.

Lemma endswith_split (suffix s : string) :
  endswith suffix s = true -> exists t, s = (t ++ suffix)%string.
Proof.
  induction s as [|c s IH]; cbn [endswith]; intros H;
    apply orb_true_iff in H; destruct H as [H|H].
  - apply String.eqb_eq in H. now exists EmptyString.
  - discriminate.
  - apply String.eqb_eq in H. now exists EmptyString.
  - destruct (IH H) as (t & ->). now exists (String c t).
Qed.

(** A text without braces at the end of a format string is at the end
    of the formatted text. *)
Lemma scan_suffix (kw : Format.kwargs) (lit : string) :
  no_brace lit = true ->
  forall t m r,
    Format.scan kw m (t ++ lit) = Return r ->
    exists r', r = (r' ++ lit)%string /\ Format.scan kw m t = Return r'.
Proof.
  intros Hb. induction t as [|c t IH]; intros m r H.
  - cbn [String.append] in H. destruct m.
    + exists EmptyString. split; [|reflexivity].
      rewrite <- (TextFacts.app_nil_r_string lit) in H.
      rewrite (scan_plain kw lit EmptyString Hb) in H. cbn in H.
      injection H as <-. now rewrite TextFacts.app_nil_r_string.
    + destruct lit as [|c b]; [discriminate|].
      rewrite <- (TextFacts.app_nil_r_string (String c b)) in H.
      now rewrite (scan_opened_block kw c b EmptyString Hb) in H.
    + destruct lit as [|c b]; [discriminate|].
      rewrite <- (TextFacts.app_nil_r_string (String c b)) in H.
      now rewrite (scan_closed_block kw c b EmptyString Hb) in H.
    + rewrite <- (TextFacts.app_nil_r_string lit) in H.
      now rewrite (scan_field_block kw lit EmptyString Hb) in H.
  - cbn [String.append] in H.
    destruct m; cbn [Format.scan] in *;
      destruct (Ascii.eqb c "{"); destruct (Ascii.eqb c "}");
      try discriminate; try (apply IH; exact H);
      try (inv_bind H; injection H as <-;
           destruct (IH _ _ Ha) as (r' & -> & Hr);
           rewrite Hr; cbn [bind]; exists (String c r'); split;
           reflexivity).
    + destruct (Format.lookup kw name) as [v|]; [|discriminate].
      inv_bind H. injection H as <-.
      destruct (IH _ _ Ha) as (r' & -> & Hr). rewrite Hr. cbn [bind].
      exists (v ++ r')%string. split; [|reflexivity].
      now rewrite string_app_assoc.
    + destruct (Format.lookup kw name) as [v|]; [|discriminate].
      inv_bind H. injection H as <-.
      destruct (IH _ _ Ha) as (r' & -> & Hr). rewrite Hr. cbn [bind].
      exists (v ++ r')%string. split; [|reflexivity].
      now rewrite string_app_assoc.
Qed.

Lemma has_char_substring (c : ascii) (n : nat) (s : string) :
  Text.has_char c s = false -> Text.has_char c (substring 0 n s) = false.
Proof.
  revert n. induction s as [|d s IH]; intros [|n] H; try reflexivity.
  cbn [Text.has_char] in H. apply orb_false_iff in H. destruct H as [Hd Hs].
  cbn [substring Text.has_char]. now rewrite Hd, IH.
Qed.

Lemma atfree_slice (k : Z) (s : string) :
  atfree s = true -> atfree (Text.slice_to k s) = true.
Proof.
  unfold atfree, Text.slice_to. intros H. apply negb_true_iff in H.
  apply negb_true_iff. now apply has_char_substring.
Qed.

Lemma strippable_atfree (n : nat) (lo hi : Z) (s : string) :
  atfree s = true -> strippable n lo hi s.
Proof.
  intros H. exists EmptyString, s.
  split; [reflexivity|]. split; [constructor|]. split; [exact H|now right].
Qed.

Lemma strippable_tokens (n : nat) (lo hi : Z) (s : string) :
  strippable n lo hi s -> tokens lo hi s.
Proof.
  intros (x & lit & -> & Hx & Hl & _).
  apply tokens_app; [exact Hx|now apply tokens_atfree].
Qed.

Lemma strippable_mono (n : nat) (lo hi lo' hi' : Z) (s : string) :
  strippable n lo hi s -> lo' <= lo -> hi <= hi' -> strippable n lo' hi' s.
Proof.
  intros (x & lit & -> & Hx & Hl & Hn) Hlo Hhi. exists x, lit.
  split; [reflexivity|]. split; [|split; assumption].
  eapply tokens_mono; eassumption.
Qed.

Lemma strippable_app (n : nat) (lo hi : Z) (a b : string) :
  strippable n lo hi a -> strippable n lo hi b -> strippable n lo hi (a ++ b).
Proof.
  intros Ha (x & lit & -> & Hx & Hl & [Hn| ->]).
  - exists (a ++ x)%string, lit. split; [now rewrite string_app_assoc|].
    split; [|split; [exact Hl|now left]].
    apply tokens_app; [eapply strippable_tokens; exact Ha|exact Hx].
  - destruct Ha as (xa & lita & -> & Hxa & Hla & Hna).
    exists xa, (lita ++ lit)%string. cbn [String.append].
    split; [now rewrite string_app_assoc|]. split; [exact Hxa|].
    split; [now rewrite atfree_app, Hla, Hl|].
    destruct Hna as [Hna|Hna]; [left|now right].
    rewrite string_length_app. lia.
Qed.

(** Stripping the last [n] characters of such a text cuts no
    placeholder. *)
Lemma strippable_slice (n : nat) (lo hi : Z) (s : string) :
  (0 < n)%nat -> strippable n lo hi s ->
  tokens lo hi (Text.slice_to (- Z.of_nat n) s).
Proof.
  intros Hpos (x & lit & -> & Hx & Hl & [Hn| ->]).
  - rewrite (slice_to_app n x lit (conj Hpos Hn)).
    apply tokens_app; [exact Hx|]. now apply tokens_atfree, atfree_slice.
  - cbn [String.append]. now apply tokens_atfree, atfree_slice.
Qed.

(** The text that a format string ending with the plain text [lit]
    gives can be stripped of as many characters as [lit] has. *)
Lemma format_strippable (n : nat) (lo hi : Z) (lit template : string)
    (kw : Format.kwargs) (r : string) :
  endswith lit template = true ->
  atfree template = true ->
  no_brace lit = true ->
  (n <= String.length lit)%nat ->
  Forall (fun item => tokens lo hi (snd item)) kw ->
  Format.format template kw = Return r ->
  strippable n lo hi r.
Proof.
  intros He Ha Hb Hn Hkw H. destruct (endswith_split _ _ He) as (t & ->).
  rewrite atfree_app in Ha. apply andb_true_iff in Ha. destruct Ha as [Ht Hl].
  destruct (scan_suffix kw lit Hb t _ _ H) as (r' & -> & Hr).
  exists r', lit. split; [reflexivity|].
  split; [|split; [exact Hl|now left]].
  apply (format_tokens lo hi t kw r'); [now apply tokens_atfree|exact Hkw|].
  exact Hr.
Qed.

Lemma startswith_delimited_tails (d : ascii) (t t' a b : string) :
  Text.has_char d a = false -> Text.has_char d b = false ->
  Text.startswith (a ++ String d t) (b ++ String d t') =
    String.eqb a b && Text.startswith t t'.
Proof.
  revert b. induction a as [|c a IH]; intros [|e b]; cbn; intros Ha Hb.
  - now rewrite Ascii.eqb_refl.
  - apply orb_false_iff in Hb. destruct Hb as [Hb _].
    now rewrite Hb.
  - apply orb_false_iff in Ha. destruct Ha as [Ha _].
    rewrite Ascii.eqb_sym, Ha. reflexivity.
  - apply orb_false_iff in Ha. destruct Ha as [_ Ha].
    apply orb_false_iff in Hb. destruct Hb as [_ Hb].
    rewrite (IH b Ha Hb). now rewrite andb_assoc.
Qed.

(** A placeholder is found at the start of a text that starts with a
    placeholder exactly when the two have the same identifier. *)
Lemma startswith_placeholder (k i : Z) (s : string) :
  Text.startswith (placeholder_of k) (placeholder_of i ++ s) = Z.eqb k i.
Proof.
  rewrite (placeholder_of_unfold k), (placeholder_of_unfold i).
  cbn [String.append Text.startswith]. rewrite !Ascii.eqb_refl. cbn [andb].
  rewrite string_app_assoc. cbn [String.append].
  rewrite (startswith_delimited_tails ")" "!" (String "!" s)).
  - rewrite TextFacts.str_of_int_eqb. cbn. now rewrite andb_true_r.
  - now apply TextFacts.str_of_int_chars.
  - now apply TextFacts.str_of_int_chars.
Qed.

Lemma replace_copy (body new b s : string) :
  atfree b = true ->
  Text.replace_from 0 (String "@" body) new (b ++ s) =
    (b ++ Text.replace_from 0 (String "@" body) new s)%string.
Proof.
  induction b as [|c b IH]; intros Hb; [reflexivity|].
  rewrite atfree_cons in Hb. apply andb_true_iff in Hb. destruct Hb as [Hc Hb].
  apply negb_true_iff in Hc.
  cbn [String.append Text.replace_from Text.startswith].
  rewrite Ascii.eqb_sym, Hc. cbn [andb]. now rewrite (IH Hb).
Qed.

Lemma replace_skip (old new b s : string) :
  Text.replace_from (String.length b) old new (b ++ s) =
    Text.replace_from 0 old new s.
Proof. induction b as [|c b IH]; [reflexivity|exact IH]. Qed.

Lemma replace_from_head (old new : string) (c : ascii) (s : string) :
  Text.replace_from 0 old new (String c s) =
    if Text.startswith old (String c s)
    then (new ++ Text.replace_from (Nat.pred (String.length old)) old new s)%string
    else String c (Text.replace_from 0 old new s).
Proof. reflexivity. Qed.

(** Replacing the placeholder of [k] by a text takes a text made of
    placeholders and plain characters to one made of the other
    placeholders and those of the new text. *)
Lemma replace_tokens (lo hi lo' hi' k : Z) (new s : string) :
  tokens lo hi s ->
  tokens lo' hi' new ->
  (forall i, lo < i <= hi -> i <> k -> lo' < i <= hi') ->
  tokens lo' hi' (replace_str_substrs s (placeholder_of k) new).
Proof.
  intros Hs Hnew Hrange. unfold replace_str_substrs, Text.replace.
  induction Hs as [|c s Hc Hs IH|i s Hi Hs IH].
  - constructor.
  - rewrite replace_from_head.
    replace (Text.startswith (placeholder_of k) (String c s)) with false.
    + constructor; [exact Hc|exact IH].
    + rewrite (placeholder_of_unfold k). cbn [Text.startswith].
      now rewrite Ascii.eqb_sym, Hc.
  - pose proof (startswith_placeholder k i s) as Hsw.
    change (placeholder_of i ++ s)%string
      with (String "@" (String "[" (Text.str_of_int i ++ ")!") ++ s)) in *.
    rewrite replace_from_head, Hsw.
    destruct (Z.eqb_spec k i) as [<-|Hne].
    + change (Nat.pred (String.length (placeholder_of k)))
        with (String.length (String "[" (Text.str_of_int k ++ ")!"))).
      rewrite replace_skip. now apply tokens_app.
    + change (placeholder_of k)
        with (String "@" (String "[" (Text.str_of_int k ++ ")!"))).
      rewrite replace_copy.
      * change (String "@" (String "[" (Text.str_of_int i ++ ")!") ++ ?x))
          with (placeholder_of i ++ x)%string.
        constructor; [apply Hrange; [exact Hi|congruence]|exact IH].
      * rewrite atfree_cons, atfree_app, atfree_str_of_int. reflexivity.
Qed.

(** ** Every placeholder is replaced *)

Lemma fixed_list_set_nth {A : Type} (l : list (option A)) (i k : nat)
    (x : option A) (m : A) :
  nth_error (fixed_list_set l i x) k = Some (Some m) ->
  x = Some m \/ nth_error l k = Some (Some m).
Proof.
  revert l k. induction i as [|i IH]; intros [|y l] [|k] H; cbn in H.
  - injection H as ->. now left.
  - destruct k; discriminate.
  - injection H as ->. now left.
  - now right.
  - discriminate.
  - apply IH in H. destruct H as [H|H]; [now left|].
    destruct k; discriminate.
  - now right.
  - apply IH in H. destruct H as [H|H]; [now left|now right].
Qed.

Lemma enqueue_atfree (st : state) (h : hint) (indent pith : string) :
  queue_atfree st ->
  hint_atfree h = true -> atfree indent = true -> atfree pith = true ->
  queue_atfree (snd (_enqueue_hint_child st h indent pith)).
Proof.
  intros Hq Hh Hi Hp k m H. unfold _enqueue_hint_child in H.
  cbn [snd hints_meta] in H. apply fixed_list_set_nth in H.
  destruct H as [H|H]; [|exact (Hq k m H)].
  injection H as <-. unfold item_atfree. cbn. now rewrite Hh, Hp, Hi.
Qed.

Lemma visited_atfree (st : state) (k : nat) :
  queue_atfree st ->
  queue_atfree
    (State (hint_child_placeholder_id st)
       (fixed_list_set (hints_meta st) k None)
       (hints_meta_index_curr st + 1) (hints_meta_index_last st)
       (pith_curr_assign_expr_name_counter st)
       (func_wrapper_code st)
       (func_wrapper_locals st) (is_var_random_int_needed st)
       (hints_forwardref_class_basename st)).
Proof.
  intros Hq j m H. cbn [hints_meta] in H. apply fixed_list_set_nth in H.
  destruct H as [H|H]; [discriminate|exact (Hq j m H)].
Qed.

(** An invariant of the body of a loop over [l] holds after the loop. *)
Lemma for_each_inv {A S : Type} (I : S -> Prop) (body : S -> A -> result S)
    (l : list A) :
  (forall acc x acc', In x l -> I acc -> body acc x = Return acc' -> I acc') ->
  forall acc acc', I acc -> for_each body l acc = Return acc' -> I acc'.
Proof.
  induction l as [|x l IH]; intros Hbody acc acc' HI H.
  - cbn in H. now injection H as <-.
  - cbn [for_each] in H. inv_bind H.
    apply (IH (fun acc x acc' Hin => Hbody acc x acc' (or_intror Hin)) a);
      [|exact H].
    eapply Hbody; [now left|exact HI|exact Ha].
Qed.

Lemma accumulated_mono (n : nat) (id0 id0' : Z) (acc : string * state) :
  accumulated n id0 acc -> id0' <= id0 -> accumulated n id0' acc.
Proof.
  intros (Hs & Hle & Hq) Hlo. split; [|split; [lia|exact Hq]].
  eapply strippable_mono; [exact Hs|exact Hlo|lia].
Qed.

Ltac atfree_solve :=
  match goal with
  | |- atfree (_ ++ _)%string = true =>
      rewrite atfree_app; apply andb_true_iff; split; atfree_solve
  | |- atfree (Text.str_of_int _) = true => apply atfree_str_of_int
  | |- atfree (if ?b then _ else _) = true => destruct b; atfree_solve
  | |- _ => first [assumption | reflexivity]
  end.

Ltac tokens_solve :=
  match goal with
  | |- tokens _ _ (placeholder_of _) => apply tokens_one; cbn; lia
  | |- tokens _ _ (_ ++ _)%string => apply tokens_app; tokens_solve
  | H : tokens ?lo ?hi ?s |- tokens _ _ ?s =>
      apply (tokens_mono lo hi _ _ s H); cbn; lia
  | |- _ => apply tokens_atfree; atfree_solve
  end.

Ltac kwargs_solve :=
  repeat (apply Forall_cons; [cbn [snd]; tokens_solve|]); apply Forall_nil.

Ltac atfree_kwargs :=
  repeat (apply Forall_cons; [cbn [snd]; atfree_solve|]); apply Forall_nil.

Ltac frame_facts H :=
  unfold frame_atfree in H;
  repeat (apply andb_true_iff in H;
          let H' := fresh "Hf" in destruct H as [H H']).

Section Placeholders.

Variable E : External.
Hypothesis HE : external_atfree E.

Lemma check_shallow_minted (f : frame) (st st1 : state) (code : string) :
  frame_atfree f = true -> queue_atfree st ->
  check_shallow E f st = Return (code, st1) -> minted st st1 code.
Proof.
  intros Hf Hq H. frame_facts Hf. unfold check_shallow in H.
  destruct (hint_is_sign (hint_curr f) NoReturn); [discriminate|].
  apply bind_Return_inv in H. destruct H as (c & Hc & H).
  pose proof (atfree_scope_type HE c (func_wrapper_locals st)
                (atfree_stdlib_type HE _ Hc)) as Hx.
  destruct (add_func_scope_type E c (func_wrapper_locals st))
    as [expr scope].
  cbn [fst] in Hx.
  apply bind_Return_inv in H. destruct H as (r & Hr & H).
  injection H as <- <-.
  apply (format_tokens (hint_child_placeholder_id st)
           (hint_child_placeholder_id st)) in Hr;
    [|tokens_solve|kwargs_solve].
  split; [exact Hr|]. split; [cbn; lia|exact Hq].
Qed.

Lemma check_forwardref_minted (f : frame) (st st1 : state) (code : string) :
  frame_atfree f = true -> queue_atfree st ->
  check_forwardref E f st = Return (code, st1) -> minted st st1 code.
Proof.
  intros Hf Hq H. frame_facts Hf. unfold check_forwardref in H.
  apply bind_Return_inv in H. destruct H as (classname & Hc & H).
  assert (Hname : atfree classname = true).
  { unfold get_hint_forwardref_classname in Hc.
    destruct (hint_curr f); try discriminate.
    injection Hc as <-. exact Hf. }
  pose proof (atfree_typistry HE classname Hname) as Ht.
  destruct (Text.has_char "." classname);
    (apply bind_Return_inv in H; destruct H as (r & Hr & H);
     injection H as <- <-;
     apply (format_tokens (hint_child_placeholder_id st)
              (hint_child_placeholder_id st)) in Hr;
     [|tokens_solve|kwargs_solve];
     split; [exact Hr|]; split; [cbn; lia|exact Hq]).
Qed.

Lemma format_atfree (template : string) (kw : Format.kwargs) (r : string) :
  atfree template = true ->
  Forall (fun item => atfree (snd item) = true) kw ->
  Format.format template kw = Return r -> atfree r = true.
Proof.
  intros Ht Hkw H. apply (tokens_empty 0 0); [|lia].
  apply (format_tokens 0 0 template kw r); [now apply tokens_atfree| |exact H].
  apply Forall_impl with (2 := Hkw). intros item. apply tokens_atfree.
Qed.

Ltac mint_step H ph st2 Hid Hq2 :=
  match type of H with
  | context [_enqueue_hint_child ?s ?h ?i ?p] =>
      assert (Hid : hint_child_placeholder_id
                      (snd (_enqueue_hint_child s h i p)) =
                    hint_child_placeholder_id s + 1) by reflexivity;
      assert (Hq2 : queue_atfree (snd (_enqueue_hint_child s h i p)))
        by (apply enqueue_atfree; first [assumption | atfree_solve]);
      change (fst (_enqueue_hint_child s h i p))
        with (placeholder_of (hint_child_placeholder_id s + 1)) in *;
      let Hph := fresh "Hph" in
      assert (Hph : fst (_enqueue_hint_child s h i p) =
                    placeholder_of (hint_child_placeholder_id s + 1))
        by reflexivity;
      destruct (_enqueue_hint_child s h i p) as [ph st2];
      cbn [fst snd] in Hid, Hq2, Hph; subst ph;
      cbn [with_locals with_counter with_random_int with_forwardrefs
           hint_child_placeholder_id] in *
  end.

Lemma check_sequence_minted (f : frame) (st st1 : state) (code : string) :
  frame_atfree f = true -> queue_atfree st ->
  check_sequence E f st = Return (code, st1) -> minted st st1 code.
Proof.
  intros Hf Hq H. frame_facts Hf. unfold check_sequence in H.
  apply bind_Return_inv in H. destruct H as (c & Hc & H).
  pose proof (atfree_scope_type HE c (func_wrapper_locals st)
                (atfree_stdlib_type HE _ Hc)) as Hx.
  destruct (add_func_scope_type E c (func_wrapper_locals st))
    as [expr scope].
  cbn [fst] in Hx.
  apply bind_Return_inv in H. destruct H as (u & _ & H).
  destruct (hint_childs f) as [|hint_child rest]; [discriminate|].
  cbn [forallb] in Hf5. apply andb_true_iff in Hf5.
  destruct Hf5 as [Hchild _].
  destruct (negb (is_hint_ignorable E hint_child)).
  - apply bind_Return_inv in H. destruct H as (pith & Hpith & H).
    apply format_atfree in Hpith; [|reflexivity|atfree_kwargs].
    assert (Hq' : queue_atfree (with_random_int (with_locals st scope)))
      by exact Hq.
    mint_step H ph st2 Hid Hq2.
    apply bind_Return_inv in H. destruct H as (r & Hr & H).
    injection H as <- <-.
    apply (format_tokens (hint_child_placeholder_id st)
             (hint_child_placeholder_id st2)) in Hr;
      [|tokens_solve|rewrite Hid; kwargs_solve].
    split; [exact Hr|]. split; [rewrite Hid; cbn; lia|exact Hq2].
  - apply bind_Return_inv in H. destruct H as (r & Hr & H).
    injection H as <- <-.
    apply (format_tokens (hint_child_placeholder_id st)
             (hint_child_placeholder_id st)) in Hr;
      [|tokens_solve|kwargs_solve].
    split; [exact Hr|]. split; [cbn; lia|exact Hq].
Qed.

Lemma in_enumerate_from {A : Type} (l : list A) (i k : Z) (x : A) :
  In (k, x) (enumerate_from i l) -> In x l.
Proof.
  revert i. induction l as [|y l IH]; intros i H; [destruct H|].
  destruct H as [H|H]; [injection H as _ <-; now left|right; eauto].
Qed.

Lemma union_sets_atfree (l nonpep pep : list hint) :
  forallb hint_atfree l = true ->
  for_each (union_filter_child E) l ([], []) = Return (nonpep, pep) ->
  forallb hint_atfree nonpep = true /\ forallb hint_atfree pep = true.
Proof.
  intros Hl H. destruct (union_filter_partition E _ _ _ H)
    as (_ & _ & _ & K4 & K5).
  rewrite forallb_forall in Hl. split; apply forallb_forall; intros c Hin.
  - destruct (K4 c Hin) as [Hn|[Hc _]]; [destruct Hn|exact (Hl c Hc)].
  - destruct (K5 c Hin) as [Hn|[Hc _]]; [destruct Hn|exact (Hl c Hc)].
Qed.

Lemma union_child_pep_accumulated (f : frame) (nonpep : list hint) (id0 : Z)
    (acc acc' : string * state) (item : Z * hint) :
  frame_atfree f = true -> hint_atfree (snd item) = true ->
  accumulated 3 id0 acc ->
  union_child_pep f nonpep acc item = Return acc' ->
  accumulated 3 id0 acc'.
Proof.
  intros Hf Hh (Hs & Hle & Hq) H. frame_facts Hf.
  destruct acc as [code0 st0]. destruct item as [k h].
  cbn [fst snd] in *. unfold union_child_pep in H.
  mint_step H ph st2 Hid Hq2.
  apply bind_Return_inv in H. destruct H as (r & Hr & H).
  injection H as <-. cbn [fst snd].
  apply (format_strippable 3 id0 (hint_child_placeholder_id st2) " or") in Hr;
    [|reflexivity|reflexivity|reflexivity|cbn; lia|rewrite Hid; kwargs_solve].
  unfold accumulated. cbn [fst snd]. split; [|split; [lia|exact Hq2]].
  apply strippable_app; [|exact Hr].
  eapply strippable_mono; [exact Hs|lia|lia].
Qed.

Lemma check_union_minted (f : frame) (st st1 : state) (code : string) :
  frame_atfree f = true -> queue_atfree st ->
  check_union E f st = Return (code, st1) -> minted st st1 code.
Proof.
  intros Hf Hq H. pose proof Hf as Hframe. frame_facts Hf.
  unfold check_union in H.
  apply bind_Return_inv in H. destruct H as (u & _ & H).
  apply bind_Return_inv in H. destruct H as ([nonpep pep] & Hsets & H).
  cbn [fst snd] in H.
  destruct (union_sets_atfree _ _ _ Hf5 Hsets) as [Hnonpep Hpep].
  apply bind_Return_inv in H. destruct H as ([code1 st1'] & Hfirst & H).
  assert (Hacc1 : accumulated 3 (hint_child_placeholder_id st) (code1, st1')).
  { destruct (nonempty nonpep).
    - pose proof (atfree_scope_types HE nonpep (func_wrapper_locals st)
                    Hnonpep) as Hx.
      destruct (add_func_scope_types E nonpep (func_wrapper_locals st))
        as [expr scope].
      cbn [fst] in Hx.
      apply bind_Return_inv in Hfirst. destruct Hfirst as (r & Hr & Hfirst).
      injection Hfirst as <- <-.
      apply (format_strippable 3 (hint_child_placeholder_id st)
               (hint_child_placeholder_id st) " or") in Hr;
        [|reflexivity|reflexivity|reflexivity|cbn; lia|kwargs_solve].
      unfold accumulated. cbn [fst snd with_locals hint_child_placeholder_id].
      split; [|split; [lia|exact Hq]].
      apply (strippable_app 3 _ _ Snip.PEP484_CODE_CHECK_HINT_UNION_PREFIX r);
        [now apply strippable_atfree|exact Hr].
    - injection Hfirst as <- <-. unfold accumulated. cbn [fst snd].
      split; [|split; [lia|exact Hq]]. now apply strippable_atfree. }
  apply bind_Return_inv in H. destruct H as ([code2 st2] & Hloop & H).
  apply (for_each_inv (accumulated 3 (hint_child_placeholder_id st)))
    in Hloop; [|clear Hloop|exact Hacc1].
  - destruct Hloop as (Hs & Hle & Hq2). cbn [fst snd] in *.
    rewrite (rstrip_or HE) in H.
    destruct (negb (String.eqb code2 Snip.PEP484_CODE_CHECK_HINT_UNION_PREFIX)).
    + apply bind_Return_inv in H. destruct H as (r & Hr & H).
      injection H as <- <-.
      apply (strippable_slice 3) in Hs; [|lia].
      apply (format_tokens (hint_child_placeholder_id st)
               (hint_child_placeholder_id st2)) in Hr;
        [|tokens_solve|kwargs_solve].
      split; [exact Hr|]. split; [exact Hle|exact Hq2].
    + injection H as <- <-.
      split; [eapply strippable_tokens; exact Hs|].
      split; [exact Hle|exact Hq2].
  - intros acc [k h] acc' Hin Hacc Hbody.
    apply in_enumerate_from in Hin. rewrite forallb_forall in Hpep.
    exact (union_child_pep_accumulated f nonpep _ acc acc' (k, h) Hframe
             (Hpep h Hin) Hacc Hbody).
Qed.

Lemma tuple_fixed_child_accumulated (f : frame) (id0 : Z)
    (acc acc' : string * state) (item : Z * hint) :
  frame_atfree f = true -> hint_atfree (snd item) = true ->
  accumulated 4 id0 acc ->
  tuple_fixed_child E f acc item = Return acc' ->
  accumulated 4 id0 acc'.
Proof.
  intros Hf Hh Hacc H. pose proof Hacc as (Hs & Hle & Hq). frame_facts Hf.
  destruct acc as [code0 st0]. destruct item as [k h].
  cbn [fst snd] in *. unfold tuple_fixed_child in H.
  destruct (is_hint_ignorable E h); [now injection H as <-|].
  apply bind_Return_inv in H. destruct H as (pith & Hpith & H).
  apply format_atfree in Hpith; [|reflexivity|atfree_kwargs].
  mint_step H ph st2 Hid Hq2.
  apply bind_Return_inv in H. destruct H as (r & Hr & H).
  injection H as <-.
  apply (format_strippable 4 id0 (hint_child_placeholder_id st2) " and")
    in Hr;
    [|reflexivity|reflexivity|reflexivity|cbn; lia|rewrite Hid; kwargs_solve].
  unfold accumulated. cbn [fst snd]. split; [|split; [lia|exact Hq2]].
  apply strippable_app; [|exact Hr].
  eapply strippable_mono; [exact Hs|lia|lia].
Qed.

Lemma check_tuple_fixed_minted (f : frame) (st st1 : state) (code : string) :
  frame_atfree f = true -> queue_atfree st ->
  check_tuple_fixed E f st = Return (code, st1) -> minted st st1 code.
Proof.
  intros Hf Hq H. pose proof Hf as Hframe. frame_facts Hf.
  pose proof (atfree_tuple_prefix HE) as Hprefix.
  unfold check_tuple_fixed in H.
  apply bind_Return_inv in H. destruct H as (u & _ & H).
  apply bind_Return_inv in H. destruct H as (u' & _ & H).
  apply bind_Return_inv in H. destruct H as ([code2 st2] & Hacc & H).
  assert (Hacc2 : accumulated 4 (hint_child_placeholder_id st) (code2, st2)).
  { destruct (is_hint_pep_tuple_empty E (hint_curr f)).
    - apply bind_Return_inv in Hacc. destruct Hacc as (r & Hr & Hacc).
      injection Hacc as <- <-.
      apply format_atfree in Hr; [|reflexivity|atfree_kwargs].
      unfold accumulated. cbn [fst snd].
      split; [|split; [lia|exact Hq]].
      apply strippable_atfree. atfree_solve.
    - apply bind_Return_inv in Hacc. destruct Hacc as (r & Hr & Hacc).
      apply format_atfree in Hr; [|reflexivity|atfree_kwargs].
      apply (for_each_inv (accumulated 4 (hint_child_placeholder_id st)))
        in Hacc; [exact Hacc| |].
      + intros acc [k h] acc' Hin Hacc0 Hbody.
        apply in_enumerate_from in Hin. rewrite forallb_forall in Hf5.
        exact (tuple_fixed_child_accumulated f _ acc acc' (k, h) Hframe
                 (Hf5 h Hin) Hacc0 Hbody).
      + unfold accumulated. cbn [fst snd].
        split; [|split; [lia|exact Hq]].
        apply strippable_atfree. atfree_solve. }
  destruct Hacc2 as (Hs & Hle & Hq2). cbn [fst snd] in *.
  rewrite (rstrip_and HE) in H.
  apply bind_Return_inv in H. destruct H as (r & Hr & H).
  injection H as <- <-.
  apply (strippable_slice 4) in Hs; [|lia].
  apply (format_tokens (hint_child_placeholder_id st)
           (hint_child_placeholder_id st2)) in Hr;
    [|tokens_solve|kwargs_solve].
  split; [exact Hr|]. split; [exact Hle|exact Hq2].
Qed.

Lemma annotated_child_accumulated (f : frame) (id0 : Z)
    (acc acc' : string * state) (h : hint) :
  frame_atfree f = true -> hint_atfree h = true ->
  accumulated 4 id0 acc ->
  annotated_child E f acc h = Return acc' ->
  accumulated 4 id0 acc'.
Proof.
  intros Hf Hh (Hs & Hle & Hq) H. frame_facts Hf.
  destruct acc as [code0 st0]. cbn [fst snd] in *.
  unfold annotated_child in H. destruct h; try discriminate.
  cbn [hint_atfree] in Hh.
  apply bind_Return_inv in H. destruct H as (expr & Hexpr & H).
  apply format_atfree in Hexpr; [|exact Hh|atfree_kwargs].
  apply bind_Return_inv in H. destruct H as (r & Hr & H).
  apply format_atfree in Hr;
    [|exact (atfree_validator_child HE)|atfree_kwargs].
  apply bind_Return_inv in H. destruct H as (scope & _ & H).
  injection H as <-. unfold accumulated. cbn [fst snd].
  split; [|split; [exact Hle|exact Hq]].
  apply strippable_app; [exact Hs|now apply strippable_atfree].
Qed.

Lemma check_annotated_minted (f : frame) (st st1 : state) (code : string) :
  frame_atfree f = true -> queue_atfree st ->
  check_annotated E f st = Return (code, st1) -> minted st st1 code.
Proof.
  intros Hf Hq H. pose proof Hf as Hframe. frame_facts Hf.
  unfold check_annotated in H.
  apply bind_Return_inv in H. destruct H as (u & Hpep & H).
  destruct (hint_curr f) as [| | | | | | | |metahint metadata0 metadata| | |]
    eqn:Hcurr; try discriminate.
  cbn [get_hint_pep593_metahint get_hint_pep593_metadata] in H.
  cbn [hint_atfree] in Hf.
  apply andb_true_iff in Hf. destruct Hf as [Hf Hmd].
  apply andb_true_iff in Hf. destruct Hf as [Hm Hm0].
  mint_step H ph st2 Hid Hq2.
  apply bind_Return_inv in H. destruct H as (prefix & Hprefix & H).
  apply (format_strippable 4 (hint_child_placeholder_id st)
           (hint_child_placeholder_id st2) " and") in Hprefix;
    [|exact (validator_prefix_and HE)|exact (atfree_validator_prefix HE)
     |reflexivity|cbn; lia|rewrite Hid; kwargs_solve].
  apply bind_Return_inv in H. destruct H as ([code3 st3] & Hloop & H).
  apply (for_each_inv (accumulated 4 (hint_child_placeholder_id st)))
    in Hloop.
  - destruct Hloop as (Hs & Hle & Hq3). cbn [fst snd] in *.
    apply bind_Return_inv in H. destruct H as (suffix & Hsuffix & H).
    injection H as <- <-.
    apply format_atfree in Hsuffix;
      [|exact (atfree_validator_suffix HE)|atfree_kwargs].
    rewrite (rstrip_and HE).
    apply (strippable_slice 4) in Hs; [|lia].
    split; [tokens_solve|]. split; [exact Hle|exact Hq3].
  - intros acc h acc' Hin Hacc Hbody.
    assert (Hh : hint_atfree h = true).
    { destruct Hin as [<-|Hin]; [exact Hm0|].
      rewrite forallb_forall in Hmd. exact (Hmd h Hin). }
    exact (annotated_child_accumulated f _ acc acc' h Hframe Hh Hacc Hbody).
  - unfold accumulated. cbn [fst snd]. split; [exact Hprefix|].
    split; [lia|exact Hq2].
Qed.

Lemma generic_bases_atfree (c : option cls) (bases : list (hint * hint))
    (unerased erased : hint) :
  hint_atfree (HintGeneric c bases) = true ->
  In (unerased, erased) bases ->
  hint_atfree unerased = true /\ hint_atfree erased = true.
Proof.
  induction bases as [|[u e] bases IH]; intros H Hin; [destruct Hin|].
  cbn [hint_atfree] in H, IH.
  apply andb_true_iff in H. destruct H as [Hc H].
  apply andb_true_iff in H. destruct H as [H Hrest].
  apply andb_true_iff in H. destruct H as [Hu He].
  destruct Hin as [Hin|Hin].
  - injection Hin as <- <-. now split.
  - apply IH; [|exact Hin]. now rewrite Hc, Hrest.
Qed.

Lemma generic_child_accumulated (f : frame) (id0 : Z)
    (acc acc' : string * state) (base : hint * hint) :
  frame_atfree f = true ->
  hint_atfree (fst base) = true -> hint_atfree (snd base) = true ->
  accumulated 4 id0 acc ->
  generic_child E f acc base = Return acc' ->
  accumulated 4 id0 acc'.
Proof.
  intros Hf Hu He Hacc H. pose proof Hacc as (Hs & Hle & Hq). frame_facts Hf.
  destruct acc as [code0 st0]. destruct base as [u e].
  cbn [fst snd] in *. unfold generic_child in H.
  destruct (is_type u); [now injection H as <-|].
  match type of H with
  | context [is_hint_ignorable E ?h] =>
      assert (Hh : hint_atfree h = true)
        by (destruct (negb (is_hint_pep585_builtin E u &&
                            is_hint_pep_typing E u)); assumption);
      destruct (is_hint_ignorable E h); [now injection H as <-|]
  end.
  mint_step H ph st2 Hid Hq2.
  apply bind_Return_inv in H. destruct H as (r & Hr & H).
  injection H as <-.
  apply (format_strippable 4 id0 (hint_child_placeholder_id st2) " and")
    in Hr;
    [|exact (generic_child_and HE)|exact (atfree_generic_child HE)
     |reflexivity|cbn; lia|rewrite Hid; kwargs_solve].
  unfold accumulated. cbn [fst snd]. split; [|split; [lia|exact Hq2]].
  apply strippable_app; [|exact Hr].
  eapply strippable_mono; [exact Hs|lia|lia].
Qed.

Lemma check_generic_minted (f : frame) (st st1 : state) (code : string) :
  frame_atfree f = true -> queue_atfree st ->
  check_generic E f st = Return (code, st1) -> minted st st1 code.
Proof.
  intros Hf Hq H. pose proof Hf as Hframe. frame_facts Hf.
  unfold check_generic in H.
  destruct (hint_curr f) as [| | | | | | | | |generic_type bases| |] eqn:Hcurr;
    try discriminate.
  cbn [get_hint_pep_generic_type_or_none
       get_hint_pep_generic_bases_unerased] in H.
  destruct generic_type as [c|]; [|discriminate].
  assert (Hc : atfree c = true).
  { cbn [hint_atfree] in Hf. apply andb_true_iff in Hf. now destruct Hf. }
  apply bind_Return_inv in H. destruct H as ([code2 st2] & Hloop & H).
  apply (for_each_inv (accumulated 4 (hint_child_placeholder_id st)))
    in Hloop.
  - destruct Hloop as (Hs & Hle & Hq2). cbn [fst snd] in *.
    pose proof (atfree_scope_type HE c (func_wrapper_locals st2) Hc) as Hx.
    destruct (add_func_scope_type E c (func_wrapper_locals st2))
      as [expr scope].
    cbn [fst] in Hx. rewrite (rstrip_and HE) in H.
    apply bind_Return_inv in H. destruct H as (r & Hr & H).
    injection H as <- <-.
    apply (strippable_slice 4) in Hs; [|lia].
    pose proof (atfree_generic_suffix HE) as Hsuffix.
    apply (format_tokens (hint_child_placeholder_id st)
             (hint_child_placeholder_id st2)) in Hr;
      [|tokens_solve|kwargs_solve].
    split; [exact Hr|]. split; [exact Hle|exact Hq2].
  - intros acc [u e] acc' Hin Hacc Hbody.
    destruct (generic_bases_atfree _ _ _ _ Hf Hin) as [Hu He].
    exact (generic_child_accumulated f _ acc acc' (u, e) Hframe Hu He Hacc
             Hbody).
  - unfold accumulated. cbn [fst snd]. split; [|split; [lia|exact Hq]].
    apply strippable_atfree. exact (atfree_generic_prefix HE).
Qed.

Lemma literal_types_atfree (l acc : list hint) :
  forallb hint_atfree l = true -> forallb hint_atfree acc = true ->
  forallb hint_atfree
    (fold_left
       (fun s hint_child =>
          set_add (hint_eqb E) (HintClass (type_of E hint_child)) s)
       l acc) = true.
Proof.
  revert acc. induction l as [|h l IH]; intros acc Hl Hacc; [exact Hacc|].
  cbn [forallb] in Hl. apply andb_true_iff in Hl. destruct Hl as [Hh Hl].
  cbn [fold_left]. apply (IH _ Hl). unfold set_add.
  destruct (existsb (hint_eqb E (HintClass (type_of E h))) acc);
    [exact Hacc|].
  rewrite forallb_app, Hacc. cbn [forallb hint_atfree].
  now rewrite (atfree_type_of HE h Hh).
Qed.

Lemma literal_child_accumulated (f : frame) (n : nat) (id0 : Z)
    (acc acc' : string * state) (h : hint) :
  frame_atfree f = true -> hint_atfree h = true ->
  accumulated n id0 acc ->
  literal_child E f acc h = Return acc' ->
  accumulated n id0 acc'.
Proof.
  intros Hf Hh (Hs & Hle & Hq) H. frame_facts Hf.
  destruct acc as [code0 st0]. cbn [fst snd] in *.
  unfold literal_child in H.
  pose proof (atfree_scope_attr HE h (func_wrapper_locals st0) Hh) as Hx.
  destruct (add_func_scope_attr E h (func_wrapper_locals st0))
    as [expr scope].
  cbn [fst] in Hx.
  apply bind_Return_inv in H. destruct H as (r & Hr & H).
  apply format_atfree in Hr;
    [|exact (atfree_literal_literal HE)|atfree_kwargs].
  injection H as <-. unfold accumulated. cbn [fst snd].
  split; [|split; [exact Hle|exact Hq]].
  apply strippable_app; [exact Hs|now apply strippable_atfree].
Qed.

Lemma check_literal_minted (f : frame) (st st1 : state) (code : string) :
  frame_atfree f = true -> queue_atfree st ->
  check_literal E f st = Return (code, st1) -> minted st st1 code.
Proof.
  intros Hf Hq H. pose proof Hf as Hframe. frame_facts Hf.
  unfold check_literal in H.
  destruct (negb (is_hint_pep586 E (hint_curr f))); [discriminate|].
  match type of H with
  | context [add_func_scope_types E ?t ?sc] =>
      pose proof (atfree_scope_types HE t sc
                    (literal_types_atfree _ [] Hf5 eq_refl)) as Hx;
      destruct (add_func_scope_types E t sc) as [expr scope]
  end.
  cbn [fst] in Hx.
  apply bind_Return_inv in H. destruct H as (prefix & Hprefix & H).
  apply format_atfree in Hprefix;
    [|exact (atfree_literal_prefix HE)|atfree_kwargs].
  apply bind_Return_inv in H. destruct H as ([code2 st2] & Hloop & H).
  apply (for_each_inv (accumulated 3 (hint_child_placeholder_id st)))
    in Hloop.
  - destruct Hloop as (Hs & Hle & Hq2). cbn [fst snd] in *.
    rewrite (rstrip_or HE) in H.
    apply bind_Return_inv in H. destruct H as (r & Hr & H).
    injection H as <- <-.
    apply (strippable_slice 3) in Hs; [|lia].
    pose proof (atfree_literal_suffix HE) as Hsuffix.
    apply (format_tokens (hint_child_placeholder_id st)
             (hint_child_placeholder_id st2)) in Hr;
      [|tokens_solve|kwargs_solve].
    split; [exact Hr|]. split; [exact Hle|exact Hq2].
  - intros acc h acc' Hin Hacc Hbody. rewrite forallb_forall in Hf5.
    exact (literal_child_accumulated f 3 _ acc acc' h Hframe (Hf5 h Hin)
             Hacc Hbody).
  - unfold accumulated. cbn [fst snd]. split; [|split; [cbn; lia|exact Hq]].
    now apply strippable_atfree.
Qed.

Lemma args_atfree (h : hint) :
  hint_atfree h = true -> forallb hint_atfree (get_hint_pep_args h) = true.
Proof.
  destruct h; cbn [get_hint_pep_args hint_atfree forallb]; try reflexivity.
  - intros H. apply andb_true_iff in H. destruct H as [H Hmd].
    apply andb_true_iff in H. destruct H as [Hm Hm0].
    now rewrite Hm, Hm0, Hmd.
  - auto.
Qed.

Lemma reduce_hint_atfree (h : hint) :
  hint_atfree h = true -> hint_atfree (reduce_hint E h) = true.
Proof.
  destruct h; cbn; intros H; try exact H.
  - exact (atfree_NoneType HE).
  - destruct (negb (is_SubscriptedIs h2)); [|exact H].
    apply andb_true_iff in H. destruct H as [H _].
    apply andb_true_iff in H. now destruct H.
Qed.

Lemma assign_pith_atfree (root pith : string) (counter : Z)
    (a x : string) (counter' : Z) :
  atfree pith = true ->
  assign_pith E root pith counter = Return (a, x, counter') ->
  atfree a = true /\ atfree x = true.
Proof.
  intros Hp H. unfold assign_pith in H.
  destruct (IS_PYTHON_AT_LEAST_3_8 E && negb (String.eqb pith root)).
  - apply bind_Return_inv in H. destruct H as (r & Hr & H).
    injection H as <- <- _.
    assert (Hname : atfree (Snip.PEP_CODE_PITH_NAME_PREFIX ++
                            Text.str_of_int (counter + 1)) = true)
      by atfree_solve.
    split; [|exact Hname].
    apply format_atfree in Hr; [exact Hr|reflexivity|atfree_kwargs].
  - injection H as <- <- _. now split.
Qed.

Lemma check_sign_minted (f : frame) (st st1 : state) (code : string) :
  frame_atfree f = true -> queue_atfree st ->
  check_sign E f st = Return (code, st1) -> minted st st1 code.
Proof.
  intros Hf Hq H. unfold check_sign in H.
  repeat match type of H with
         | (if ?b then _ else _) = _ => destruct b
         end;
    first [ discriminate
          | eapply check_union_minted; eassumption
          | eapply check_shallow_minted; eassumption
          | eapply check_sequence_minted; eassumption
          | eapply check_tuple_fixed_minted; eassumption
          | eapply check_annotated_minted; eassumption
          | eapply check_forwardref_minted; eassumption
          | eapply check_generic_minted; eassumption
          | eapply check_literal_minted; eassumption ].
Qed.

(** The code that one visit generates holds [@] only in the placeholders
    that the visit mints, and the items it enqueues hold none but in
    their placeholders. *)
Lemma check_hint_minted (root : string) (h : hint) (pith indent : string)
    (st st1 : state) (code : string) :
  hint_atfree h = true -> atfree pith = true -> atfree indent = true ->
  queue_atfree st ->
  check_hint E root h pith indent st = Return (code, st1) ->
  minted st st1 code.
Proof.
  intros Hh Hp Hi Hq H. unfold check_hint in H.
  destruct (is_hint_pep h).
  - unfold check_pep in H.
    apply bind_Return_inv in H. destruct H as (u & _ & H).
    apply bind_Return_inv in H. destruct H as (u' & _ & H).
    apply bind_Return_inv in H. destruct H as (u'' & _ & H).
    apply bind_Return_inv in H. destruct H as ([[a x] counter] & Ha & H).
    destruct (assign_pith_atfree _ _ _ _ _ _ Hp Ha) as [Haa Hax].
    apply check_sign_minted in H; [exact H| |exact Hq].
    unfold frame_atfree.
    cbn [hint_curr hint_childs pith_curr_expr pith_curr_assign_expr
         pith_curr_assigned_expr indent_curr indent_child].
    rewrite Hh, (args_atfree h Hh), Hp, Haa, Hax, Hi, atfree_app, Hi.
    now rewrite (atfree_indent_1 HE).
  - destruct h; try discriminate. cbn [hint_atfree] in Hh.
    pose proof (atfree_scope_type HE c (func_wrapper_locals st) Hh) as Hx.
    destruct (add_func_scope_type E c (func_wrapper_locals st))
      as [expr scope].
    cbn [fst] in Hx.
    apply bind_Return_inv in H. destruct H as (r & Hr & H).
    injection H as <- <-.
    apply (format_tokens (hint_child_placeholder_id st)
             (hint_child_placeholder_id st)) in Hr;
      [|tokens_solve|kwargs_solve].
    split; [exact Hr|]. split; [cbn; lia|exact Hq].
Qed.

Lemma nth_error_pending {A : Type} (n : nat) (x : A) (rest : list A) (d : A) :
  nth_error (repeat d n ++ x :: rest) n = Some x.
Proof. induction n as [|n IH]; [reflexivity|exact IH]. Qed.

(** One iteration of the loop replaces the placeholder of the visited
    hint by code that holds only the placeholders of the children it
    enqueues. *)
Lemma visit_pending (root : string) (st st' : state) :
  placeholders_pending st ->
  (hints_meta_index_curr st <=? hints_meta_index_last st) = true ->
  visit E root st = Return st' ->
  placeholders_pending st' /\
  hints_meta_index_curr st' = hints_meta_index_curr st + 1.
Proof.
  intros ((pend & Hw) & Htok & Hq) Hp Hv.
  rewrite (queue_wf_pending _ _ Hw) in Hp.
  destruct pend as [|m pend]; [discriminate|].
  destruct (visit_queue E root st st' m pend Hw Hv)
    as (new & code & st1 & Hchk & Hg & Hw' & _ & Hcurr & Hcode & _).
  pose proof Hw as (Hc & Hm & Hl & Hid & Hph).
  assert (Hitem : item_atfree m = true).
  { apply (Hq (Z.to_nat (hints_meta_index_curr st))). rewrite Hm.
    cbn [map]. apply nth_error_pending. }
  unfold item_atfree in Hitem.
  apply andb_true_iff in Hitem. destruct Hitem as [Hitem Hindent].
  apply andb_true_iff in Hitem. destruct Hitem as [Hhint Hpith].
  destruct (check_hint_minted root _ _ _ st st1 code
              (reduce_hint_atfree _ Hhint) Hpith Hindent Hq Hchk)
    as (Hnew & Hle & Hq1).
  assert (Hst' : hint_child_placeholder_id st' = hint_child_placeholder_id st1
                 /\ queue_atfree st').
  { unfold visit in Hv. rewrite Hm in Hv. cbn [map] in Hv.
    rewrite fixed_list_get_pending in Hv. rewrite Hchk in Hv.
    cbn [bind] in Hv. injection Hv as <-. split; [reflexivity|].
    now apply visited_atfree. }
  destruct Hst' as [Hid' Hq'].
  split; [|exact Hcurr]. split; [eauto|]. split; [|exact Hq'].
  rewrite Hcode, Hcurr, Hid', (Hph 0%nat m eq_refl).
  replace (hints_meta_index_curr st + Z.of_nat 0)
    with (hints_meta_index_curr st) by lia.
  assert (Hlen : 0 <= len pend) by apply len_nonneg.
  assert (Hlen' : len (m :: pend) = 1 + len pend)
    by (unfold len; cbn [length]; lia).
  apply (replace_tokens (hints_meta_index_curr st - 1)
           (hint_child_placeholder_id st)); [exact Htok| |intros i; lia].
  eapply tokens_mono; [exact Hnew|lia|lia].
Qed.

Lemma steps_pending (root : string) (k : nat) :
  forall st0 st,
    placeholders_pending st0 ->
    steps E root k st0 = Some st ->
    placeholders_pending st /\
    hints_meta_index_curr st = hints_meta_index_curr st0 + Z.of_nat k.
Proof.
  induction k as [|k IH]; intros st0 st H0 H.
  - cbn in H. injection H as <-. split; [exact H0|lia].
  - cbn [steps] in H.
    destruct (hints_meta_index_curr st0 <=? hints_meta_index_last st0) eqn:Hp;
      [|discriminate].
    destruct (visit E root st0) as [st1|e] eqn:Hv; [|discriminate].
    destruct (visit_pending root st0 st1 H0 Hp Hv) as [H1 Hc1].
    destruct (IH st1 st H1 H) as [Hst Hc]. split; [exact Hst|lia].
Qed.

Lemma state_root_pending (h : hint) :
  hint_atfree h = true -> placeholders_pending (snd (state_root E h)).
Proof.
  intros Hh. destruct (state_root_wf E h) as (Hw & Hcode & Hfst).
  split; [eauto|]. split.
  - rewrite Hfst, Hcode. apply tokens_app.
    + apply tokens_atfree. exact (atfree_root_prefix HE).
    + apply tokens_one. cbn. lia.
  - intros k m H. unfold state_root, _enqueue_hint_child in H.
    cbn in H. destruct k as [|k]; [|destruct k; discriminate].
    injection H as <-. unfold item_atfree. cbn [HINT_META_INDEX_HINT
      HINT_META_INDEX_PITH_EXPR HINT_META_INDEX_INDENT].
    rewrite Hh, (atfree_indent_2 HE). reflexivity.
Qed.

Lemma finish_atfree (root_code : string) (st : state)
    (artifact : string * CallableScope * list string) :
  atfree (func_wrapper_code st) = true ->
  finish E root_code st = Return artifact ->
  atfree (fst (fst artifact)) = true.
Proof.
  intros Hcode H. unfold finish in H.
  destruct (String.eqb (func_wrapper_code st) root_code); [discriminate|].
  destruct (is_var_random_int_needed st);
    (apply bind_Return_inv in H; destruct H as (suffix & Hs & H);
     injection H as <-; cbn [fst];
     apply format_atfree in Hs;
     [|exact (atfree_root_suffix HE)
      |apply Forall_cons; [cbn [snd]|apply Forall_nil];
       first [exact (atfree_root_random HE)|reflexivity]];
     now rewrite atfree_app, Hcode, Hs).
Qed.

End Placeholders.

(** C5, as the code has it: when what the generator imports and the
    root hint hold no [@], the indices that strip [ and] and [ or] are
    -4 and -3 and the snippets of the children of generics and of the
    prefix of validators end with [ and], a call that returns has
    iterated as many times as it minted placeholders and enqueued hints,
    each iteration replacing the placeholder of the hint it visits, and
    the returned code holds no [@], so no placeholder. *)
Theorem placeholders_exhausted (E : External) (hint_root : hint)
    (code : string) (locals : CallableScope) (names : list string) :
  external_atfree E ->
  hint_atfree hint_root = true ->
  pep_code_check_hint E hint_root = Some (Return (code, locals, names)) ->
  exists (k : nat) (st_end : state),
    steps E Snip.PEP_CODE_PITH_ROOT_NAME k (snd (state_root E hint_root)) =
      Some st_end /\
    (hints_meta_index_curr st_end <=? hints_meta_index_last st_end) = false /\
    hint_child_placeholder_id st_end + 1 = Z.of_nat k /\
    hints_meta_index_last st_end + 1 = Z.of_nat k /\
    hints_meta_index_curr st_end = Z.of_nat k /\
    atfree (func_wrapper_code st_end) = true /\
    atfree code = true /\
    forall i, Text.contains (placeholder_of i) code = false.
Proof.
  intros HE Hh H.
  destruct (pep_code_check_hint_returns E hint_root _ H)
    as (k & st_end & Hk & Hend & Hfin).
  destruct (steps_pending E HE _ k _ _ (state_root_pending E HE _ Hh) Hk)
    as (((pend & Hw) & Htok & _) & Hcurr).
  change (hints_meta_index_curr (snd (state_root E hint_root))) with 0
    in Hcurr.
  rewrite (queue_wf_pending _ _ Hw) in Hend.
  destruct pend as [|m pend]; [|discriminate].
  destruct Hw as (_ & _ & Hl & Hid & _).
  change (len (@nil hint_meta)) with 0 in Hl.
  assert (Hcode : atfree (func_wrapper_code st_end) = true)
    by (apply (tokens_empty _ _ _ Htok); lia).
  pose proof (finish_atfree E HE _ _ _ Hcode Hfin) as Hfinal.
  cbn [fst] in Hfinal.
  exists k, st_end. split; [exact Hk|].
  split; [rewrite (Z.leb_gt); lia|].
  split; [lia|]. split; [lia|]. split; [lia|]. split; [exact Hcode|].
  split; [exact Hfinal|].
  intros i. rewrite (placeholder_of_unfold i).
  apply TextFacts.contains_without_head.
  unfold atfree in Hfinal. now apply negb_true_iff in Hfinal.
Qed.

Lemma demo_class_name_atfree (h : hint) :
  hint_atfree h = true -> atfree (Demo.class_name h) = true.
Proof. destruct h; cbn; auto. Qed.

Lemma demo_name_of_types_atfree (hs : list hint) :
  forallb hint_atfree hs = true -> atfree (Demo.name_of_types hs) = true.
Proof.
  unfold Demo.name_of_types.
  assert (Hgen : forall n,
            atfree n = true -> forallb hint_atfree hs = true ->
            atfree (fold_left
                      (fun n h => (n ++ "_" ++ Demo.class_name h)%string)
                      hs n) = true).
  { induction hs as [|h hs IH]; intros n Hn Hhs; [exact Hn|].
    cbn [forallb] in Hhs. apply andb_true_iff in Hhs.
    destruct Hhs as [Hh Hhs]. cbn [fold_left]. apply IH; [|exact Hhs].
    rewrite !atfree_app, Hn, (demo_class_name_atfree h Hh). reflexivity. }
  intros H. now apply Hgen.
Qed.

Lemma demo_stdlib_type_atfree (h : hint) (c : cls) :
  Demo.stdlib_type h = Return c -> atfree c = true.
Proof.
  unfold Demo.stdlib_type. intros H.
  repeat match type of H with
         | context [match ?x with _ => _ end] => destruct x; try discriminate
         end;
    now injection H as <-.
Qed.

(** The concrete classifier holds no [@]. *)
Lemma demo_external_atfree (py38 : bool) : external_atfree (Demo.env py38).
Proof.
  constructor; try reflexivity.
  - exact demo_stdlib_type_atfree.
  - intros c scope Hc.
    change (atfree ("__beartype_type_" ++ c) = true).
    now rewrite atfree_app, Hc.
  - intros hs scope Hhs. cbn. now apply demo_name_of_types_atfree.
  - intros classname Hc.
    change (atfree ("__beartypistry['" ++ classname ++ "']") = true).
    now rewrite !atfree_app, Hc.
Qed.

Lemma placeholders_exhausted_witness :
  let h := Demo.Union_ [Demo.int_; Demo.List_ Demo.str_] in
  let artifact :=
    Demo.returned (EmptyString, [], [])
      (match pep_code_check_hint (Demo.env true) h with
       | Some r => r
       | None => Raise AssertionError
       end) in
  exists k st_end,
    steps (Demo.env true) Snip.PEP_CODE_PITH_ROOT_NAME k
      (snd (state_root (Demo.env true) h)) = Some st_end /\
    hint_child_placeholder_id st_end + 1 = Z.of_nat k /\
    atfree (fst (fst artifact)) = true.
Proof.
  intros h artifact.
  destruct (placeholders_exhausted (Demo.env true) h (fst (fst artifact))
              (snd (fst artifact)) (snd artifact)
              (demo_external_atfree true) eq_refl
              ltac:(vm_compute; reflexivity))
    as (k & st_end & Hk & Hend & Hid & Hlast & Hcurr & _ & Hcode & _).
  exists k, st_end. split; [exact Hk|]. split; [exact Hid|exact Hcode].
Defined.

(** C5, as stated, fails: the name of a forward reference goes into the
    code as it is, and with it the text of a placeholder that was
    replaced before. *)
Lemma placeholder_text_survives :
  exists artifact,
    pep_code_check_hint (Demo.env true)
      (Demo.Union_ [HintForwardRef "'@[0)!'"; Demo.int_]) =
      Some (Return artifact) /\
    Text.contains (placeholder_of 0) (fst (fst artifact)) = true.
Proof.
  eexists. split; [vm_compute; reflexivity|]. vm_compute. reflexivity.
Qed.

(** * Further properties of the generator *)

(** ** The loop *)

(** After [n] iterations the queue is well formed, [n] hints were
    visited and the hints still to visit are smaller, in total, than
    those there were to visit at the start, by at least [n]. *)
Lemma steps_measure (E : External) (root : string) (n : nat) :
  forall st0 st pend0,
    queue_wf st0 pend0 ->
    steps E root n st0 = Some st ->
    exists pend,
      queue_wf st pend /\
      (n + sizes pend <= sizes pend0)%nat /\
      hints_meta_index_curr st = hints_meta_index_curr st0 + Z.of_nat n.
Proof.
  induction n as [|n IH]; intros st0 st pend0 Hw H.
  - cbn in H. injection H as <-. exists pend0.
    split; [exact Hw|]. split; lia.
  - cbn [steps] in H. rewrite (queue_wf_pending _ _ Hw) in H.
    destruct pend0 as [|m pend0]; [discriminate|]. cbn [nonempty] in H.
    destruct (visit E root st0) as [st1|e] eqn:Hv; [|discriminate].
    destruct (visit_queue E root st0 st1 m pend0 Hw Hv)
      as (new & code & st2 & _ & _ & Hw1 & Hsz & Hcurr & _).
    destruct (IH st1 st _ Hw1 H) as (pend & Hwp & Hm & Hc).
    exists pend. split; [exact Hwp|].
    rewrite sizes_app in Hm.
    assert (Hcons : sizes (m :: pend0) =
                    (hint_size (HINT_META_INDEX_HINT m) + sizes pend0)%nat)
      by reflexivity.
    split; lia.
Qed.

(** X1: [pep_code_check_hint] always ends, returning or raising, and its
    loop never runs more iterations than the root hint has nested
    objects. *)
Theorem loop_runs_at_most_hint_size_iterations (E : External)
    (hint_root : hint) :
  pep_code_check_hint E hint_root <> None /\
  forall (n : nat) (st : state),
    steps E Snip.PEP_CODE_PITH_ROOT_NAME n (snd (state_root E hint_root)) =
      Some st ->
    (n <= hint_size hint_root)%nat.
Proof.
  split; [apply pep_code_check_hint_total|].
  intros n st H. destruct (state_root_wf E hint_root) as (Hw & _).
  destruct (steps_measure E _ n _ _ _ Hw H) as (pend & _ & Hm & _).
  rewrite sizes_one in Hm. cbn [HINT_META_INDEX_HINT] in Hm. lia.
Qed.

(** X2: the queue is first in, first out: after [n] iterations the [n]
    first slots are nullified, the hints still to visit follow in the
    order they were enqueued, the hint at offset [k] with the
    placeholder of identifier [n + k], and the identifier of the last
    placeholder is the index of the last slot. *)
Theorem queue_first_in_first_out (E : External) (hint_root : hint) (n : nat)
    (st : state) :
  steps E Snip.PEP_CODE_PITH_ROOT_NAME n (snd (state_root E hint_root)) =
    Some st ->
  hints_meta_index_curr st = Z.of_nat n /\
  exists pend,
    hints_meta st = (repeat None n ++ map Some pend)%list /\
    hints_meta_index_last st = Z.of_nat n + len pend - 1 /\
    hint_child_placeholder_id st = hints_meta_index_last st /\
    forall (k : nat) (m : hint_meta),
      nth_error pend k = Some m ->
      HINT_META_INDEX_PLACEHOLDER m = placeholder_of (Z.of_nat (n + k)).
Proof.
  intros H. destruct (state_root_wf E hint_root) as (Hw & _).
  destruct (steps_measure E _ n _ _ _ Hw H) as (pend & Hwp & _ & Hc).
  change (hints_meta_index_curr (snd (state_root E hint_root))) with 0 in Hc.
  destruct Hwp as (_ & Hm & Hl & Hid & Hph).
  split; [lia|]. exists pend.
  replace (Z.to_nat (hints_meta_index_curr st)) with n in Hm by lia.
  split; [exact Hm|]. split; [lia|]. split; [exact Hid|].
  intros k m Hk. rewrite (Hph k m Hk). f_equal. lia.
Qed.

Lemma queue_first_in_first_out_witness :
  exists st,
    steps (Demo.env true) Snip.PEP_CODE_PITH_ROOT_NAME 1
      (snd (state_root (Demo.env true)
              (Demo.Union_ [Demo.List_ Demo.int_; Demo.List_ Demo.str_]))) =
      Some st /\
    hints_meta_index_curr st = 1 /\
    hint_child_placeholder_id st = 2.
Proof.
  destruct (steps (Demo.env true) Snip.PEP_CODE_PITH_ROOT_NAME 1
              (snd (state_root (Demo.env true)
                      (Demo.Union_
                         [Demo.List_ Demo.int_; Demo.List_ Demo.str_]))))
    as [st|] eqn:Hs; [|vm_compute in Hs; discriminate].
  exists st. split; [reflexivity|].
  destruct (queue_first_in_first_out (Demo.env true) _ 1 st Hs)
    as (Hcurr & pend & Hm & Hl & Hid & _).
  split; [exact Hcurr|].
  vm_compute in Hs. injection Hs as <-. reflexivity.
Defined.

(** ** Hints that are classes *)

Lemma string_eqb_app (p a b : string) :
  String.eqb (p ++ a) (p ++ b) = String.eqb a b.
Proof.
  induction p as [|c p IH]; [reflexivity|].
  cbn [String.append String.eqb]. now rewrite Ascii.eqb_refl.
Qed.

(** Replacing the root placeholder after a prefix without [@] puts the
    code in its place. *)
Lemma replace_root_placeholder (prefix code : string) :
  atfree prefix = true ->
  replace_str_substrs (prefix ++ placeholder_of 0) (placeholder_of 0) code =
    (prefix ++ code)%string.
Proof.
  intros Hp. unfold replace_str_substrs, Text.replace.
  change (placeholder_of 0) with (String "@" "[0)!").
  rewrite (replace_copy "[0)!" code prefix _ Hp). cbn.
  now rewrite TextFacts.app_nil_r_string.
Qed.

(** X3: a root hint that is a class, or that reduces to one as [None]
    and new types do, is checked by one [isinstance] test of the root
    pith against that class: the returned code is this test between the
    prefix and the suffix of the root check, without the random integer,
    the scope is that of the class and there are no forward
    references. *)
Theorem class_hint_is_one_isinstance_test (E : External) (hint_root : hint)
    (c : cls) (suffix : string) :
  reduce_hint E hint_root = HintClass c ->
  atfree (PEP_CODE_CHECK_HINT_ROOT_PREFIX E) = true ->
  Format.format (PEP_CODE_CHECK_HINT_ROOT_SUFFIX E)
    [("random_int_if_any", EmptyString)] = Return suffix ->
  pep_code_check_hint E hint_root =
    Some (Return
            ((PEP_CODE_CHECK_HINT_ROOT_PREFIX E ++
              unparse_b
                (BIsInstance (PVar Snip.PEP_CODE_PITH_ROOT_NAME)
                   (fst (add_func_scope_type E c []))) ++
              suffix)%string,
             snd (add_func_scope_type E c []),
             [])).
Proof.
  intros Hr Hp Hs. unfold pep_code_check_hint.
  pose proof (hint_size_pos hint_root) as Hpos.
  destruct (hint_size hint_root) as [|fuel]; [lia|].
  unfold state_root, _enqueue_hint_child.
  cbn [hint_child_placeholder_id hints_meta_index_last hints_meta
       hints_meta_index_curr pith_curr_assign_expr_name_counter
       func_wrapper_locals is_var_random_int_needed
       hints_forwardref_class_basename fst snd].
  change (-1 + 1) with 0. cbn [Z.to_nat fixed_list_set].
  cbn [search hints_meta_index_curr hints_meta_index_last Z.leb Z.compare].
  unfold visit at 1.
  cbn [hints_meta hints_meta_index_curr Z.to_nat fixed_list_get nth_error
       HINT_META_INDEX_HINT HINT_META_INDEX_PLACEHOLDER
       HINT_META_INDEX_PITH_EXPR HINT_META_INDEX_INDENT].
  rewrite Hr. unfold check_hint. cbn [is_hint_pep func_wrapper_locals].
  destruct (add_func_scope_type E c []) as [name scope].
  cbn [fst snd].
  assert (Hfmt : Format.format Snip.PEP_CODE_CHECK_HINT_NONPEP_TYPE
                   [("pith_curr_expr", Snip.PEP_CODE_PITH_ROOT_NAME);
                    ("hint_curr_expr", name)] =
                 Return (unparse_b
                           (BIsInstance (PVar Snip.PEP_CODE_PITH_ROOT_NAME)
                              name))).
  { cbn. now rewrite ?TextFacts.app_nil_r_string. }
  rewrite Hfmt. cbn [bind with_locals hint_child_placeholder_id hints_meta
    hints_meta_index_curr hints_meta_index_last
    pith_curr_assign_expr_name_counter func_wrapper_code
    is_var_random_int_needed hints_forwardref_class_basename
    Z.to_nat fixed_list_set].
  rewrite (replace_root_placeholder _ _ Hp).
  assert (Hend : forall fuel' st,
            (hints_meta_index_curr st <=? hints_meta_index_last st) = false ->
            search E Snip.PEP_CODE_PITH_ROOT_NAME fuel' st =
              Some (Return st)).
  { intros [|fuel'] st Hc; cbn [search]; now rewrite Hc. }
  rewrite Hend by reflexivity.
  unfold finish.
  cbn [func_wrapper_code is_var_random_int_needed func_wrapper_locals
       hints_forwardref_class_basename].
  rewrite string_eqb_app.
  change (String.eqb
            (unparse_b (BIsInstance (PVar Snip.PEP_CODE_PITH_ROOT_NAME) name))
            (placeholder_of 0)) with false.
  rewrite Hs. cbn [bind]. now rewrite string_app_assoc.
Qed.

Lemma class_hint_is_one_isinstance_test_witness :
  pep_code_check_hint (Demo.env true) (HintNewType "int") =
    Some (Return
            (("if not isinstance(__beartype_pith_0, __beartype_type_int)" ++
              ": raise_exception()")%string,
             [("__beartype_type_int", ScopeType "int")],
             [])) /\
  pep_code_check_hint (Demo.env true) HintNone =
    pep_code_check_hint (Demo.env true) (HintClass "NoneType").
Proof.
  split.
  - exact (class_hint_is_one_isinstance_test (Demo.env true)
             (HintNewType "int") "int" ": raise_exception()"
             eq_refl eq_refl eq_refl).
  - rewrite (class_hint_is_one_isinstance_test (Demo.env true) HintNone
               "NoneType" ": raise_exception()" eq_refl eq_refl eq_refl).
    now rewrite (class_hint_is_one_isinstance_test (Demo.env true)
                   (HintClass "NoneType") "NoneType" ": raise_exception()"
                   eq_refl eq_refl eq_refl).
Defined.

(** ** The shallow cases *)

(** X4: a hint that the switch takes to the shallow case, other than
    [NoReturn], is checked by one [isinstance] test of the current pith
    against the origin type of the hint, whatever its child hints: the
    visit enqueues nothing and only binds the type in the scope; it
    raises what the lookup of the origin type raises. *)
Theorem shallow_hint_tests_origin_type_only (E : External) (h : hint)
    (e : pexpr) (indent : string) (st : state) :
  shallow_case E h = true ->
  hint_is_sign h NoReturn = false ->
  check_hint E Snip.PEP_CODE_PITH_ROOT_NAME h (unparse_p e) indent st =
    (c <- get_hint_pep_stdlib_type E h ;;
     Return
       (unparse_b
          (BIsInstance e
             (fst (add_func_scope_type E c (func_wrapper_locals st)))),
        with_locals
          (with_counter st
             (assigned_counter E Snip.PEP_CODE_PITH_ROOT_NAME (unparse_p e)
                (pith_curr_assign_expr_name_counter st)))
          (snd (add_func_scope_type E c (func_wrapper_locals st))))).
Proof.
  unfold shallow_case. intros H Hno.
  apply andb_true_iff in H. destruct H as [H Hshallow].
  apply andb_true_iff in H. destruct H as [Hreach Hunion].
  apply negb_true_iff in Hunion.
  rewrite (check_hint_switch E _ h _ indent st Hreach).
  destruct (assign_pith_counter E Snip.PEP_CODE_PITH_ROOT_NAME (unparse_p e)
              (pith_curr_assign_expr_name_counter st)) as (a & x & ->).
  cbn [bind fst snd]. unfold check_sign.
  cbn [hint_curr_sign hint_curr hint_childs]. rewrite Hunion, Hshallow.
  unfold check_shallow. cbn [hint_curr pith_curr_expr]. rewrite Hno.
  destruct (get_hint_pep_stdlib_type E h) as [c|ex]; [|reflexivity].
  cbn [bind with_counter func_wrapper_locals].
  destruct (add_func_scope_type E c (func_wrapper_locals st))
    as [name scope].
  cbn [fst snd].
  assert (Hfmt : Format.format Snip.PEP_CODE_CHECK_HINT_NONPEP_TYPE
                   [("pith_curr_expr", unparse_p e);
                    ("hint_curr_expr", name)] =
                 Return (unparse_b (BIsInstance e name))).
  { cbn. now rewrite ?TextFacts.app_nil_r_string. }
  rewrite Hfmt. reflexivity.
Qed.

Lemma shallow_hint_tests_origin_type_only_witness :
  let h := HintSubscripted (SignAttr "Dict") [Demo.str_; Demo.int_] in
  let st := snd (state_root (Demo.env true) h) in
  check_hint (Demo.env true) Snip.PEP_CODE_PITH_ROOT_NAME h
    "__beartype_pith_0" "    " st =
    Return
      ("isinstance(__beartype_pith_0, __beartype_type_dict)",
       with_locals st [("__beartype_type_dict", ScopeType "dict")]).
Proof.
  intros h st.
  refine (eq_trans
            (shallow_hint_tests_origin_type_only (Demo.env true) h
               (PVar "__beartype_pith_0") "    " st eq_refl eq_refl) _).
  reflexivity.
Defined.

(** X5: a sequence hint whose child hint is ignorable is checked by one
    [isinstance] test of the current pith against the origin type: no
    item is sampled, no child is enqueued and the random integer is not
    asked for. *)
Theorem sequence_of_ignorable_tests_origin_type_only (E : External)
    (h child : hint) (rest : list hint) (e : pexpr) (indent : string)
    (st : state) :
  sequence_case E h = true ->
  get_hint_pep_args h = child :: rest ->
  is_hint_ignorable E child = true ->
  check_hint E Snip.PEP_CODE_PITH_ROOT_NAME h (unparse_p e) indent st =
    (c <- get_hint_pep_stdlib_type E h ;;
     _ <- assert ((len (get_hint_pep_args h) =? 1) ||
                  HINT_PEP_SIGNS_TUPLE E (get_hint_pep_sign h)) ;;
     Return
       (unparse_b
          (BIsInstance e
             (fst (add_func_scope_type E c (func_wrapper_locals st)))),
        with_locals
          (with_counter st
             (assigned_counter E Snip.PEP_CODE_PITH_ROOT_NAME (unparse_p e)
                (pith_curr_assign_expr_name_counter st)))
          (snd (add_func_scope_type E c (func_wrapper_locals st))))).
Proof.
  unfold sequence_case. intros H Hargs Hign.
  apply andb_true_iff in H. destruct H as [H Hseq].
  apply andb_true_iff in H. destruct H as [H Hshallow].
  apply andb_true_iff in H. destruct H as [Hreach Hunion].
  apply negb_true_iff in Hunion, Hshallow.
  rewrite (check_hint_switch E _ h _ indent st Hreach).
  destruct (assign_pith_counter E Snip.PEP_CODE_PITH_ROOT_NAME (unparse_p e)
              (pith_curr_assign_expr_name_counter st)) as (a & x & ->).
  cbn [bind fst snd]. unfold check_sign.
  cbn [hint_curr_sign hint_curr hint_childs].
  rewrite Hunion, Hshallow, Hseq.
  unfold check_sequence.
  cbn [hint_curr hint_curr_sign hint_childs pith_curr_expr].
  destruct (get_hint_pep_stdlib_type E h) as [c|ex]; [|reflexivity].
  cbn [bind with_counter func_wrapper_locals].
  destruct (add_func_scope_type E c (func_wrapper_locals st))
    as [name scope].
  cbn [fst snd].
  destruct (assert ((len (get_hint_pep_args h) =? 1) ||
                    HINT_PEP_SIGNS_TUPLE E (get_hint_pep_sign h)))
    as [u|ex]; [|reflexivity].
  cbn [bind]. rewrite Hargs, Hign. cbn [negb].
  assert (Hfmt : Format.format Snip.PEP_CODE_CHECK_HINT_NONPEP_TYPE
                   [("pith_curr_expr", unparse_p e);
                    ("hint_curr_expr", name)] =
                 Return (unparse_b (BIsInstance e name))).
  { cbn. now rewrite ?TextFacts.app_nil_r_string. }
  rewrite Hfmt. reflexivity.
Qed.

Lemma sequence_of_ignorable_tests_origin_type_only_witness :
  let h := Demo.List_ (HintSign (SignAttr "Any")) in
  let st := snd (state_root (Demo.env true) h) in
  check_hint (Demo.env true) Snip.PEP_CODE_PITH_ROOT_NAME h
    "__beartype_pith_0" "    " st =
    Return
      ("isinstance(__beartype_pith_0, __beartype_type_list)",
       with_locals st [("__beartype_type_list", ScopeType "list")]).
Proof.
  intros h st.
  refine (eq_trans
            (sequence_of_ignorable_tests_origin_type_only (Demo.env true) h
               (HintSign (SignAttr "Any")) [] (PVar "__beartype_pith_0")
               "    " st eq_refl eq_refl eq_refl) _).
  reflexivity.
Defined.

(** A relation between states that enqueueing, binding scope attributes
    and recording forward references respect holds between the states
    before and after every case of the switch but that of sequences. *)
Lemma check_sign_frame (E : External) (R : state -> state -> Prop)
    (f : frame) (st st1 : state) (code : string) :
  (forall st, R st st) ->
  (forall a b c, R a b -> R b c -> R a c) ->
  (forall st h i p, R st (snd (_enqueue_hint_child st h i p))) ->
  (forall st scope, R st (with_locals st scope)) ->
  (forall st names, R st (with_forwardrefs st names)) ->
  check_sign E f st = Return (code, st1) ->
  (R st st1 /\
   negb (HINT_PEP484_SIGNS_UNION E (hint_curr_sign f)) &&
   negb (hint_is_sign (hint_curr f) (hint_curr_sign f) ||
         (HINT_PEP_SIGNS_TYPE_ORIGIN_STDLIB E (hint_curr_sign f) &&
          negb (HINT_PEP_SIGNS_SUPPORTED_DEEP E (hint_curr_sign f)))) &&
   (HINT_PEP_SIGNS_SEQUENCE_STANDARD E (hint_curr_sign f) ||
    (HINT_PEP_SIGNS_TUPLE E (hint_curr_sign f) &&
     (len (hint_childs f) =? 2) && second_is_Ellipsis (hint_childs f))) =
     false) \/
  (HINT_PEP484_SIGNS_UNION E (hint_curr_sign f) = false /\
   hint_is_sign (hint_curr f) (hint_curr_sign f) ||
   (HINT_PEP_SIGNS_TYPE_ORIGIN_STDLIB E (hint_curr_sign f) &&
    negb (HINT_PEP_SIGNS_SUPPORTED_DEEP E (hint_curr_sign f))) = false /\
   HINT_PEP_SIGNS_SEQUENCE_STANDARD E (hint_curr_sign f) ||
   (HINT_PEP_SIGNS_TUPLE E (hint_curr_sign f) &&
    (len (hint_childs f) =? 2) && second_is_Ellipsis (hint_childs f)) =
     true /\
   check_sequence E f st = Return (code, st1)).
Proof.
  intros Rrefl Rtrans Renq Rloc Rfwd H. unfold check_sign in H.
  destruct (HINT_PEP484_SIGNS_UNION E (hint_curr_sign f)) eqn:Hu.
  { left. split; [eapply check_union_frame; eauto|reflexivity]. }
  destruct (hint_is_sign (hint_curr f) (hint_curr_sign f) ||
            (HINT_PEP_SIGNS_TYPE_ORIGIN_STDLIB E (hint_curr_sign f) &&
             negb (HINT_PEP_SIGNS_SUPPORTED_DEEP E (hint_curr_sign f))))
    eqn:Hs.
  { left. split; [eapply check_shallow_frame; eauto|reflexivity]. }
  destruct (HINT_PEP_SIGNS_SEQUENCE_STANDARD E (hint_curr_sign f) ||
            (HINT_PEP_SIGNS_TUPLE E (hint_curr_sign f) &&
             (len (hint_childs f) =? 2) && second_is_Ellipsis (hint_childs f)))
    eqn:Hq.
  { right. auto. }
  left. split; [|reflexivity].
  destruct (HINT_PEP_SIGNS_TUPLE E (hint_curr_sign f)).
  { eapply check_tuple_fixed_frame; eauto. }
  destruct (sign_eqb (hint_curr_sign f) HINT_PEP593_SIGN_ANNOTATED).
  { eapply check_annotated_frame; eauto. }
  destruct (sign_eqb (hint_curr_sign f) HINT_PEP484_TYPE_FORWARDREF).
  { unfold check_forwardref in H.
    apply bind_Return_inv in H. destruct H as (classname & _ & H).
    destruct (Text.has_char "." classname);
      apply bind_Return_inv in H; destruct H as (r & _ & H);
      injection H as _ <-; [apply Rloc|apply Rfwd]. }
  destruct (sign_eqb (hint_curr_sign f) Generic).
  { eapply check_generic_frame; eauto. }
  destruct (sign_eqb (hint_curr_sign f) HINT_PEP586_SIGN_LITERAL).
  { eapply check_literal_frame; eauto. }
  discriminate.
Qed.

(** X6: a visit adds one to the counter of pith variables exactly when
    the hint is PEP-compliant, the code is for Python 3.8 or newer and
    the pith is not the root pith, and otherwise leaves it as it is: no
    case of the switch changes it. *)
Theorem visit_counts_one_pith_variable (E : External) (root : string)
    (h : hint) (pith indent : string) (st st1 : state) (code : string) :
  check_hint E root h pith indent st = Return (code, st1) ->
  pith_curr_assign_expr_name_counter st1 =
    if is_hint_pep h
    then assigned_counter E root pith (pith_curr_assign_expr_name_counter st)
    else pith_curr_assign_expr_name_counter st.
Proof.
  intros H. unfold check_hint in H. destruct (is_hint_pep h).
  - unfold check_pep in H.
    apply bind_Return_inv in H. destruct H as (u & _ & H).
    apply bind_Return_inv in H. destruct H as (u' & _ & H).
    apply bind_Return_inv in H. destruct H as (u'' & _ & H).
    destruct (assign_pith_counter E root pith
                (pith_curr_assign_expr_name_counter st)) as (a & x & Ha).
    rewrite Ha in H. cbn [bind] in H.
    pose (R := fun s s' : state =>
                 pith_curr_assign_expr_name_counter s' =
                 pith_curr_assign_expr_name_counter s).
    assert (HR : R (with_counter st
                      (assigned_counter E root pith
                         (pith_curr_assign_expr_name_counter st))) st1).
    { destruct (check_sign_frame E R _ _ _ _
                  (fun _ => eq_refl)
                  (fun a b c Hab Hbc => eq_trans Hbc Hab)
                  (fun _ _ _ _ => eq_refl) (fun _ _ => eq_refl)
                  (fun _ _ => eq_refl) H) as [[Hr _]|(_ & _ & _ & Hseq)];
        [exact Hr|].
      exact (check_sequence_frame E R
               (fun a b c Hab Hbc => eq_trans Hbc Hab)
               (fun _ _ _ _ => eq_refl) (fun _ _ => eq_refl)
               (fun _ => eq_refl) _ _ _ _ Hseq). }
    exact HR.
  - destruct h; try discriminate.
    destruct (add_func_scope_type E c (func_wrapper_locals st))
      as [name scope].
    apply bind_Return_inv in H. destruct H as (r & _ & H).
    now injection H as _ <-.
Qed.

Lemma visit_counts_one_pith_variable_witness :
  let h := Demo.List_ Demo.int_ in
  let st := snd (state_root (Demo.env true) h) in
  pith_curr_assign_expr_name_counter
    (snd (Demo.returned (EmptyString, st)
            (check_hint (Demo.env true) Snip.PEP_CODE_PITH_ROOT_NAME h
               "__beartype_pith_0[0]" "    " st))) = 1.
Proof.
  intros h st.
  exact (visit_counts_one_pith_variable (Demo.env true)
           Snip.PEP_CODE_PITH_ROOT_NAME h "__beartype_pith_0[0]" "    " st
           (snd (Demo.returned (EmptyString, st)
                   (check_hint (Demo.env true) Snip.PEP_CODE_PITH_ROOT_NAME h
                      "__beartype_pith_0[0]" "    " st)))
           (fst (Demo.returned (EmptyString, st)
                   (check_hint (Demo.env true) Snip.PEP_CODE_PITH_ROOT_NAME h
                      "__beartype_pith_0[0]" "    " st)))
           ltac:(vm_compute; reflexivity)).
Defined.

(** ** The random integer *)

(** A visit asks for the random integer exactly when it takes the case
    of sequences and finds a child hint that is not ignorable; every
    other visit leaves the flag as it is. *)
Lemma check_hint_random_int (E : External) (root : string)
    (h : hint) (pith indent : string) (st st1 : state) (code : string) :
  check_hint E root h pith indent st = Return (code, st1) ->
  is_var_random_int_needed st1 =
    is_var_random_int_needed st || samples_item E h.
Proof.
  intros H. unfold check_hint in H. unfold samples_item, sequence_case.
  destruct (is_hint_pep h).
  - unfold check_pep, die_if_hint_pep_unsupported,
      die_if_hint_pep_sign_unsupported in H.
    destruct (is_hint_pep_supported E h); [|discriminate].
    destruct (is_hint_ignorable E h); [discriminate|].
    destruct (HINT_PEP_SIGNS_SUPPORTED E (get_hint_pep_sign h));
      [|discriminate].
    cbn [negb assert bind andb] in *.
    apply bind_Return_inv in H. destruct H as ([[a x] counter] & _ & H).
    pose (R := fun s s' : state =>
                 is_var_random_int_needed s' = is_var_random_int_needed s).
    destruct (check_sign_frame E R _ _ _ _
                (fun _ => eq_refl)
                (fun a b c Hab Hbc => eq_trans Hbc Hab)
                (fun _ _ _ _ => eq_refl) (fun _ _ => eq_refl)
                (fun _ _ => eq_refl) H) as [[Hr Hno]|(Hu & Hs & Hq & Hseq)];
      cbn [hint_curr hint_curr_sign hint_childs] in *.
    + rewrite Hno. cbn [andb]. rewrite orb_false_r. exact Hr.
    + rewrite Hu, Hs, Hq. cbn [negb andb].
      unfold check_sequence in Hseq.
      cbn [hint_curr hint_curr_sign hint_childs] in Hseq.
      apply bind_Return_inv in Hseq. destruct Hseq as (c & _ & Hseq).
      destruct (add_func_scope_type E c
                  (func_wrapper_locals (with_counter st counter)))
        as [name scope].
      apply bind_Return_inv in Hseq. destruct Hseq as (u & _ & Hseq).
      destruct (get_hint_pep_args h) as [|child rest]; [discriminate|].
      destruct (negb (is_hint_ignorable E child)).
      * apply bind_Return_inv in Hseq. destruct Hseq as (p & _ & Hseq).
        apply bind_Return_inv in Hseq. destruct Hseq as (r & _ & Hseq).
        injection Hseq as _ <-. cbn. now rewrite orb_true_r.
      * apply bind_Return_inv in Hseq. destruct Hseq as (r & _ & Hseq).
        injection Hseq as _ <-. cbn. now rewrite orb_false_r.
  - cbn [andb]. rewrite orb_false_r. destruct h; try discriminate.
    destruct (add_func_scope_type E c (func_wrapper_locals st))
      as [name scope].
    apply bind_Return_inv in H. destruct H as (r & _ & H).
    now injection H as _ <-.
Qed.

(** ** Fixed-length tuples *)



(** ** The random integer, from the first visit to the returned code *)

Lemma visit_random_int (E : External) (root : string) (st st' : state)
    (m : hint_meta) :
  fixed_list_get (hints_meta st) (Z.to_nat (hints_meta_index_curr st)) =
    Some m ->
  visit E root st = Return st' ->
  is_var_random_int_needed st' =
    is_var_random_int_needed st ||
    samples_item E (reduce_hint E (HINT_META_INDEX_HINT m)).
Proof.
  intros Hm H. unfold visit in H. rewrite Hm in H.
  apply bind_Return_inv in H. destruct H as ([code st1] & Hc & H).
  injection H as <-. cbn [is_var_random_int_needed].
  exact (check_hint_random_int E root _ _ _ st st1 code Hc).
Qed.

(** The flag is set after [n] iterations exactly when it was set before
    them or one of them visited a hint that samples an item. *)
Lemma steps_random_int (E : External) (root : string) (n : nat) :
  forall st0 st,
    steps E root n st0 = Some st ->
    is_var_random_int_needed st = true <->
    is_var_random_int_needed st0 = true \/
    exists (k : nat) (st_k : state) (m : hint_meta),
      (k < n)%nat /\
      steps E root k st0 = Some st_k /\
      (hints_meta_index_curr st_k <=? hints_meta_index_last st_k) = true /\
      fixed_list_get (hints_meta st_k)
        (Z.to_nat (hints_meta_index_curr st_k)) = Some m /\
      samples_item E (reduce_hint E (HINT_META_INDEX_HINT m)) = true.
Proof.
  induction n as [|n IH]; intros st0 st H.
  - cbn in H. injection H as <-. split; [now left|].
    intros [H0|(k & _ & _ & Hk & _)]; [exact H0|lia].
  - apply (steps_snoc E root n st0 st) in H.
    destruct H as (st' & Hn & Hp & Hv).
    specialize (IH st0 st' Hn).
    assert (Hget : exists m,
              fixed_list_get (hints_meta st')
                (Z.to_nat (hints_meta_index_curr st')) = Some m).
    { unfold visit in Hv.
      destruct (fixed_list_get (hints_meta st')
                  (Z.to_nat (hints_meta_index_curr st'))) as [m|];
        [eauto|discriminate]. }
    destruct Hget as (m & Hm).
    rewrite (visit_random_int E root st' st m Hm Hv), orb_true_iff.
    split.
    + intros [Hf|Hs].
      * apply IH in Hf. destruct Hf as [H0|(k & sk & mk & Hk & Hrest)];
          [now left|].
        right. exists k, sk, mk. split; [lia|exact Hrest].
      * right. exists n, st', m. split; [lia|]. auto.
    + intros [H0|(k & sk & mk & Hk & Hsk & Hpk & Hmk & Hsam)].
      * left. apply IH. now left.
      * destruct (Nat.eq_dec k n) as [->|Hne].
        -- rewrite Hn in Hsk. injection Hsk as <-.
           rewrite Hm in Hmk. injection Hmk as <-. now right.
        -- left. apply IH. right. exists k, sk, mk.
           split; [lia|]. auto.
Qed.

(** X7: the returned code passes the random integer to the exception
    raiser, and the returned scope binds the random number generator,
    exactly when the search visited a hint that samples an item of a
    sequence; otherwise the suffix is formatted with nothing in its
    place and the scope is that of the last state. *)
Theorem random_int_passed_iff_item_sampled (E : External) (hint_root : hint)
    (code : string) (scope : CallableScope) (names : list string) :
  pep_code_check_hint E hint_root = Some (Return (code, scope, names)) ->
  exists (k : nat) (st_end : state) (suffix : string),
    steps E Snip.PEP_CODE_PITH_ROOT_NAME k (snd (state_root E hint_root)) =
      Some st_end /\
    (is_var_random_int_needed st_end = true <->
     exists h, visits E hint_root h /\ samples_item E h = true) /\
    Format.format (PEP_CODE_CHECK_HINT_ROOT_SUFFIX E)
      [("random_int_if_any",
        if is_var_random_int_needed st_end
        then PEP_CODE_CHECK_HINT_ROOT_SUFFIX_RANDOM_INT E
        else EmptyString)] = Return suffix /\
    code = (func_wrapper_code st_end ++ suffix)%string /\
    scope =
      if is_var_random_int_needed st_end
      then scope_set (func_wrapper_locals st_end) (ARG_NAME_GETRANDBITS E)
             ScopeGetrandbits
      else func_wrapper_locals st_end.
Proof.
  intros H.
  destruct (pep_code_check_hint_returns E hint_root _ H)
    as (k & st_end & Hk & Hend & Hfin).
  pose proof (steps_random_int E _ k _ _ Hk) as Hflag.
  unfold finish in Hfin.
  destruct (String.eqb (func_wrapper_code st_end)
              (fst (state_root E hint_root))); [discriminate|].
  assert (Hiff : is_var_random_int_needed st_end = true <->
                 exists h, visits E hint_root h /\ samples_item E h = true).
  { rewrite Hflag. split.
    - intros [H0|(j & sj & m & Hj & Hsj & Hpj & Hmj & Hsam)].
      + discriminate H0.
      + exists (reduce_hint E (HINT_META_INDEX_HINT m)).
        split; [|exact Hsam]. exists sj, m. split; [|reflexivity].
        exists j. auto.
    - intros (h & (sj & m & (j & Hsj & Hpj & Hmj) & Hr) & Hsam).
      right. exists j, sj, m.
      split; [exact (steps_before_end E _ k j _ _ _ Hk Hend Hsj Hpj)|].
      rewrite Hr. auto. }
  destruct (is_var_random_int_needed st_end) eqn:Hf;
    apply bind_Return_inv in Hfin; destruct Hfin as (suffix & Hs & Hfin);
    injection Hfin as <- <- _;
    exists k, st_end, suffix; rewrite Hf;
    (split; [exact Hk|]); (split; [exact Hiff|]); (split; [exact Hs|]);
    split; reflexivity.
Qed.

Lemma random_int_passed_iff_item_sampled_witness :
  let artifact :=
    Demo.returned (EmptyString, [], [])
      (match pep_code_check_hint (Demo.env true)
               (Demo.Union_ [Demo.str_; Demo.List_ Demo.int_]) with
       | Some r => r
       | None => Raise AssertionError
       end) in
  exists k st_end suffix,
    steps (Demo.env true) Snip.PEP_CODE_PITH_ROOT_NAME k
      (snd (state_root (Demo.env true)
              (Demo.Union_ [Demo.str_; Demo.List_ Demo.int_]))) =
      Some st_end /\
    is_var_random_int_needed st_end = true /\
    fst (fst artifact) = (func_wrapper_code st_end ++ suffix)%string.
Proof.
  intros artifact.
  destruct (random_int_passed_iff_item_sampled (Demo.env true)
              (Demo.Union_ [Demo.str_; Demo.List_ Demo.int_])
              (fst (fst artifact)) (snd (fst artifact)) (snd artifact)
              ltac:(vm_compute; reflexivity))
    as (k & st_end & suffix & Hk & Hiff & _ & Hcode & _).
  exists k, st_end, suffix. split; [exact Hk|]. split; [|exact Hcode].
  apply Hiff. exists (Demo.List_ Demo.int_). split; [|reflexivity].
  eexists. eexists. split.
  - exists 1%nat. split; [vm_compute; reflexivity|].
    split; [reflexivity|vm_compute; reflexivity].
  - reflexivity.
Defined.

(** ** The children of generics and of annotated metahints *)

(** The loop over the pseudo-superclasses of a generic enqueues those
    of [generic_enqueued], in their order. *)
Lemma generic_loop_enqueues (E : External) (f : frame)
    (bases : list (hint * hint)) :
  forall (code code' : string) (st st' : state),
    for_each (generic_child E f) bases (code, st) = Return (code', st') ->
    grows st st'
      (items_from (hint_child_placeholder_id st + 1)
         (pith_curr_assigned_expr f) (indent_child f)
         (generic_enqueued E bases)) /\
    hint_child_placeholder_id st' =
      hint_child_placeholder_id st + len (generic_enqueued E bases).
Proof.
  induction bases as [|[u e] bases IH]; intros code code' st st' H.
  - cbn in H. injection H as _ <-. split; [apply grows_refl|].
    unfold len. cbn. lia.
  - cbn [for_each] in H.
    apply bind_Return_inv in H. destruct H as ([code1 st1] & Hb & H).
    apply IH in H. destruct H as [Hg Hid].
    unfold generic_enqueued. cbn [flat_map].
    fold (generic_enqueued E bases).
    unfold generic_child in Hb.
    destruct (is_type u).
    { injection Hb as _ <-. cbn [app]. now split. }
    destruct (is_hint_ignorable E
                (if negb (is_hint_pep585_builtin E u && is_hint_pep_typing E u)
                 then e else u)).
    { injection Hb as _ <-. cbn [app]. now split. }
    match type of Hb with
    | context [_enqueue_hint_child ?s ?hc ?i ?p] =>
        pose proof (grows_enqueue s hc i p) as Hq;
        assert (Hid1 : hint_child_placeholder_id
                         (snd (_enqueue_hint_child s hc i p)) =
                       hint_child_placeholder_id s + 1) by reflexivity;
        change (fst (_enqueue_hint_child s hc i p))
          with (placeholder_of (hint_child_placeholder_id s + 1)) in Hq;
        destruct (_enqueue_hint_child s hc i p) as [ph st2]
    end.
    cbn [fst snd] in Hq, Hid1.
    apply bind_Return_inv in Hb. destruct Hb as (r & _ & Hb).
    injection Hb as _ <-.
    cbn [app items_from]. rewrite Hid1 in Hg. split.
    + exact (grows_trans _ _ _ [_] _ Hq Hg).
    + rewrite Hid, Hid1. unfold len. cbn [length]. lia.
Qed.

(** X9: the visit of a generic enqueues, in their order, exactly those
    of its pseudo-superclasses that are no classes and, erased where
    they are not both PEP 585 builtins and [typing] hints, are not
    ignorable; each of them is checked against the pith variable of the
    generic itself, one level of indentation deeper. *)
Theorem generic_enqueues_unignorable_bases (E : External) (h : hint)
    (e : pexpr) (indent : string) (st st1 : state) (code : string) :
  generic_case E h = true ->
  check_hint E Snip.PEP_CODE_PITH_ROOT_NAME h (unparse_p e) indent st =
    Return (code, st1) ->
  let x := snd (assigned_piths E Snip.PEP_CODE_PITH_ROOT_NAME e
                  (pith_curr_assign_expr_name_counter st)) in
  let children :=
    generic_enqueued E (get_hint_pep_generic_bases_unerased h) in
  grows st st1
    (items_from (hint_child_placeholder_id st + 1) (unparse_p x)
       (indent ++ CODE_INDENT_1 E)%string children) /\
  hint_child_placeholder_id st1 = hint_child_placeholder_id st + len children.
Proof.
  intros Hcase H x children. unfold generic_case, passes_tuples in Hcase.
  apply andb_true_iff in Hcase. destruct Hcase as [Hcase Hgen].
  apply andb_true_iff in Hcase. destruct Hcase as [Hcase Hfwd].
  apply andb_true_iff in Hcase. destruct Hcase as [Hcase Hann].
  apply andb_true_iff in Hcase. destruct Hcase as [Hcase Htuple].
  apply andb_true_iff in Hcase. destruct Hcase as [Hcase Hseq].
  apply andb_true_iff in Hcase. destruct Hcase as [Hcase Hshallow].
  apply andb_true_iff in Hcase. destruct Hcase as [Hreach Hunion].
  apply negb_true_iff in Hunion, Hshallow, Hseq, Htuple, Hann, Hfwd.
  rewrite (check_hint_switch E _ h _ indent st Hreach) in H.
  destruct (assign_pith_unparse E Snip.PEP_CODE_PITH_ROOT_NAME e
              (pith_curr_assign_expr_name_counter st)) as (counter & Hpith).
  rewrite Hpith in H. cbn [bind fst snd] in H. fold x in H.
  unfold check_sign in H. cbn [hint_curr_sign hint_curr hint_childs] in H.
  rewrite Hunion, Hshallow, Hseq, Htuple, Hann, Hfwd, Hgen in H.
  unfold check_generic in H. cbn [hint_curr] in H.
  destruct (get_hint_pep_generic_type_or_none h) as [c|]; [|discriminate].
  apply bind_Return_inv in H. destruct H as ([code2 st2] & Hloop & H).
  apply generic_loop_enqueues in Hloop. destruct Hloop as [Hg Hid].
  cbn [pith_curr_assigned_expr indent_child with_counter
       hint_child_placeholder_id] in Hg, Hid.
  fold children in Hg, Hid.
  destruct (add_func_scope_type E c (func_wrapper_locals st2))
    as [name scope].
  apply bind_Return_inv in H. destruct H as (r & _ & H).
  injection H as _ <-. split; [|exact Hid].
  eapply (grows_trans _ _ _ [] _); [apply grows_with_counter|].
  rewrite <- (List.app_nil_r (items_from _ _ _ children)).
  eapply grows_trans; [exact Hg|apply grows_with_locals].
Qed.

Lemma generic_enqueues_unignorable_bases_witness :
  let h :=
    HintGeneric (Some "Stack")
      [(Demo.List_ Demo.int_, Demo.List_ Demo.int_);
       (Demo.int_, Demo.int_);
       (HintSign (SignAttr "Any"), HintSign (SignAttr "Any"))] in
  let st := snd (state_root (Demo.env true) h) in
  let checked :=
    Demo.returned (EmptyString, st)
      (check_hint (Demo.env true) Snip.PEP_CODE_PITH_ROOT_NAME h
         "__beartype_pith_0" "    " st) in
  grows st (snd checked)
    [HintMeta (Demo.List_ Demo.int_) (placeholder_of 1) "__beartype_pith_0"
       "        "] /\
  hint_child_placeholder_id (snd checked) = 1.
Proof.
  intros h st checked.
  exact (generic_enqueues_unignorable_bases (Demo.env true) h
           (PVar "__beartype_pith_0") "    " st (snd checked) (fst checked)
           eq_refl ltac:(vm_compute; reflexivity)).
Defined.

(** X10: the visit of an annotated metahint enqueues one child, the
    metahint that the validators annotate, to be checked against the
    expression that assigns the current pith; the validators enqueue
    nothing. *)
Theorem annotated_enqueues_metahint (E : External) (h : hint) (e : pexpr)
    (indent : string) (st st1 : state) (code : string) :
  annotated_case E h = true ->
  check_hint E Snip.PEP_CODE_PITH_ROOT_NAME h (unparse_p e) indent st =
    Return (code, st1) ->
  let a := fst (assigned_piths E Snip.PEP_CODE_PITH_ROOT_NAME e
                  (pith_curr_assign_expr_name_counter st)) in
  grows st st1
    [HintMeta (get_hint_pep593_metahint h)
       (placeholder_of (hint_child_placeholder_id st + 1)) (unparse_p a)
       (indent ++ CODE_INDENT_1 E)%string] /\
  hint_child_placeholder_id st1 = hint_child_placeholder_id st + 1.
Proof.
  intros Hcase H a. unfold annotated_case, passes_tuples in Hcase.
  apply andb_true_iff in Hcase. destruct Hcase as [Hcase Hann].
  apply andb_true_iff in Hcase. destruct Hcase as [Hcase Htuple].
  apply andb_true_iff in Hcase. destruct Hcase as [Hcase Hseq].
  apply andb_true_iff in Hcase. destruct Hcase as [Hcase Hshallow].
  apply andb_true_iff in Hcase. destruct Hcase as [Hreach Hunion].
  apply negb_true_iff in Hunion, Hshallow, Hseq, Htuple.
  rewrite (check_hint_switch E _ h _ indent st Hreach) in H.
  destruct (assign_pith_unparse E Snip.PEP_CODE_PITH_ROOT_NAME e
              (pith_curr_assign_expr_name_counter st)) as (counter & Hpith).
  rewrite Hpith in H. cbn [bind fst snd] in H. fold a in H.
  unfold check_sign in H. cbn [hint_curr_sign hint_curr hint_childs] in H.
  rewrite Hunion, Hshallow, Hseq, Htuple, Hann in H.
  unfold check_annotated in H.
  cbn [hint_curr pith_curr_assign_expr indent_child] in H.
  apply bind_Return_inv in H. destruct H as (u & _ & H).
  match type of H with
  | context [_enqueue_hint_child ?s ?hc ?i ?p] =>
      pose proof (grows_enqueue s hc i p) as Hq;
      assert (Hid1 : hint_child_placeholder_id
                       (snd (_enqueue_hint_child s hc i p)) =
                     hint_child_placeholder_id s + 1) by reflexivity;
      change (fst (_enqueue_hint_child s hc i p))
        with (placeholder_of (hint_child_placeholder_id s + 1)) in Hq;
      destruct (_enqueue_hint_child s hc i p) as [ph st2]
  end.
  cbn [fst snd with_counter hint_child_placeholder_id] in Hq, Hid1.
  apply bind_Return_inv in H. destruct H as (prefix & _ & H).
  apply bind_Return_inv in H. destruct H as ([code3 st3] & Hloop & H).
  apply bind_Return_inv in H. destruct H as (suffix & _ & H).
  injection H as _ <-.
  apply (for_each_inv
           (fun acc : string * state =>
              grows st2 (snd acc) [] /\
              hint_child_placeholder_id (snd acc) =
                hint_child_placeholder_id st2)) in Hloop.
  - destruct Hloop as [Hg Hid3]. cbn [snd] in Hg, Hid3.
    split; [|lia].
    eapply (grows_trans _ _ _ [] _); [apply grows_with_counter|].
    exact (grows_trans _ _ _ [_] [] Hq Hg).
  - intros [c0 s0] v [c1 s1] _ [Hg0 Hid0] Hb. cbn [snd] in *.
    unfold annotated_child in Hb. destruct v; try discriminate.
    apply bind_Return_inv in Hb. destruct Hb as (x1 & _ & Hb).
    apply bind_Return_inv in Hb. destruct Hb as (x2 & _ & Hb).
    apply bind_Return_inv in Hb. destruct Hb as (x3 & _ & Hb).
    injection Hb as _ <-. split; [|exact Hid0].
    exact (grows_trans _ _ _ [] [] Hg0 (grows_with_locals _ _)).
  - split; [apply grows_refl|reflexivity].
Qed.

Lemma annotated_enqueues_metahint_witness :
  let h :=
    HintAnnotated (Demo.List_ Demo.int_)
      (HintSubscriptedIs "len({obj}) > 0" []) [] in
  let st := snd (state_root (Demo.env true) h) in
  let checked :=
    Demo.returned (EmptyString, st)
      (check_hint (Demo.env true) Snip.PEP_CODE_PITH_ROOT_NAME h
         "__beartype_pith_0[0]" "    " st) in
  grows st (snd checked)
    [HintMeta (Demo.List_ Demo.int_) (placeholder_of 1)
       "__beartype_pith_1 := __beartype_pith_0[0]" "        "] /\
  hint_child_placeholder_id (snd checked) = 1.
Proof.
  intros h st checked.
  exact (annotated_enqueues_metahint (Demo.env true) h
           (PItem (PVar "__beartype_pith_0") 0) "    " st (snd checked)
           (fst checked) eq_refl ltac:(vm_compute; reflexivity)).
Defined.
(** ** The check of a fixed-length tuple and its meaning *)

(** The last formatting of the lines of one conjunct. *)
Lemma scan_tuple_line (indent pith : string) (c : conjunct) (s : string) :
  no_brace (unparse_c c) = true ->
  Format.scan [("indent_curr", indent); ("pith_curr_assign_expr", pith)]
    Format.Literal (tuple_line "{indent_curr}" c ++ s) =
    (r <- Format.scan
            [("indent_curr", indent); ("pith_curr_assign_expr", pith)]
            Format.Literal s ;;
     Return (tuple_line indent c ++ r)%string).
Proof.
  intros Hb. unfold tuple_line.
  destruct c; cbn [comment_c];
    match goal with
    | |- context [unparse_c ?c] =>
        revert Hb; generalize (unparse_c c); intros d Hb
    end;
    repeat (rewrite ?string_app_assoc; cbn);
    rewrite (scan_plain _ d s Hb);
    destruct (Format.scan _ Format.Literal s); cbn; try reflexivity;
    repeat (rewrite ?string_app_assoc; cbn); reflexivity.
Qed.

(** The last formatting of the lines of one or more conjuncts, the
    [ and] of the last line stripped: the lines joined by [and], at the
    indentation of the tuple. *)
Lemma scan_tuple_lines (indent pith rest : string) (cs : list conjunct) :
  forall c : conjunct,
    forallb (fun c' => no_brace (unparse_c c')) (c :: cs) = true ->
    Format.scan [("indent_curr", indent); ("pith_curr_assign_expr", pith)]
      Format.Literal
      (Text.slice_to (-4) (tuple_lines_deferred (c :: cs)) ++ rest) =
      (r <- Format.scan
              [("indent_curr", indent); ("pith_curr_assign_expr", pith)]
              Format.Literal rest ;;
       Return (tuple_lines indent c cs ++ r)%string).
Proof.
  induction cs as [|c' cs IH]; intros c Hb;
    cbn [forallb] in Hb; apply andb_true_iff in Hb; destruct Hb as [Hc Hb].
  - cbn [tuple_lines_deferred tuple_lines].
    rewrite TextFacts.app_nil_r_string.
    change (-4) with (- Z.of_nat 4).
    rewrite (slice_to_app 4 _ " and" ltac:(cbn; lia)).
    change (Text.slice_to (- Z.of_nat 4) " and") with EmptyString.
    rewrite TextFacts.app_nil_r_string.
    now apply scan_tuple_line.
  - change (tuple_lines_deferred (c :: c' :: cs))
      with (tuple_line "{indent_curr}" c ++
            " and" ++ tuple_lines_deferred (c' :: cs))%string.
    change (-4) with (- Z.of_nat 4).
    rewrite (slice_to_app 4 (tuple_line "{indent_curr}" c) _).
    2:{ split; [lia|]. rewrite string_length_app.
        pose proof (tuple_lines_deferred_length c' cs). lia. }
    rewrite (slice_to_app 4 " and" _
               (conj (Nat.lt_0_succ 3) (tuple_lines_deferred_length c' cs))).
    change (- Z.of_nat 4) with (-4).
    rewrite !string_app_assoc.
    rewrite (scan_tuple_line indent pith c _ Hc).
    change (" and" ++ ?y)%string
      with (String " " (String "a" (String "n" (String "d" y)))).
    cbn [String.append Format.scan Ascii.eqb Bool.eqb].
    rewrite (IH c' Hb).
    destruct (Format.scan _ Format.Literal rest); [|reflexivity].
    cbn [bind tuple_lines]. now rewrite ?string_app_assoc.
Qed.

Lemma assigned_variable_no_brace (E : External) (root : string) (e : pexpr)
    (counter : Z) :
  no_brace (unparse_p e) = true ->
  no_brace (unparse_p (snd (assigned_piths E root e counter))) = true.
Proof.
  intros Hb. unfold assigned_piths.
  destruct (IS_PYTHON_AT_LEAST_3_8 E && negb (String.eqb (unparse_p e) root));
    cbn [snd unparse_p]; [|exact Hb].
  rewrite !no_brace_app. unfold no_brace at 2.
  rewrite !(TextFacts.str_of_int_chars _ (counter + 1)) by reflexivity.
  reflexivity.
Qed.

Lemma str_of_int_no_brace (i : Z) : no_brace (Text.str_of_int i) = true.
Proof.
  unfold no_brace.
  now rewrite !(TextFacts.str_of_int_chars _ i) by reflexivity.
Qed.

Lemma tuple_conjuncts_no_brace (E : External) (id : Z) (x : pexpr) (h : hint) :
  no_brace (unparse_p x) = true ->
  forallb (fun c => no_brace (unparse_c c))
    (fst (tuple_conjuncts E id x h) :: snd (tuple_conjuncts E id x h)) = true.
Proof.
  intros Hx. unfold tuple_conjuncts.
  destruct (is_hint_pep_tuple_empty E h); cbn [fst snd forallb unparse_c].
  - now rewrite no_brace_app, Hx.
  - rewrite !no_brace_app, Hx, str_of_int_no_brace. cbn [andb].
    generalize (get_hint_pep_args h). intros hs. revert id.
    induction hs as [|c hs IH]; intros id; cbn [tuple_placeholders map forallb];
      [reflexivity|].
    destruct (is_hint_ignorable E c); [apply IH|].
    cbn [map forallb unparse_c]. now rewrite placeholder_no_brace, IH.
Qed.

(** The code that the visit of a fixed-length tuple returns is the text
    of the check of the tuple, when the prefix tests the type of the
    pith. *)
Lemma check_hint_tuple_text (E : External) (h : hint) (e : pexpr)
    (indent type_expr : string) (st st1 : state) (code : string) :
  tuple_fixed_case E h = true ->
  LINE_RSTRIP_INDEX_AND E = -4 ->
  tuple_prefix_tests E type_expr ->
  no_brace (unparse_p e) = true ->
  check_hint E Snip.PEP_CODE_PITH_ROOT_NAME h (unparse_p e) indent st =
    Return (code, st1) ->
  let a := fst (assigned_piths E Snip.PEP_CODE_PITH_ROOT_NAME e
                  (pith_curr_assign_expr_name_counter st)) in
  let x := snd (assigned_piths E Snip.PEP_CODE_PITH_ROOT_NAME e
                  (pith_curr_assign_expr_name_counter st)) in
  let cs := tuple_conjuncts E (hint_child_placeholder_id st + 1) x h in
  code = unparse_tuple_check indent a type_expr (fst cs) (snd cs).
Proof.
  intros Hcase Hand Hprefix Hb H a x cs.
  destruct (check_hint_tuple_fixed E h e indent st st1 code Hcase H)
    as (_ & _ & Hcode).
  fold a x in Hcode. fold cs in Hcode.
  rewrite Hand in Hcode. change (-4) with (- Z.of_nat 4) in Hcode.
  rewrite (slice_to_app 4 _ _
             (conj (Nat.lt_0_succ 3) (tuple_lines_deferred_length _ _)))
    in Hcode.
  change (- Z.of_nat 4) with (-4) in Hcode.
  rewrite string_app_assoc in Hcode.
  pose proof (Hprefix indent (unparse_p a)) as Hp. cbn in Hp.
  unfold Format.format in *.
  rewrite (scan_app _ _ _ _ _ Hp) in Hcode.
  rewrite (scan_tuple_lines indent (unparse_p a) _ (snd cs) (fst cs))
    in Hcode
    by (apply tuple_conjuncts_no_brace;
        now apply assigned_variable_no_brace).
  cbn in Hcode. injection Hcode as <-.
  unfold unparse_tuple_check. cbn [unparse_b].
  repeat (rewrite ?string_app_assoc; cbn). reflexivity.
Qed.

Lemma tuple_accepted_length (E : External) (accepts : Z -> value -> bool)
    (hs : list hint) :
  forall (index : Z) (items : list value),
    tuple_accepted E accepts index hs items = true ->
    List.length items = List.length hs.
Proof.
  induction hs as [|h hs IH]; intros index [|w items] H; cbn in *;
    try discriminate; [reflexivity|].
  apply andb_true_iff in H. destruct H as [_ H].
  now rewrite (IH _ _ H).
Qed.

(** The checks of the child hints, evaluated from left to right on a
    tuple that has as many items as the hint has child hints. *)
Lemma eval_tuple_children (E : External) (rt : runtime)
    (chk : string -> store -> result (bool * store)) (x : pexpr)
    (accepts : Z -> value -> bool) (cl : cls) (s1 : store) (hs : list hint) :
  forall (id : Z) (pre suf : list value),
    eval_p rt s1 x = Return (VSequence cl (pre ++ suf), s1) ->
    tuple_children_check E rt chk id x (len pre) hs accepts ->
    List.length suf = List.length hs ->
    eval_conjuncts rt chk s1 (map CItem (tuple_placeholders E id hs)) =
      Return (tuple_accepted E accepts (len pre) hs suf, s1).
Proof.
  induction hs as [|h hs IH]; intros id pre suf Hx Hchk Hlen.
  - destruct suf; [reflexivity|discriminate].
  - destruct suf as [|w suf]; [discriminate|].
    injection Hlen as Hlen.
    assert (Hpre : len pre + 1 = len (pre ++ [w])).
    { unfold len. rewrite length_app. cbn. lia. }
    assert (Hx' : eval_p rt s1 x =
                  Return (VSequence cl ((pre ++ [w]) ++ suf), s1)).
    { now rewrite <- List.app_assoc. }
    cbn [tuple_placeholders tuple_accepted tuple_children_check] in *.
    destruct (is_hint_ignorable E h).
    + cbn [orb andb]. rewrite Hpre in *. now apply IH.
    + destruct Hchk as [Hchild Hchk]. cbn [map eval_conjuncts eval_c].
      rewrite (Hchild s1). cbn [eval_p]. rewrite Hx. cbn [bind fst snd].
      cbn [subscript].
      replace (Z.to_nat (len pre)) with (List.length pre)
        by (unfold len; lia).
      rewrite nth_error_app2 by lia. rewrite Nat.sub_diag.
      cbn [nth_error bind fst snd orb].
      destruct (accepts (len pre) w); cbn [andb]; [|reflexivity].
      rewrite Hpre in *. now apply IH.
Qed.

(** The value of the check of a fixed-length tuple whose pith has the
    value [v]. *)
Lemma eval_tuple_check_value (E : External) (rt : runtime)
    (chk : string -> store -> result (bool * store)) (h : hint) (e : pexpr)
    (counter id : Z) (type_expr : string) (c : cls) (s s1 : store)
    (v : value) (accepts : Z -> value -> bool) :
  let a := fst (assigned_piths E Snip.PEP_CODE_PITH_ROOT_NAME e counter) in
  let x := snd (assigned_piths E Snip.PEP_CODE_PITH_ROOT_NAME e counter) in
  let cs := tuple_conjuncts E id x h in
  pure e = true ->
  scope_get (scope rt) type_expr = Some (ScopeType c) ->
  tuple_children_check E rt chk id x 0 (get_hint_pep_args h) accepts ->
  eval_p rt s a = Return (v, s1) ->
  eval_tuple_check rt chk s a type_expr (fst cs :: snd cs) =
    if issubclass rt (class_of v) c then
      if is_hint_pep_tuple_empty E h then Return (negb (truthy v), s1)
      else
        match v with
        | VSequence _ items =>
            Return (tuple_accepted E accepts 0 (get_hint_pep_args h) items,
                    s1)
        | VObject _ _ => Raise TypeError
        end
    else Return (false, s1).
Proof.
  intros a x cs Hp Hscope Hchk Ha.
  pose proof (eval_assigned E rt _ e counter s s1 v Hp Ha) as Hx.
  fold x in Hx.
  unfold eval_tuple_check. cbn [eval_b]. rewrite Ha. cbn [bind fst snd].
  unfold isinstance. rewrite Hscope. cbn [bind fst snd].
  destruct (issubclass rt (class_of v) c); [|reflexivity].
  subst cs. unfold tuple_conjuncts.
  destruct (is_hint_pep_tuple_empty E h); cbn [fst snd eval_conjuncts eval_c].
  - cbn [eval_b]. rewrite Hx. cbn [bind fst snd].
    now destruct (negb (truthy v)).
  - rewrite Hx. cbn [bind fst snd].
    destruct v as [cl truth|cl items]; [reflexivity|].
    cbn [len_of bind fst snd].
    destruct (Z.eqb_spec (len items) (len (get_hint_pep_args h))) as [Hn|Hn].
    + apply (eval_tuple_children E rt chk x accepts cl s1 _ id [] items);
        [exact Hx|exact Hchk|unfold len in Hn; lia].
    + destruct (tuple_accepted E accepts 0 (get_hint_pep_args h) items)
        eqn:Hacc; [|reflexivity].
      apply tuple_accepted_length in Hacc. unfold len in Hn. lia.
Qed.


